(** * Three-phonon scattering rates of [ballistico/anharmoniccontroller.py]

    A shallow embedding of the scattering-rate engine: the broadening
    kernels, [calculate_broadening], [calculate_single_gamma], the
    occupation accessor of [AnharmonicController] and the checkpointed loop
    [calculate_gamma].

    Conventions of the embedding.
    - A float64 is an exact rational ([Q]); [np.pi], [np.exp], [np.sqrt],
      [scipy.special.erf] and the constants of [ase.units] are parameters
      of the development.
    - A one-dimensional numpy array is a [list]; an argument that numpy
      accepts as a scalar or as an array is an [operand], and the
      broadcasting rules are written out, with the [ValueError] and
      [IndexError] numpy raises.
    - Read-only fields of the physical system (frequencies, occupations,
      eigenvectors, ...) are index functions, read only inside their shape.
    - Code that can raise returns a [result]; code that mutates the phonons
      object or the progress files is a function on an explicit [state]. *)

From Stdlib Require Import ZArith QArith Qabs Lia Bool.
From stdpp Require Import base list gmap strings.

Local Open Scope Q_scope.

(** ** Python exceptions and fallible results *)

Inductive exn : Type :=
| ValueError
| IndexError
| KeyError
| UnboundLocalError
| AttributeError
| TypeError.

Inductive result (A : Type) : Type :=
| Ok (a : A)
| Raise (e : exn).

Arguments Ok {A} a.
Arguments Raise {A} e.

Definition rbind {A B : Type} (r : result A) (k : A -> result B) : result B :=
  match r with
  | Ok a => k a
  | Raise e => Raise e
  end.

Declare Scope result_scope.
Delimit Scope result_scope with result.
Notation "x <- r ;; k" := (rbind r (fun x => k))
  (at level 100, r at next level, right associativity) : result_scope.
Local Open Scope result_scope.

(** ** Constants of the module (lines 8-16) *)

Definition DELTA_THRESHOLD : Q := 2.
Definition IS_DELTA_CORRECTION_ENABLED : bool := false.
Definition SCATTERING_MATRIX_FILE : string := "scattering_matrix".
Definition C_V_FILE : string := "c_v.npy".
Definition OCCUPATIONS_FILE : string := "occupations.npy".

(** ** The fragment of numpy the module uses *)

Module Np.

(** [x < y] on floats, as a boolean. *)
Definition ltb (x y : Q) : bool := negb (Qle_bool y x).

(** A numpy argument that is a scalar or a one-dimensional array. *)
Inductive operand : Type :=
| Scalar (x : Q)
| Array (xs : list Q).

(** A ufunc of one argument. *)
Definition map1 (f : Q -> Q) (w : operand) : operand :=
  match w with
  | Scalar x => Scalar (f x)
  | Array xs => Array (map f xs)
  end.

(** Broadcasting of two one-dimensional shapes: equal lengths pair up, a
    length of one is stretched, anything else is a [ValueError]. *)
Definition broadcast {A : Type} (f : Q -> Q -> A) (xs ys : list Q)
  : result (list A) :=
  if Nat.eqb (length xs) (length ys) then Ok (zip_with f xs ys)
  else match ys with
       | [y] => Ok (map (fun x => f x y) xs)
       | _ => match xs with
              | [x] => Ok (map (f x) ys)
              | _ => Raise ValueError
              end
       end.

(** [array (op) operand]. *)
Definition op_l {A : Type} (f : Q -> Q -> A) (xs : list Q) (w : operand)
  : result (list A) :=
  match w with
  | Scalar y => Ok (map (fun x => f x y) xs)
  | Array ys => broadcast f xs ys
  end.

(** [operand (op) array]. *)
Definition op_r {A : Type} (f : Q -> Q -> A) (w : operand) (ys : list Q)
  : result (list A) :=
  match w with
  | Scalar x => Ok (map (f x) ys)
  | Array xs => broadcast f xs ys
  end.

(** [a[mask]]: the entries of [a] where the boolean array [mask] holds. *)
Fixpoint mask_select {A : Type} (mask : list bool) (xs : list A) : list A :=
  match mask, xs with
  | b :: mask', x :: xs' =>
      if b then x :: mask_select mask' xs' else mask_select mask' xs'
  | _, _ => []
  end.

Definition take_mask {A : Type} (mask : list bool) (xs : list A)
  : result (list A) :=
  if Nat.eqb (length mask) (length xs) then Ok (mask_select mask xs)
  else Raise IndexError.

(** [out[mask] = vals], the values consumed in order. *)
Fixpoint mask_assign {A : Type} (mask : list bool) (out vals : list A)
  : list A :=
  match mask, out with
  | b :: mask', o :: out' =>
      if b then
        match vals with
        | v :: vals' => v :: mask_assign mask' out' vals'
        | [] => o :: mask_assign mask' out' []
        end
      else o :: mask_assign mask' out' vals
  | _, _ => out
  end.

Definition count_true (mask : list bool) : nat :=
  length (filter (fun b => b = true) mask).

(** [out[mask] = vals] with numpy's shape checks: as many values as
    selected places, or one value that fills them all. *)
Definition put_mask (mask : list bool) (out vals : list Q)
  : result (list Q) :=
  if negb (Nat.eqb (length mask) (length out)) then Raise IndexError
  else if Nat.eqb (length vals) (count_true mask)
       then Ok (mask_assign mask out vals)
  else match vals with
       | [v] => Ok (mask_assign mask out (replicate (count_true mask) v))
       | _ => Raise ValueError
       end.

(** [a *= b] on a one-dimensional [a]: the shape of [a] is kept. *)
Definition imul (xs : list Q) (ys : list Q) : result (list Q) :=
  if Nat.eqb (length xs) (length ys) then Ok (zip_with Qmult xs ys)
  else match ys with
       | [y] => Ok (map (fun x => x * y) xs)
       | _ => Raise ValueError
       end.

(** [a.sum()]. *)
Definition sum (xs : list Q) : Q := fold_left Qplus xs 0.

(** [a[i]] for an integer [i]: negative indices count from the end. *)
Definition index (n : nat) (i : Z) : result nat :=
  if (0 <=? i)%Z && (i <? Z.of_nat n)%Z then Ok (Z.to_nat i)
  else if (- Z.of_nat n <=? i)%Z && (i <? 0)%Z
       then Ok (Z.to_nat (i + Z.of_nat n))
  else Raise IndexError.

End Np.

(** ** Broadening kernels (lines 30-74) *)

Section Kernels.

(** [np.pi], [np.exp], [np.sqrt] and [scipy.special.erf]. *)
Variable pi : Q.
Variable np_exp : Q -> Q.
Variable np_sqrt : Q -> Q.
Variable erf : Q -> Q.

(** A kernel takes [params = [delta_energy, width]], the first a
    one-dimensional array, the second a scalar or an array. *)
Definition kernel : Type := list Q -> Np.operand -> result (list Q).

Definition gaussian_delta : kernel := fun delta_energy sigma =>
  let correction :=
    if IS_DELTA_CORRECTION_ENABLED
    then erf (DELTA_THRESHOLD / np_sqrt 2)
    else 1 in
  e <- Np.op_l Qdiv (map (fun d => - d ^ 2) delta_energy)
                    (Np.map1 (fun s => s ^ 2) sigma) ;;
  gaussian <- Np.op_r Qmult
                (Np.map1 (fun s => 1 / np_sqrt (pi * s ^ 2)) sigma)
                (map np_exp e) ;;
  Ok (map (fun g => g / correction) gaussian).

(** The table of line 59. *)
Definition corrections (k : Q) : result Q :=
  if Qeq_bool k 1 then Ok (704833 # 1000000)
  else if Qeq_bool k 2 then Ok (844042 # 1000000)
  else if Qeq_bool k 3 then Ok (894863 # 1000000)
  else if Qeq_bool k 4 then Ok (920833 # 1000000)
  else if Qeq_bool k 5 then Ok (936549 # 1000000)
  else if Qeq_bool k 6 then Ok (947071 # 1000000)
  else if Qeq_bool k 7 then Ok (954604 # 1000000)
  else if Qeq_bool k 8 then Ok (960263 # 1000000)
  else if Qeq_bool k 9 then Ok (964669 # 1000000)
  else if Qeq_bool k 10 then Ok (968195 # 1000000)
  else Raise KeyError.

Definition lorentzian_delta : kernel := fun delta_energy gamma =>
  correction <-
    (if IS_DELTA_CORRECTION_ENABLED then corrections DELTA_THRESHOLD
     else Ok 1) ;;
  den <- Np.op_l Qplus (map (fun d => d ^ 2) delta_energy)
                           (Np.map1 (fun g => (g / 2) ^ 2) gamma) ;;
  lorentzian <- Np.op_r Qdiv
                      (Np.map1 (fun g => 1 / pi * 1 / 2 * g) gamma) den ;;
  Ok (map (fun l => l / correction) lorentzian).

Definition triangular_delta : kernel := fun params0 params1 =>
  let delta_energy := map Qabs params0 in
  let deltaa := Np.map1 Qabs params1 in
  let out := map (fun _ => 0) delta_energy in
  mask <- Np.op_l Np.ltb delta_energy deltaa ;;
  selected <- Np.take_mask mask delta_energy ;;
  ratio <- Np.op_l Qdiv selected deltaa ;;
  rhs <- Np.op_r Qmult (Np.map1 (fun w => 1 / w) deltaa)
                           (map (fun r => 1 - r) ratio) ;;
  Np.put_mask mask out rhs.

End Kernels.

(** ** Complex numbers and index arithmetic *)

Record complex : Type := Cx { re : Q; im : Q }.

Definition cadd (a b : complex) : complex := Cx (re a + re b) (im a + im b).
Definition cmul (a b : complex) : complex :=
  Cx (re a * re b - im a * im b) (re a * im b + im a * re b).
Definition conj (a : complex) : complex := Cx (re a) (- im a).
Definition czero : complex := Cx 0 0.

(** Sum of [f 0], ..., [f (n - 1)], for a real and for a complex summand. *)
Definition sum_below (n : nat) (f : nat -> Q) : Q :=
  Np.sum (map f (seq 0 n)).
Definition csum_below (n : nat) (f : nat -> complex) : complex :=
  fold_left cadd (map f (seq 0 n)) czero.

(** The mesh [k_size = (nx, ny, nz)] and [nptk = np.prod(k_size)]. *)
Definition mesh : Type := (nat * nat * nat)%type.

Definition mesh_dim (k_size : mesh) (axis : nat) : nat :=
  match k_size, axis with
  | (nx, _, _), 0%nat => nx
  | (_, ny, _), 1%nat => ny
  | (_, _, nz), _ => nz
  end.

Definition np_prod (k_size : mesh) : nat :=
  match k_size with (nx, ny, nz) => (nx * ny * nz)%nat end.

(** [np.unravel_index(index, k_size, order='C')] for [index < nptk]. *)
Definition unravel_index (index : nat) (k_size : mesh) : Z * Z * Z :=
  match k_size with
  | (nx, ny, nz) =>
      let i := Z.of_nat index in
      ((i / (Z.of_nat ny * Z.of_nat nz))%Z,
       ((i / Z.of_nat nz) mod Z.of_nat ny)%Z,
       (i mod Z.of_nat nz)%Z)
  end.

(** [np.ravel_multi_index(i, k_size, order='C', mode='wrap')]: every
    component is reduced modulo its dimension first. *)
Definition ravel_multi_index_wrap (i : Z * Z * Z) (k_size : mesh) : nat :=
  match i, k_size with
  | (a, b, c), (nx, ny, nz) =>
      Z.to_nat (((a mod Z.of_nat nx) * Z.of_nat ny + b mod Z.of_nat ny)
                * Z.of_nat nz + c mod Z.of_nat nz)%Z
  end.

(** [(int(is_plus) * 2 - 1)] *)
Definition second_sign (is_plus : bool) : Z := (Z.b2z is_plus * 2 - 1)%Z.

(** Lines 321-325: the conjugate wavevector of every mesh point [p], for
    the bra wavevector [index_k]:
    [i_kpp_vec = i_k[:, np.newaxis] + (int(is_plus) * 2 - 1) * i_kp_vec]. *)
Definition conjugate_index (is_plus : bool) (k_size : mesh)
    (index_k p : nat) : nat :=
  let '(ka, kb, kc) := unravel_index index_k k_size in
  let '(pa, pb, pc) := unravel_index p k_size in
  let s := second_sign is_plus in
  ravel_multi_index_wrap ((ka + s * pa)%Z, (kb + s * pb)%Z, (kc + s * pc)%Z)
                         k_size.

Definition index_kpp_of (is_plus : bool) (k_size : mesh) (index_k : nat)
  : list nat :=
  map (conjugate_index is_plus k_size index_k) (seq 0 (np_prod k_size)).

(** ** The scattering engine *)

(** The broadening width handed to [calculate_single_gamma]: the fixed
    [sigma_in], or the tensor of [calculate_broadening], one entry per
    candidate [(p, mup, mupp)]. *)
Inductive width : Type :=
| WidthScalar (s : Q)
| WidthTensor (t : nat -> nat -> nat -> Q).

Definition width_at (sigma : width) (p mup mupp : nat) : Q :=
  match sigma with
  | WidthScalar s => s
  | WidthTensor t => t p mup mupp
  end.

(** What [calculate_single_gamma] returns when some triplet survives
    (line 134). *)
Record gamma_out : Type := GammaOut {
  index_kp_vec : list nat;
  mup_vec : list nat;
  index_kpp_vec : list nat;
  mupp_vec : list nat;
  pot_times_dirac : list Q;
  dirac_delta : list Q
}.

Section Engine.

Variable pi : Q.
Variable np_sqrt : Q -> Q.
(** [units._hbar], [units.mol], [units.J] and [units.kB] of [ase]. *)
Variable units_hbar units_mol units_J units_kB : Q.

Definition EVTOTENJOVERMOL : Q := units_mol / (10 * units_J).
Definition KELVINTOJOULE : Q := units_kB / units_J.
Definition KELVINTOTHZ : Q :=
  units_kB / units_J / (2 * pi * units_hbar) * (1 # 1000000000000).

(** [np.abs] of a complex number. *)
Definition np_abs (z : complex) : Q := np_sqrt (re z ^ 2 + im z ^ 2).

(** Lines 22-27. [velocity] has three leading axes and the coordinate
    axis last; [cellinv] is 3 x 3. *)
Definition calculate_broadening (velocity : nat -> nat -> nat -> nat -> Q)
    (cellinv : nat -> nat -> Q) (k_size : mesh)
  : nat -> nat -> nat -> Q :=
  fun p mup mupp =>
    let delta_k a b := cellinv a b / inject_Z (Z.of_nat (mesh_dim k_size b)) in
    let base_sigma :=
      sum_below 3 (fun a =>
        (sum_below 3 (fun b => velocity p mup mupp b * delta_k a b)) ^ 2) in
    np_sqrt (base_sigma / 6).

Section SingleGamma.

(** The arguments of [calculate_single_gamma] (line 77) that its body
    reads ([sigma_in] is not among them), with the shapes of the
    arrays: [index_kp_full] and [kpp_mapping] have
    [nptk] entries, [omegas], [frequencies] and [density] are
    [nptk x n_modes], the eigenvector arrays [nptk x n_modes x n_modes],
    the phase arrays [nptk x n_replicas] and the projected potential
    [n_replicas x n_modes x n_replicas x n_modes]. *)
Variable is_plus : bool.
Variables index_k mu : nat.
Variable index_kp_full : list nat.
Variables frequencies density : nat -> nat -> Q.
Variable nptk : nat.
Variables first_evect second_evect : nat -> nat -> nat -> complex.
Variables first_chi second_chi : nat -> nat -> complex.
Variable scaled_potential : nat -> nat -> nat -> nat -> complex.
Variable frequencies_threshold : Q.
Variable omegas : nat -> nat -> Q.
Variable kpp_mapping : list nat.
Variable sigma_small : width.
Variable broadening_function : kernel.
Variables n_modes n_replicas : nat.

(** Lines 81-82; axis 0 is the position in [index_kp_full]. *)
Definition omegas_difference (j mup mupp : nat) : Q :=
  Qabs (omegas index_k mu
        + inject_Z (second_sign is_plus) * omegas (nth j index_kp_full 0%nat) mup
        - omegas (nth j kpp_mapping 0%nat) mupp).

(** Lines 84-86. *)
Definition condition (j mup mupp : nat) : bool :=
  Np.ltb (omegas_difference j mup mupp)
         (DELTA_THRESHOLD * 2 * pi * width_at sigma_small j mup mupp)
  && Np.ltb frequencies_threshold (frequencies (nth j index_kp_full 0%nat) mup)
  && Np.ltb frequencies_threshold (frequencies (nth j kpp_mapping 0%nat) mupp).

(** All index triples of an array of shape [a x b x c], row-major. *)
Definition cube (a b c : nat) : list (nat * nat * nat) :=
  j ← seq 0 a; mup ← seq 0 b; mupp ← seq 0 c; [(j, mup, mupp)].

(** Line 87: [np.array(np.where(condition)).T]. *)
Definition interactions : list (nat * nat * nat) :=
  filter (fun t => condition t.1.1 t.1.2 t.2 = true)
         (cube nptk n_modes n_modes).

(** [np.array(sigma_small).size == 1] (line 106). *)
Definition sigma_size_is_one : bool :=
  match sigma_small with
  | WidthScalar _ => true
  | WidthTensor _ => Nat.eqb (nptk * n_modes * n_modes) 1
  end.

(** Lines 99-103, for one surviving triplet. *)
Definition statistical_weight (p mup mupp : nat) : Q :=
  let pp := nth p kpp_mapping 0%nat in
  if is_plus then density p mup - density pp mupp
  else (1 # 2) * (1 + density p mup + density pp mupp).

(** Lines 116-125: the contraction ['litj,kni,kl,kmj,kt->knm']. *)
Definition contract (k n m : nat) : complex :=
  csum_below n_replicas (fun l =>
    csum_below n_modes (fun i =>
      csum_below n_replicas (fun t =>
        csum_below n_modes (fun j =>
          cmul (cmul (cmul (cmul (scaled_potential l i t j)
                                 (first_evect k n i))
                           (first_chi k l))
                     (second_evect k m j))
               (second_chi k t))))).

(** Line 131. *)
Definition gammatothz : Q :=
  100000000000 * units_mol * EVTOTENJOVERMOL ^ 2.

(** Line 132. *)
Definition to_rate (x : Q) : Q :=
  units_hbar * pi / 4 * x / omegas index_k mu
  / inject_Z (Z.of_nat nptk) * gammatothz.

(** Lines 106-114: the kernel at the energy mismatch of every surviving
    triplet, with the fixed width or with the width of each triplet.
    A width tensor of a single entry takes the first branch with an
    array of shape (1, 1, 1), which numpy cannot combine with the
    one-dimensional arrays of the triplets; [calculate_gamma] never
    builds one, [n_modes] being a multiple of 3. *)
Definition density_of_states (rows : list (nat * nat * nat))
  : result (list Q) :=
  let differences :=
    map (fun t => omegas_difference t.1.1 t.1.2 t.2) rows in
  if sigma_size_is_one then
    match sigma_small with
    | WidthScalar s =>
        broadening_function differences (Np.Scalar (2 * pi * s))
    | WidthTensor _ => Raise ValueError
    end
  else
    broadening_function differences
      (Np.Array (map (fun t => 2 * pi * width_at sigma_small t.1.1 t.1.2 t.2)
                     rows)).

Definition calculate_single_gamma : result (option gamma_out) :=
  let rows := interactions in
  match rows with
  | [] => Ok None
  | _ :: _ =>
      let index_kp_vec := map (fun t => t.1.1) rows in
      let index_kpp_vec := map (fun p => nth p kpp_mapping 0%nat) index_kp_vec in
      let mup_vec := map (fun t => t.1.2) rows in
      let mupp_vec := map (fun t => t.2) rows in
      let dirac_delta :=
        map (fun t =>
               statistical_weight t.1.1 t.1.2 t.2
               / (omegas t.1.1 t.1.2
                  * omegas (nth t.1.1 kpp_mapping 0%nat) t.2))
            rows in
      broadened <- density_of_states rows ;;
      dirac_delta <- Np.imul dirac_delta broadened ;;
      let gathered := map (fun t => contract t.1.1 t.1.2 t.2) rows in
      let pot_times_dirac :=
        zip_with (fun v d => np_abs v ^ 2 * d) gathered dirac_delta in
      let pot_times_dirac := map to_rate pot_times_dirac in
      Ok (Some (GammaOut index_kp_vec mup_vec index_kpp_vec mupp_vec
                         pot_times_dirac dirac_delta))
  end.

End SingleGamma.

End Engine.

(** ** The numerical libraries

    What the module takes from numpy, scipy and ase, and the two
    conversions between floats and text it relies on. *)
Record numerics : Type := Numerics {
  lib_pi : Q;                  (**r [np.pi] *)
  lib_exp : Q -> Q;            (**r [np.exp] *)
  lib_sqrt : Q -> Q;           (**r [np.sqrt] *)
  lib_erf : Q -> Q;            (**r [scipy.special.erf] *)
  lib_hbar : Q;                (**r [units._hbar] *)
  lib_mol : Q;                 (**r [units.mol] *)
  lib_J : Q;                   (**r [units.J] *)
  lib_kB : Q;                  (**r [units.kB] *)
  lib_savetxt : Q -> Q;        (**r the float read back from the ['%.8e']
                                    text [np.savetxt] writes *)
  lib_str : Q -> string        (**r [str] of a number *)
}.

(** ** The phonons object and the state [calculate_gamma] mutates *)

(** What the controller reads from [self.phonons] and does not change.
    The arrays that lines 257-311 prepare from the eigenvectors, the
    masses, the cell and the replicas ([cell_inv], [chi],
    [rescaled_eigenvectors]) and the projection of the third-order tensor
    on a bra mode (lines 364-366) are fields of the record. *)
Record phonons : Type := Phonons {
  folder_name : string;
  temperature : Q;
  is_classic : bool;
  sigma_in : option Q;
  n_phonons : nat;
  n_particles : nat;
  frequencies : nat -> nat -> Q;
  velocities : nat -> nat -> nat -> Q;
  occupations : nat -> nat -> Q;
  kpts : mesh;
  broadening_shape : string;
  frequency_threshold : Q;
  n_replicas : nat;
  cell_inv : nat -> nat -> Q;
  chi : nat -> nat -> complex;
  rescaled_eigenvectors : nat -> nat -> complex;
  projected_potential : nat -> nat -> nat -> nat -> nat -> complex
}.

(** One line of a progress file, as [np.fromstring(line, sep=' ')] reads
    it: the floats it holds. *)
Definition line : Type := list Q.

Inductive accumulator : Type := Gamma | Ps.
Inductive origin : Type := Replayed | Computed.

(** Ghost record of what a run did; no branch of the model reads it. *)
Inductive event : Type :=
| EvAdd (target : accumulator) (from : origin) (is_plus : bool)
        (nu : nat) (value : Q)
| EvTensorAlloc
| EvTensorWrite (row col : nat) (subtract : bool) (value : Q)
| EvEvaluated (is_plus : bool) (nu_single : nat).

Record state : Type := State {
  _gamma : list Q;
  _ps : list Q;
  _gamma_tensor : option (list (list Q));
  (** the progress files [scattering_matrix_1] (plus) and
      [scattering_matrix_0] (minus) of the run's folder; [None]: no file *)
  scattering_matrix_1 : option (list line);
  scattering_matrix_0 : option (list line);
  trace : list event
}.

Definition progress_file (is_plus : bool) (s : state) : option (list line) :=
  if is_plus then scattering_matrix_1 s else scattering_matrix_0 s.

Definition set_gamma (g : list Q) (s : state) : state :=
  State g (_ps s) (_gamma_tensor s) (scattering_matrix_1 s)
        (scattering_matrix_0 s) (trace s).
Definition set_ps (p : list Q) (s : state) : state :=
  State (_gamma s) p (_gamma_tensor s) (scattering_matrix_1 s)
        (scattering_matrix_0 s) (trace s).
Definition set_gamma_tensor (t : option (list (list Q))) (s : state) : state :=
  State (_gamma s) (_ps s) t (scattering_matrix_1 s)
        (scattering_matrix_0 s) (trace s).
Definition set_progress_file (is_plus : bool) (f : option (list line))
    (s : state) : state :=
  if is_plus
  then State (_gamma s) (_ps s) (_gamma_tensor s) f
             (scattering_matrix_0 s) (trace s)
  else State (_gamma s) (_ps s) (_gamma_tensor s) (scattering_matrix_1 s)
             f (trace s).
Definition log_event (e : event) (s : state) : state :=
  State (_gamma s) (_ps s) (_gamma_tensor s) (scattering_matrix_1 s)
        (scattering_matrix_0 s) (trace s ++ [e]).

(** *** Stateful, fallible code *)

Definition prog (S A : Type) : Type := S -> S * result A.

Definition ret {S A : Type} (a : A) : prog S A := fun s => (s, Ok a).
Definition raise {S A : Type} (e : exn) : prog S A := fun s => (s, Raise e).
Definition bind {S A B : Type} (m : prog S A) (k : A -> prog S B)
  : prog S B :=
  fun s => match m s with
           | (s', Ok a) => k a s'
           | (s', Raise e) => (s', Raise e)
           end.
Definition get {S : Type} : prog S S := fun s => (s, Ok s).
Definition modify {S : Type} (f : S -> S) : prog S unit :=
  fun s => (f s, Ok tt).
Definition lift {S A : Type} (r : result A) : prog S A := fun s => (s, r).

(** Code that works on the accumulators and the progress files. *)
Abbreviation M := (prog state).

Declare Scope prog_scope.
Delimit Scope prog_scope with prog.
Notation "x <<- m ;; k" := (bind m (fun x => k))
  (at level 100, m at next level, right associativity) : prog_scope.
Notation "m ;;; k" := (bind m (fun _ => k))
  (at level 100, right associativity) : prog_scope.
Local Open Scope prog_scope.

(** A [for] loop whose body may [break]; [L] holds the local variables the
    body assigns. *)
Inductive flow (L : Type) : Type :=
| Continue (l : L)
| Break (l : L).
Arguments Continue {L} l.
Arguments Break {L} l.

Fixpoint for_in {S A L : Type} (xs : list A)
    (body : A -> L -> prog S (flow L)) (l : L) : prog S L :=
  match xs with
  | [] => ret l
  | x :: xs' =>
      f <<- body x l ;;
      match f with
      | Continue l' => for_in xs' body l'
      | Break l' => ret l'
      end
  end.

(** [int(x)] of a float: truncation towards zero. *)
Definition py_int (x : Q) : Z := Z.quot (Qnum x) (Zpos (Qden x)).

(** [a[i] = f(a[i])] on a one-dimensional array ([a[i] += v]). *)
Definition update_at (a : list Q) (i : Z) (f : Q -> Q)
  : result (nat * list Q) :=
  j <- Np.index (length a) i ;;
  Ok (j, alter f j a).

(** [t[i, j] = f(t[i, j])] on a two-dimensional array. *)
Definition update_at2 (t : list (list Q)) (i j : Z) (f : Q -> Q)
  : result (nat * nat * list (list Q)) :=
  r <- Np.index (length t) i ;;
  match t !! r with
  | Some row =>
      c <- Np.index (length row) j ;;
      Ok (r, c, alter (alter f c) r t)
  | None => Raise IndexError
  end.

Definition accumulator_of (target : accumulator) (s : state) : list Q :=
  match target with Gamma => _gamma s | Ps => _ps s end.
Definition set_accumulator (target : accumulator) (a : list Q) (s : state)
  : state :=
  match target with Gamma => set_gamma a s | Ps => set_ps a s end.

(** [self.phonons._gamma[nu] += value] and [self.phonons._ps[nu] += value]. *)
Definition accumulate (target : accumulator) (from : origin) (is_plus : bool)
    (nu : Z) (value : Q) : M unit :=
  s <<- get ;;
  r <<- lift (update_at (accumulator_of target s) nu (fun x => x + value)) ;;
  modify (set_accumulator target r.2) ;;;
  modify (log_event (EvAdd target from is_plus r.1 value)).

(** [t[nu, nup] -= value] or [t[nu, nup] += value]. *)
Definition signed_add (subtract : bool) (value : Q) (x : Q) : Q :=
  if subtract then x - value else x + value.

(** [gamma_tensor[nu, nup] -= value] ([subtract]) or [+= value]. The replay
    loop reaches the tensor through the property
    [self.phonons.gamma_tensor], the fresh computation through the
    attribute [_gamma_tensor] the property stands for. *)
Definition tensor_update (nu nup : Z) (subtract : bool) (value : Q) : M unit :=
  s <<- get ;;
  match _gamma_tensor s with
  | None => raise TypeError
  | Some t =>
      r <<- lift (update_at2 t nu nup (signed_add subtract value)) ;;
      modify (set_gamma_tensor (Some r.2)) ;;;
      modify (log_event (EvTensorWrite r.1.1 r.1.2 subtract value))
  end.

(** Lines 250-255 and 386-391: the signed scatter of one contribution. *)
Definition scatter_into_tensor (is_plus : bool) (nu nup nupp : Z) (value : Q)
  : M unit :=
  if is_plus then
    tensor_update nu nup true value ;;;
    tensor_update nu nupp false value
  else
    tensor_update nu nup false value ;;;
    tensor_update nu nupp false value.

(** [open(progress_filename, 'a+')]: the file is created when absent. *)
Definition open_progress_file (is_plus : bool) : M unit :=
  s <<- get ;;
  modify (set_progress_file is_plus
            (Some (default [] (progress_file is_plus s)))).

(** [np.savetxt(file, rows)] on the open progress file: the handle stands
    at the end of the file, after the replay or by the append mode. *)
Definition savetxt (is_plus : bool) (rows : list line) : M unit :=
  s <<- get ;;
  modify (set_progress_file is_plus
            (Some (default [] (progress_file is_plus s) ++ rows))).

(** ** The controller object and its cached occupations (lines 139-185) *)

(** A numpy array of any shape: its shape and its entries in C order. *)
Record ndarray : Type := NdArray { shape : list nat; data : list Q }.

Inductive pyval : Type :=
| PyNone
| PyBool (b : bool)
| PyFloat (x : Q)
| PyStr (s : string)
| PyArray (a : ndarray)
| PyPhonons (p : phonons).

(** The controller instance is its attribute dictionary; the files of
    [np.save] and [np.load] are a map from path to array. *)
Record world : Type := World {
  self : gmap string pyval;
  disk : gmap string ndarray
}.

(** [self.name]: the class defines only the properties [occupations] and
    [c_v] and the method [calculate_gamma], so every other name is looked
    up in the instance. *)
Definition getattr (name : string) : prog world pyval :=
  fun w => match self w !! name with
           | Some v => (w, Ok v)
           | None => (w, Raise AttributeError)
           end.

Definition setattr (name : string) (v : pyval) : prog world unit :=
  modify (fun w => World (<[name := v]> (self w)) (disk w)).

Definition np_save (path : string) (a : ndarray) : prog world unit :=
  modify (fun w => World (self w) (<[path := a]> (disk w))).

Definition is_none (v : pyval) : bool :=
  match v with PyNone => true | _ => false end.

Section Occupations.

Variable lib : numerics.

(** [AnharmonicController.__init__] (lines 140-151). *)
Definition init (ph : phonons) : gmap string pyval :=
  let name := folder_name ph +:+ "/" +:+ lib_str lib (temperature ph) +:+ "/" in
  let name := if is_classic ph then name +:+ "classic/"
              else name +:+ "quantum/" in
  <["_c_v" := PyNone]>
    (<["_occupations" := PyNone]>
       (<["folder_name" := PyStr name]>
          (<["phonons" := PyPhonons ph]> ∅))).

(** The setter (lines 181-185). *)
Definition occupations_setter (new_occupations : ndarray)
  : prog world unit :=
  folder <<- getattr "folder_name" ;;
  match folder with
  | PyStr folder =>
      np_save (folder +:+ OCCUPATIONS_FILE) new_occupations ;;;
      setattr "_occupations" (PyArray new_occupations)
  | _ => raise TypeError
  end.

(** Lines 168-177: the occupations computed from the frequencies. *)
Definition compute_density (frequencies : ndarray) (temp threshold : Q)
    (classic : pyval) : result ndarray :=
  let density := map (fun _ => 0) (data frequencies) in
  let physical_modes := map (Np.ltb threshold) (data frequencies) in
  selected <- Np.take_mask physical_modes (data frequencies) ;;
  let rhs :=
    match classic with
    | PyBool false =>
        map (fun f => 1 / (lib_exp lib (f / temp) - 1)) selected
    | _ => map (fun f => temp / f) selected
    end in
  density <- Np.put_mask physical_modes density rhs ;;
  Ok (NdArray (shape frequencies) density).

(** The getter (lines 160-179). *)
Definition occupations_getter : prog world pyval :=
  cached <<- getattr "_occupations" ;;
  (if is_none cached then
     folder <<- getattr "folder_name" ;;
     match folder with
     | PyStr folder =>
         w <<- get ;;
         match disk w !! (folder +:+ OCCUPATIONS_FILE) with
         | Some a => setattr "_occupations" (PyArray a)
         | None => ret tt              (* FileNotFoundError, printed *)
         end
     | _ => raise TypeError
     end
   else ret tt) ;;;
  cached <<- getattr "_occupations" ;;
  (if is_none cached then
     frequencies <<- getattr "frequencies" ;;
     temperature <<- getattr "temperature" ;;
     threshold <<- getattr "frequency_threshold" ;;
     classic <<- getattr "is_classic" ;;
     match frequencies, temperature, threshold with
     | PyArray frequencies, PyFloat temperature, PyFloat threshold =>
         let temp :=
           temperature
           * KELVINTOTHZ (lib_pi lib) (lib_hbar lib) (lib_J lib) (lib_kB lib) in
         density <<- lift (compute_density frequencies temp threshold classic) ;;
         occupations_setter density
     | _, _, _ => raise TypeError
     end
   else ret tt) ;;;
  getattr "_occupations".

End Occupations.

(** ** [AnharmonicController.calculate_gamma] (lines 222-395) *)

(** The local variables of [calculate_gamma] that its loops assign. *)
Record frame : Type := Frame {
  read_nu : Z;
  file : bool;                            (**r a handle is open *)
  broadening_function : option kernel     (**r [None]: not bound yet *)
}.

Section Controller.

Variable lib : numerics.
Variable self_phonons : phonons.
Variable is_gamma_tensor_enabled : bool.

Let k_size : mesh := kpts self_phonons.
Let nptk : nat := np_prod k_size.
Let n_modes : nat := (n_particles self_phonons * 3)%nat.

(** Lines 229-232. *)
Definition reset_accumulators : M unit :=
  modify (set_gamma (replicate (n_phonons self_phonons) 0)) ;;;
  modify (set_ps (replicate (n_phonons self_phonons) 0)) ;;;
  if is_gamma_tensor_enabled then
    modify (set_gamma_tensor
              (Some (replicate (n_phonons self_phonons)
                               (replicate (n_phonons self_phonons) 0)))) ;;;
    modify (log_event EvTensorAlloc)
  else ret tt.

(** Lines 243-255: one line of the progress file. *)
Definition replay_line (is_plus : bool) (l : line) : M Z :=
  match l with
  | [a; b; c; value; value_ps] =>
      let read_nu := py_int a in
      let read_nup := py_int b in
      let read_nupp := py_int c in
      accumulate Gamma Replayed is_plus read_nu value ;;;
      accumulate Ps Replayed is_plus read_nu value_ps ;;;
      (if is_gamma_tensor_enabled
       then scatter_into_tensor is_plus read_nu read_nup read_nupp value
       else ret tt) ;;;
      ret read_nu
  | _ => raise ValueError
  end.

(** Lines 234-255: [read_nu] and [file] after the attempt to open and
    replay the progress file. *)
Definition replay (is_plus : bool) (bound : option kernel) : M frame :=
  s <<- get ;;
  match progress_file is_plus s with
  | None => ret (Frame (-1) false bound)
  | Some lines =>
      read_nu <<- for_in lines
                    (fun l _ => r <<- replay_line is_plus l ;; ret (Continue r))
                    (-1)%Z ;;
      ret (Frame read_nu true bound)
  end.

(** Lines 339-344: no branch for any other name. *)
Definition select_broadening (broadening : string) (bound : option kernel)
  : option kernel :=
  if String.eqb broadening "gauss"
  then Some (gaussian_delta (lib_pi lib) (lib_exp lib) (lib_sqrt lib)
                            (lib_erf lib))
  else if String.eqb broadening "lorentz"
  then Some (lorentzian_delta (lib_pi lib))
  else if String.eqb broadening "triangle" then Some triangular_delta
  else bound.

(** Line 283. *)
Definition is_amorphous : bool :=
  match k_size with
  | (nx, ny, nz) => Nat.eqb nx 1 && Nat.eqb ny 1 && Nat.eqb nz 1
  end.

(** Lines 346-352. *)
Definition sigma_small_of (index_kpp_vec : list nat) : width :=
  match sigma_in self_phonons with
  | None =>
      WidthTensor
        (calculate_broadening (lib_sqrt lib)
           (fun p mup mupp c =>
              velocities self_phonons p mup c
              - velocities self_phonons (nth p index_kpp_vec 0%nat) mupp c)
           (cell_inv self_phonons) k_size)
  | Some s => WidthScalar s
  end.

(** Lines 372-394: what a non-empty [gamma_out] does to the state. *)
Definition commit (is_plus : bool) (nu_single : nat) (out : gamma_out)
  : M unit :=
  let nup_vec :=
    zip_with (fun k m => (k * n_modes + m)%nat)
             (index_kp_vec out) (mup_vec out) in
  let nupp_vec :=
    zip_with (fun k m => (k * n_modes + m)%nat)
             (index_kpp_vec out) (mupp_vec out) in
  accumulate Gamma Computed is_plus (Z.of_nat nu_single)
             (Np.sum (pot_times_dirac out)) ;;;
  accumulate Ps Computed is_plus (Z.of_nat nu_single)
             (Np.sum (dirac_delta out)) ;;;
  for_in (zip (zip nup_vec nupp_vec) (pot_times_dirac out))
    (fun t (_ : unit) =>
       (if is_gamma_tensor_enabled
        then scatter_into_tensor is_plus (Z.of_nat nu_single)
               (Z.of_nat t.1.1) (Z.of_nat t.1.2) t.2
        else ret tt) ;;;
       ret (Continue tt))
    tt ;;;
  savetxt is_plus
    (zip_with (fun t d =>
                 [inject_Z (Z.of_nat nu_single); inject_Z (Z.of_nat t.1.1);
                  inject_Z (Z.of_nat t.1.2); lib_savetxt lib t.2;
                  lib_savetxt lib d])
              (zip (zip nup_vec nupp_vec) (pot_times_dirac out))
              (dirac_delta out)).

(** Lines 355-394: the body of [for mu in range(n_modes)]. *)
Definition mode_body (is_plus : bool) (initial_k initial_mu index_k : nat)
    (index_kpp_vec : list nat) (sigma_small : width)
    (mu : nat) (fr : frame) : M (flow frame) :=
  if Nat.eqb index_k initial_k && Nat.ltb mu initial_mu then ret (Break fr)
  else
    let nu_single := (index_k * n_modes + mu)%nat in
    (if file fr then ret tt else open_progress_file is_plus) ;;;
    let fr := Frame (read_nu fr) true (broadening_function fr) in
    if Np.ltb (frequency_threshold self_phonons)
              (frequencies self_phonons index_k mu)
    then
      match broadening_function fr with
      | None => raise UnboundLocalError
      | Some kern =>
          modify (log_event (EvEvaluated is_plus nu_single)) ;;;
          gamma_out <<- lift
            (calculate_single_gamma (lib_pi lib) (lib_sqrt lib)
               (lib_hbar lib) (lib_mol lib) (lib_J lib)
               is_plus index_k mu (seq 0 nptk)
               (frequencies self_phonons) (occupations self_phonons) nptk
               (fun k n i =>
                  let e := rescaled_eigenvectors self_phonons
                             (k * n_modes + n)%nat i in
                  if is_plus then e else conj e)
               (fun k m j =>
                  conj (rescaled_eigenvectors self_phonons
                          (nth k index_kpp_vec 0%nat * n_modes + m)%nat j))
               (fun k l =>
                  if is_plus then chi self_phonons k l
                  else conj (chi self_phonons k l))
               (fun k t => conj (chi self_phonons (nth k index_kpp_vec 0%nat) t))
               (projected_potential self_phonons nu_single)
               (frequency_threshold self_phonons)
               (fun k m => 2 * lib_pi lib * frequencies self_phonons k m)
               index_kpp_vec sigma_small kern
               n_modes (n_replicas self_phonons)) ;;
          match gamma_out with
          | Some out => commit is_plus nu_single out ;;; ret (Continue fr)
          | None => ret (Continue fr)
          end
      end
    else ret (Continue fr).

(** Lines 319-394: the body of [for index_k in range(initial_k, nptk)]. *)
Definition wavevector_body (is_plus : bool) (initial_k initial_mu : nat)
    (index_k : nat) (fr : frame) : M (flow frame) :=
  let index_kpp_vec := index_kpp_of is_plus k_size index_k in
  (* lines 333-337: [chi] is the integer 1 for a 1 x 1 x 1 mesh, and an
     integer has no method [conj] *)
  if is_amorphous then raise AttributeError
  else
    let fr := Frame (read_nu fr) (file fr)
                (select_broadening (broadening_shape self_phonons)
                                   (broadening_function fr)) in
    let sigma_small := sigma_small_of index_kpp_vec in
    fr <<- for_in (seq 0 n_modes)
             (mode_body is_plus initial_k initial_mu index_k
                        index_kpp_vec sigma_small)
             fr ;;
    ret (Continue fr).

(** One pass of [for is_plus in [1, 0]] (lines 234-395). *)
Definition pass (is_plus : bool) (bound : option kernel)
  : M (option kernel) :=
  fr <<- replay is_plus bound ;;
  let fr := Frame (read_nu fr + 1) (file fr) (broadening_function fr) in
  if (read_nu fr <? Z.of_nat (nptk * n_modes))%Z then
    if (read_nu fr <? 0)%Z then raise ValueError
    else
      let initial_k := (Z.to_nat (read_nu fr) / n_modes)%nat in
      let initial_mu := (Z.to_nat (read_nu fr) mod n_modes)%nat in
      fr <<- for_in (seq initial_k (nptk - initial_k))
               (wavevector_body is_plus initial_k initial_mu) fr ;;
      if file fr then ret (broadening_function fr)
      else raise AttributeError
  else ret (broadening_function fr).

Definition calculate_gamma : M unit :=
  reset_accumulators ;;;
  bound <<- pass true None ;;
  _ <<- pass false bound ;;
  ret tt.

End Controller.

(** ** The cached heat capacity (lines 188-219) *)

(** [bool(v)], as [if self.is_classic:] takes it: an array of more than one
    entry has no truth value; a phonons object is taken to define neither
    [__bool__] nor [__len__]. *)
Definition truthy (v : pyval) : result bool :=
  match v with
  | PyNone => Ok false
  | PyBool b => Ok b
  | PyFloat x => Ok (negb (Qeq_bool x 0))
  | PyStr s => Ok (negb (String.eqb s EmptyString))
  | PyArray a =>
      match data a with
      | [] => Ok false
      | [x] => Ok (negb (Qeq_bool x 0))
      | _ => Raise ValueError
      end
  | PyPhonons _ => Ok true
  end.

(** [a[mask]] for a boolean array [mask] made from an array of shape
    [shape_of_mask]: the shapes have to agree. *)
Definition take_mask_of (shape_of_mask : list nat) (mask : list bool)
    (a : ndarray) : result (list Q) :=
  if decide (shape a = shape_of_mask) then Np.take_mask mask (data a)
  else Raise IndexError.

Section HeatCapacity.

Variable lib : numerics.

(** The setter (lines 215-219). *)
Definition c_v_setter (new_c_v : ndarray) : prog world unit :=
folder <<- getattr "folder_name" ;;
match folder with
| PyStr folder =>
    np_save (folder +:+ C_V_FILE) new_c_v ;;;
    setattr "_c_v" (PyArray new_c_v)
| _ => raise TypeError
end.

(** Line 208, entry by entry. *)
Definition quantum_c_v (temperature : Q) (f_be frequency : Q) : Q :=
KELVINTOJOULE (lib_J lib) (lib_kB lib) * f_be * (f_be + 1) * frequency ^ 2
/ temperature ^ 2.

(** The getter (lines 192-213). As in [occupations_getter], the attributes
  are an array and two floats. *)
Definition c_v_getter : prog world pyval :=
cached <<- getattr "_c_v" ;;
(if is_none cached then
   folder <<- getattr "folder_name" ;;
   match folder with
   | PyStr folder =>
       w <<- get ;;
       match disk w !! (folder +:+ C_V_FILE) with
       | Some a => setattr "_c_v" (PyArray a)
       | None => ret tt                (* FileNotFoundError, printed *)
       end
   | _ => raise TypeError
   end
 else ret tt) ;;;
cached <<- getattr "_c_v" ;;
(if is_none cached then
   frequencies <<- getattr "frequencies" ;;
   threshold <<- getattr "frequency_threshold" ;;
   temperature <<- getattr "temperature" ;;
   classic <<- getattr "is_classic" ;;
   match frequencies, threshold, temperature with
   | PyArray frequencies, PyFloat threshold, PyFloat temperature =>
       let c_v := map (fun _ => 0) (data frequencies) in
       let physical_modes := map (Np.ltb threshold) (data frequencies) in
       let temperature :=
         temperature
         * KELVINTOTHZ (lib_pi lib) (lib_hbar lib) (lib_J lib) (lib_kB lib) in
       classic <<- lift (truthy classic) ;;
       c_v <<-
         (if classic then
            lift (Np.put_mask physical_modes c_v
                    [KELVINTOJOULE (lib_J lib) (lib_kB lib)])
          else
            f_be <<- occupations_getter lib ;;
            again <<- getattr "frequencies" ;;
            match f_be, again with
            | PyArray f_be, PyArray again =>
                lift (n <- take_mask_of (shape frequencies) physical_modes
                                        f_be ;;
                      f <- take_mask_of (shape frequencies) physical_modes
                                        again ;;
                      Np.put_mask physical_modes c_v
                        (zip_with (quantum_c_v temperature) n f))%result
            | _, _ => raise TypeError
            end) ;;
       c_v_setter (NdArray (shape frequencies) c_v)
   | _, _, _ => raise TypeError
   end
 else ret tt) ;;;
getattr "_c_v".

End HeatCapacity.

(** * Vocabulary of the properties *)

(** ** Kernels *)

(** The ramp of lines 70-72 for a scalar width [w] at the difference [d]. *)
Definition ramp (w d : Q) : Q := 1 / Qabs w * (1 - Qabs d / Qabs w).

(** Two results of a kernel agree up to sign. *)
Definition negated (r r' : result (list Q)) : Prop :=
  match r, r' with
  | Ok out, Ok out' => Forall2 (fun o o' => o' == - o) out out'
  | Raise e, Raise e' => e = e'
  | _, _ => False
  end.

(** ** Index arithmetic of the mesh *)

(** Componentwise sum or difference of two index triples, wrapped. *)
Definition wrap_sum (is_plus : bool) (k_size : mesh) (i_k i_kp : Z * Z * Z)
  : Z * Z * Z :=
  let '(nx, ny, nz) := k_size in
  let '(a, b, c) := i_k in
  let '(a', b', c') := i_kp in
  let s := (if is_plus then 1 else -1)%Z in
  (((a + s * a') mod Z.of_nat nx)%Z,
   ((b + s * b') mod Z.of_nat ny)%Z,
   ((c + s * c') mod Z.of_nat nz)%Z).

(** A line of a progress file that records a triplet of modes of the
    mesh whose wavevectors add up. *)
Definition conserving (ph : phonons) (is_plus : bool) (l : line) : Prop :=
  let k_size := kpts ph in
  let nptk := np_prod k_size in
  let n_modes := (n_particles ph * 3)%nat in
  exists index_k mu index_kp mup index_kpp mupp value value_ps,
    l = [inject_Z (Z.of_nat (index_k * n_modes + mu));
         inject_Z (Z.of_nat (index_kp * n_modes + mup));
         inject_Z (Z.of_nat (index_kpp * n_modes + mupp));
         value; value_ps] /\
    (index_k < nptk /\ index_kp < nptk /\ index_kpp < nptk)%nat /\
    (mu < n_modes /\ mup < n_modes /\ mupp < n_modes)%nat /\
    unravel_index index_kpp k_size
    = wrap_sum is_plus k_size (unravel_index index_k k_size)
               (unravel_index index_kp k_size).

(** The kernel name is one of the three of lines 339-344. *)
Definition recognised (lib : numerics) (ph : phonons) : Prop :=
  select_broadening lib (broadening_shape ph) None <> None.

(** A bound kernel was bound by one of the three branches. *)
Definition bound_by_name (lib : numerics) (ph : phonons)
    (bound : option kernel) : Prop :=
  bound <> None -> recognised lib ph.

(** The shape of what [calculate_single_gamma] returned for the bra
    wavevector [index_k]. *)
Definition from_mesh (ph : phonons) (is_plus : bool) (index_k : nat)
    (out : gamma_out) : Prop :=
  let k_size := kpts ph in
  let nptk := np_prod k_size in
  let n_modes := (n_particles ph * 3)%nat in
  exists rows : list (nat * nat * nat),
    Forall (fun t => t.1.1 < nptk /\ t.1.2 < n_modes /\ t.2 < n_modes)%nat
           rows /\
    index_kp_vec out = map (fun t => t.1.1) rows /\
    mup_vec out = map (fun t => t.1.2) rows /\
    index_kpp_vec out
    = map (fun t => conjugate_index is_plus k_size index_k t.1.1) rows /\
    mupp_vec out = map (fun t => t.2) rows.

(** ** A program logic for [prog]

    [keeps R m Q]: every run of [m] ends in a state related by [R] to the
    one it started from, and a returned value satisfies [Q]. *)
Definition keeps {S A : Type} (R : S -> S -> Prop) (m : prog S A)
    (Q : A -> Prop) : Prop :=
  forall s, R s (m s).1 /\ forall a, (m s).2 = Ok a -> Q a.

(** The loop invariant holds of what an iteration hands on. *)
Definition after {L : Type} (I : L -> Prop) (f : flow L) : Prop :=
  match f with Continue l | Break l => I l end.

(** [sim E m1 m2]: from states related by [E], whenever [m1] returns, [m2]
    returns the same value and the final states are related by [E]. *)
Definition sim {S A : Type} (E : S -> S -> Prop) (m1 m2 : prog S A) : Prop :=
  forall s1 s2, E s1 s2 ->
  forall s1' a, m1 s1 = (s1', Ok a) ->
  exists s2', m2 s2 = (s2', Ok a) /\ E s1' s2'.

(** ** Relations between the state before and after a run *)

(** The lines of a progress file, none when the file is absent. *)
Definition lines (is_plus : bool) (s : state) : list line :=
  default [] (progress_file is_plus s).

(** Each progress file keeps its lines and gains conserving ones. *)
Definition grows (ph : phonons) (s s' : state) : Prop :=
  forall b, exists new,
    lines b s' = lines b s ++ new /\ Forall (conserving ph b) new.

Definition is_tensor_event (e : event) : bool :=
  match e with
  | EvTensorAlloc | EvTensorWrite _ _ _ _ => true
  | _ => false
  end.

(** The mode-pair tensor is the same object with the same entries, and no
    step allocated or wrote one. *)
Definition tensor_kept (s s' : state) : Prop :=
  _gamma_tensor s' = _gamma_tensor s /\
  exists evs, trace s' = trace s ++ evs /\
              Forall (fun e => is_tensor_event e = false) evs.

Definition is_fresh_event (e : event) : bool :=
  match e with
  | EvEvaluated _ _ | EvAdd _ Computed _ _ _ => true
  | _ => false
  end.

(** No triplet was evaluated, no fresh contribution was added and no line
    was written. *)
Definition nothing_computed (s s' : state) : Prop :=
  (forall b, lines b s' = lines b s) /\
  exists evs, trace s' = trace s ++ evs /\
              Forall (fun e => is_fresh_event e = false) evs.

Definition add_event (target : accumulator) (a : list Q) (e : event)
  : list Q :=
  match e, target with
  | EvAdd Gamma _ _ nu value, Gamma
  | EvAdd Ps _ _ nu value, Ps => alter (fun x => x + value) nu a
  | _, _ => a
  end.

Definition write_event (t : option (list (list Q))) (e : event)
  : option (list (list Q)) :=
  match e with
  | EvTensorWrite row col subtract value =>
      alter (alter (signed_add subtract value) col) row <$> t
  | _ => t
  end.

(** The accumulators and the tensor are what they were, plus the recorded
    additions in their order. *)
Definition accounted (s s' : state) : Prop :=
  exists evs,
    trace s' = trace s ++ evs /\
    _gamma s' = fold_left (add_event Gamma) evs (_gamma s) /\
    _ps s' = fold_left (add_event Ps) evs (_ps s) /\
    _gamma_tensor s' = fold_left write_event evs (_gamma_tensor s).

(** The run evaluated the triplets of the bra mode [nu] in the pass
    [is_plus]. *)
Definition evaluated (is_plus : bool) (nu : nat) (s : state) : bool :=
  existsb (fun e => match e with
                    | EvEvaluated b n => Bool.eqb b is_plus && Nat.eqb n nu
                    | _ => false
                    end)
          (trace s).

(** The progress files are untouched and nothing was computed: at most
    lines were replayed. *)
Definition only_replayed (s s' : state) : Prop :=
  (forall b, progress_file b s' = progress_file b s) /\
  exists evs, trace s' = trace s ++ evs /\
              Forall (fun e => is_fresh_event e = false) evs.

(** The bra mode of the last line of a progress file, [-1] for an empty
    file: [read_nu] after the loop of lines 243-255. *)
Definition last_nu (log : list line) : Z :=
  fold_left (fun _ l => py_int (hd 0 l)) log (-1)%Z.

(** The accumulators keep their lengths and the tensor its shape. *)
Definition same_shape (s s' : state) : Prop :=
  length (_gamma s') = length (_gamma s) /\
  length (_ps s') = length (_ps s) /\
  map length <$> _gamma_tensor s' = map length <$> _gamma_tensor s.

(** Every bra mode evaluated between [s] and [s'] is a mode of the mesh
    whose frequency is above the threshold. *)
Definition evaluates_physical (ph : phonons) (s s' : state) : Prop :=
  let n_modes := (n_particles ph * 3)%nat in
  exists evs,
    trace s' = trace s ++ evs /\
    Forall (fun e =>
              match e with
              | EvEvaluated _ nu =>
                  (nu < np_prod (kpts ph) * n_modes)%nat /\
                  frequency_threshold ph
                  < frequencies ph (nu / n_modes) (nu mod n_modes)
              | _ => True
              end)
           evs.

(** What the replay of one line adds to an accumulator: the entry of the
    line at [field] (3 for the rate, 4 for the phase space), at the bra
    mode of the line. *)
Definition add_line (field : nat) (a : list Q) (l : line) : list Q :=
  match Np.index (length a) (py_int (hd 0 l)) with
  | Ok j => alter (fun x => x + nth field l 0) j a
  | Raise _ => a
  end.

(** The tensor updates leave the two accumulators alone. *)
Definition totals_kept (s s' : state) : Prop :=
  _gamma s' = _gamma s /\ _ps s' = _ps s.

(** ** Relations between two runs *)

(** Two states agree on the accumulators and on the progress files. *)
Definition same_totals (s1 s2 : state) : Prop :=
  _gamma s1 = _gamma s2 /\ _ps s1 = _ps s2 /\
  forall b, progress_file b s1 = progress_file b s2.

(** ... and on the tensor, when the run uses it. *)
Definition same_inputs (enabled : bool) (s1 s2 : state) : Prop :=
  same_totals s1 s2 /\
  (enabled = true -> _gamma_tensor s1 = _gamma_tensor s2).

(** The state lines 229-232 leave. *)
Definition after_reset (ph : phonons) (enabled : bool) (s : state) : state :=
  let zeros := replicate (n_phonons ph) 0 in
  let s := set_ps zeros (set_gamma zeros s) in
  if enabled
  then log_event EvTensorAlloc
         (set_gamma_tensor (Some (replicate (n_phonons ph) zeros)) s)
  else s.

(** ** The totals of a run *)

(** The call of line 366 for the bra mode [(index_k, mu)] of the pass
    [is_plus], with the kernel [kern] bound at lines 339-344. *)
Definition single_gamma_call (lib : numerics) (ph : phonons) (is_plus : bool)
    (index_k mu : nat) (kern : kernel) : result (option gamma_out) :=
  let k_size := kpts ph in
  let nptk := np_prod k_size in
  let n_modes := (n_particles ph * 3)%nat in
  let index_kpp_vec := index_kpp_of is_plus k_size index_k in
  calculate_single_gamma (lib_pi lib) (lib_sqrt lib)
    (lib_hbar lib) (lib_mol lib) (lib_J lib)
    is_plus index_k mu (seq 0 nptk)
    (frequencies ph) (occupations ph) nptk
    (fun k n i =>
       let e := rescaled_eigenvectors ph (k * n_modes + n)%nat i in
       if is_plus then e else conj e)
    (fun k m j =>
       conj (rescaled_eigenvectors ph
               (nth k index_kpp_vec 0%nat * n_modes + m)%nat j))
    (fun k l => if is_plus then chi ph k l else conj (chi ph k l))
    (fun k t => conj (chi ph (nth k index_kpp_vec 0%nat) t))
    (projected_potential ph (index_k * n_modes + mu)%nat)
    (frequency_threshold ph)
    (fun k m => 2 * lib_pi lib * frequencies ph k m)
    index_kpp_vec (sigma_small_of lib ph index_kpp_vec) kern
    n_modes (n_replicas ph).

(** The array of [gamma_out] whose sum goes to an accumulator
    (lines 373-374). *)
Definition summed (target : accumulator) (out : gamma_out) : list Q :=
  match target with
  | Gamma => pot_times_dirac out
  | Ps => dirac_delta out
  end.

(** What the fresh evaluation of a bra mode adds to an accumulator: for a
    mode above the frequency threshold whose call returned triplets, the
    sum over the triplets of the returned rates ([Gamma]) or densities
    ([Ps]), at the place of the bra mode; nothing otherwise. *)
Definition add_computed (lib : numerics) (ph : phonons) (is_plus : bool)
    (kern : kernel) (target : accumulator) (a : list Q) (mode : nat * nat)
  : list Q :=
  let n_modes := (n_particles ph * 3)%nat in
  if Np.ltb (frequency_threshold ph) (frequencies ph mode.1 mode.2) then
    match single_gamma_call lib ph is_plus mode.1 mode.2 kern with
    | Ok (Some out) =>
        alter (fun x => x + Np.sum (summed target out))
              (mode.1 * n_modes + mode.2)%nat a
    | _ => a
    end
  else a.

(** The bra modes a pass goes through after the replay of [log]
    (lines 315-357): those of the wavevectors from the one of the mode
    after the last replayed mode on, that wavevector being left at its
    first branch when the file ends inside it. *)
Definition modes_after (ph : phonons) (log : list line) : list (nat * nat) :=
  let nptk := np_prod (kpts ph) in
  let n_modes := (n_particles ph * 3)%nat in
  let read_nu := (last_nu log + 1)%Z in
  if (read_nu <? Z.of_nat (nptk * n_modes))%Z then
    let initial_k := (Z.to_nat read_nu / n_modes)%nat in
    let initial_mu := (Z.to_nat read_nu mod n_modes)%nat in
    index_k ← seq initial_k (nptk - initial_k);
    if Nat.eqb index_k initial_k && Nat.ltb 0 initial_mu then []
    else (mu ← seq 0 n_modes; [(index_k, mu)])
  else [].

(** The column of a progress file an accumulator is replayed from
    (lines 246-248). *)
Definition column (target : accumulator) : nat :=
  match target with Gamma => 3%nat | Ps => 4%nat end.

(** An accumulator after one pass over the progress file [log]: the lines
    of the file replayed in order, then the fresh evaluations. *)
Definition pass_totals (lib : numerics) (ph : phonons) (kern : kernel)
    (target : accumulator) (is_plus : bool) (log : list line) (a : list Q)
  : list Q :=
  fold_left (add_computed lib ph is_plus kern target) (modes_after ph log)
            (fold_left (add_line (column target)) log a).

(** An accumulator after the two passes, from all zeros. *)
Definition expected_totals (lib : numerics) (ph : phonons) (kern : kernel)
    (target : accumulator) (plus minus : list line) : list Q :=
  pass_totals lib ph kern target false minus
    (pass_totals lib ph kern target true plus (replicate (n_phonons ph) 0)).

(** A step of the pass [is_plus] that leaves the accumulators and the
    progress file of the other pass alone. *)
Definition quiet (is_plus : bool) (s s' : state) : Prop :=
  _gamma s' = _gamma s /\ _ps s' = _ps s /\
  progress_file (negb is_plus) s' = progress_file (negb is_plus) s.

(** ** The cached occupations *)

(** The folder the constructor binds to [self.folder_name]. *)
Definition cache_folder (lib : numerics) (ph : phonons) : string :=
  let name := folder_name ph +:+ "/" +:+ lib_str lib (temperature ph) +:+ "/" in
  if is_classic ph then name +:+ "classic/" else name +:+ "quantum/".

(** The occupation of a mode of frequency [f] (lines 173-176). *)
Definition occupation (lib : numerics) (classic : pyval) (temp threshold f : Q)
  : Q :=
  if Np.ltb threshold f then
    match classic with
    | PyBool false => 1 / (lib_exp lib (f / temp) - 1)
    | _ => temp / f
    end
  else 0.

(** ** A small system

    Two wavevectors on a 2 x 1 x 1 mesh, one atom (three branches, six
    modes), frequencies [1 + mu + k], a fixed width and constant matrix
    elements; the numerical library is replaced by rational stand-ins. *)
Module Toy.

Definition q_sqrt (x : Q) : Q := Z.sqrt (Qnum x) # Pos.sqrt (Qden x).

Definition lib : numerics :=
Numerics 3 (fun _ => 1) q_sqrt (fun _ => 1) 1 1 1 1 (fun x => x)
         (fun _ => "300").

Definition one : complex := Cx 1 0.

Definition k_size : mesh := (2, 1, 1)%nat.

Definition system (shape : string) : phonons :=
Phonons "si" 300 false (Some 1) 6 1
  (fun k m => inject_Z (Z.of_nat (1 + m + k)))
  (fun _ _ _ => 0)
  (fun k m => inject_Z (Z.of_nat (1 + m + 2 * k)))
  k_size shape (1 # 10) 1
  (fun _ _ => 0) (fun _ _ => one) (fun _ _ => one) (fun _ _ _ _ _ => one).

(** One wavevector only: the mesh of an amorphous sample. *)
Definition point : phonons :=
Phonons "si" 300 false (Some 1) 3 1
  (fun k m => inject_Z (Z.of_nat (1 + m + k)))
  (fun _ _ _ => 0)
  (fun k m => inject_Z (Z.of_nat (1 + m + 2 * k)))
  (1, 1, 1)%nat "triangle" (1 # 10) 1
  (fun _ _ => 0) (fun _ _ => one) (fun _ _ => one) (fun _ _ _ _ _ => one).

(** No progress file, nothing accumulated. *)
Definition fresh : state := State [] [] None None None [].

(** No progress file, and accumulators a previous use left behind. *)
Definition stale : state := State [1; 2; 3] [4] (Some [[5]]) None None [].

(** The lines of a progress file that belong to the first [n] bra modes. *)
Definition truncate_log (n : Z) (log : list line) : list line :=
filter (fun l : line => (py_int (hd 0%Q l) <? n)%Z = true) log.

(** An uninterrupted run. *)
Definition full : state * result unit :=
calculate_gamma lib (system "triangle") false fresh.

(** A run stopped in the plus pass after [n] bra modes: the plus file holds
  the lines of these modes and the minus file does not exist yet. *)
Definition interrupted (n : Z) : state :=
State [] [] None (truncate_log n <$> scattering_matrix_1 full.1) None [].

Definition resumed (n : Z) : state * result unit :=
calculate_gamma lib (system "triangle") false (interrupted n).

(** The same system asked for a kernel the code does not know, on the
  files the uninterrupted run left. *)
Definition rerun : state * result unit :=
calculate_gamma lib (system "foo") false full.1.

(** One call of [calculate_single_gamma] with the arguments line 366 passes
  for this system. *)
Definition single (is_plus : bool) (index_k mu : nat)
: result (option gamma_out) :=
let ph := system "triangle" in
calculate_single_gamma 3 q_sqrt 1 1 1 is_plus index_k mu (seq 0 2)
  (frequencies ph) (occupations ph) 2
  (fun _ _ _ => one) (fun _ _ _ => one) (fun _ _ => one) (fun _ _ => one)
  (fun _ _ _ _ => one) (1 # 10) (fun k m => 2 * 3 * frequencies ph k m)
  (index_kpp_of is_plus k_size index_k) (WidthScalar 1)
  triangular_delta 3 1.

Definition single_out (is_plus : bool) (index_k mu : nat) : gamma_out :=
match single is_plus index_k mu with
| Ok (Some g) => g
| _ => GammaOut [] [] [] [] [] []
end.

(** The plus pass of an earlier run is on file, the minus pass was not
  started, and the accumulators hold what another use left behind. *)
Definition half_done : state :=
State [1; 2; 3] [4] (Some [[5]]) (scattering_matrix_1 full.1) None [].

(** The same mesh with the adaptive width ([sigma_in] is [None]): the
  velocities differ from mode to mode along the first axis, in a cubic
  cell of side 1. *)
Definition adaptive : phonons :=
Phonons "si" 300 false None 6 1
  (fun k m => inject_Z (Z.of_nat (1 + m + k)))
  (fun k m c => match c with
                | O => inject_Z (Z.of_nat (12 * (m + 3 * k)))
                | _ => 0
                end)
  (fun k m => inject_Z (Z.of_nat (1 + m + 2 * k)))
  k_size "triangle" (1 # 10) 1
  (fun a b => if Nat.eqb a b then 1 else 0)
  (fun _ _ => one) (fun _ _ => one) (fun _ _ _ _ _ => one).

(** A controller as the constructor leaves it, and no file on disk. *)
Definition controller : world := World (init lib (system "triangle")) ∅.

(** The same controller after a user bound the attributes the accessors
  read. *)
Definition equipped : world :=
World
  (<["frequencies" := PyArray (NdArray [2; 3]%nat [0; 2; 3; 1; 3; 4])]>
     (<["temperature" := PyFloat 300]>
        (<["frequency_threshold" := PyFloat (1 # 10)]>
           (<["is_classic" := PyBool true]>
              (init lib (system "triangle"))))))
  ∅.

End Toy.

Lemma ltb_lt (x y : Q) : Np.ltb x y = true <-> x < y.
Proof.
  unfold Np.ltb. rewrite negb_true_iff, <- not_true_iff_false, Qle_bool_iff.
  split; [apply Qnot_le_lt | apply Qlt_not_le].
Qed.

Lemma ltb_ge (x y : Q) : Np.ltb x y = false <-> y <= x.
Proof.
  unfold Np.ltb. rewrite negb_false_iff. apply Qle_bool_iff.
Qed.

Lemma mask_select_length {A} (p : A -> bool) (xs : list A) :
  length (Np.mask_select (map p xs) xs) = Np.count_true (map p xs).
Proof.
  unfold Np.count_true. induction xs as [|x xs IH]; [done|].
  cbn [map Np.mask_select]. rewrite filter_cons.
  destruct (p x); cbn; [rewrite decide_True by done | rewrite decide_False by done];
    cbn; rewrite IH; done.
Qed.

Lemma mask_assign_select {A} (p : A -> bool) (f : A -> A) (z : A) (xs : list A) :
  Np.mask_assign (map p xs) (map (fun _ => z) xs)
                 (map f (Np.mask_select (map p xs) xs))
  = map (fun x => if p x then f x else z) xs.
Proof.
  induction xs as [|x xs IH]; [done|].
  cbn [map Np.mask_select Np.mask_assign].
  destruct (p x); cbn [map]; f_equal; exact IH.
Qed.

Lemma triangular_delta_scalar (ds : list Q) (w : Q) :
  triangular_delta ds (Np.Scalar w)
  = Ok (map (fun d => if Np.ltb (Qabs d) (Qabs w) then ramp w d else 0) ds).
Proof.
  unfold triangular_delta. cbn [Np.map1 Np.op_l Np.op_r rbind].
  unfold Np.take_mask. rewrite !length_map, Nat.eqb_refl. cbn [rbind].
  unfold Np.put_mask. rewrite !length_map, Nat.eqb_refl. cbn [negb].
  rewrite mask_select_length, Nat.eqb_refl.
  rewrite (map_map _ (fun r => 1 - r)), (map_map _ (Qmult (1 / Qabs w))).
  rewrite (mask_assign_select (fun d => Np.ltb d (Qabs w))
             (fun d => 1 / Qabs w * (1 - d / Qabs w)) 0 (map Qabs ds)).
  rewrite map_map. done.
Qed.

(** Closed comparisons of rationals. *)
Ltac q_decide :=
  vm_compute; first [reflexivity | discriminate | (intro; discriminate)].

Lemma ramp_decreasing (w d1 d2 : Q) :
  Qabs d1 < Qabs d2 -> Qabs d2 < Qabs w -> ramp w d2 < ramp w d1.
Proof.
  intros H12 H2w. unfold ramp.
  assert (Hw : 0 < Qabs w).
  { eapply Qle_lt_trans; [apply Qabs_nonneg | exact H2w]. }
  assert (Hi : 0 < / Qabs w) by (apply Qinv_lt_0_compat; exact Hw).
  unfold Qdiv. rewrite Qmult_1_l.
  apply Qmult_lt_l; [exact Hi|].
  unfold Qminus. apply Qplus_lt_r. apply Qopp_lt_compat.
  apply Qmult_lt_r; [exact Hi | exact H12].
Qed.

(** With a scalar width, [triangular_delta] returns an array of the same
    length that holds 0 wherever [|width| <= |delta_energy|] and the ramp
    [1/|width| * (1 - |delta_energy|/|width|)] wherever
    [|delta_energy| < |width|]. *)
Lemma triangular_delta_scalar_support (delta_energy : list Q) (width : Q) :
  exists out,
    triangular_delta delta_energy (Np.Scalar width) = Ok out /\
    length out = length delta_energy /\
    (forall i d, delta_energy !! i = Some d ->
       (Qabs width <= Qabs d -> out !! i = Some 0) /\
       (Qabs d < Qabs width -> out !! i = Some (ramp width d))).
Proof.
  eexists. split; [apply triangular_delta_scalar|].
  split; [apply length_map|].
  intros i d Hd. rewrite list_lookup_fmap, Hd. cbn.
  split; intros H.
  - apply ltb_ge in H. rewrite H. done.
  - apply ltb_lt in H. rewrite H. done.
Qed.

Lemma Qabs_opp_eq (x : Q) : Qabs (- x) = Qabs x.
Proof. destruct x as [n d]. cbn. rewrite Z.abs_opp. reflexivity. Qed.

(** C10. [triangular_delta] returns the same result, value or error, when
    every energy difference is negated and when the width, scalar or
    array, is negated. *)
Theorem triangular_delta_even (delta_energy : list Q) (width : Np.operand) :
  triangular_delta (map Qopp delta_energy) width
  = triangular_delta delta_energy width /\
  triangular_delta delta_energy (Np.map1 Qopp width)
  = triangular_delta delta_energy width.
Proof.
  unfold triangular_delta. split.
  - rewrite map_map.
    rewrite (map_ext (fun x => Qabs (- x)) Qabs) by (intros; apply Qabs_opp_eq).
    reflexivity.
  - replace (Np.map1 Qabs (Np.map1 Qopp width)) with (Np.map1 Qabs width);
      [reflexivity|].
    destruct width as [x|xs]; unfold Np.map1.
    + rewrite Qabs_opp_eq. reflexivity.
    + rewrite map_map. f_equal. apply map_ext. intros. symmetry. apply Qabs_opp_eq.
Qed.

Lemma elem_of_cube (a b c : nat) (j mup mupp : nat) :
  (j, mup, mupp) ∈ cube a b c <-> (j < a /\ mup < b /\ mupp < c)%nat.
Proof.
  unfold cube. rewrite list_elem_of_bind. split.
  - intros (j' & H & Hj). apply list_elem_of_bind in H as (m' & H & Hm).
    apply list_elem_of_bind in H as (m'' & H & Hm'').
    apply list_elem_of_singleton in H. injection H as -> -> ->.
    apply elem_of_seq in Hj, Hm, Hm''. lia.
  - intros (Hj & Hm & Hm'). exists j. split; [|apply elem_of_seq; lia].
    apply list_elem_of_bind. exists mup. split; [|apply elem_of_seq; lia].
    apply list_elem_of_bind. exists mupp. split; [|apply elem_of_seq; lia].
    apply list_elem_of_singleton. reflexivity.
Qed.

Section SingleGammaFacts.

Variable pi : Q.
Variable np_sqrt : Q -> Q.
Variable units_hbar units_mol units_J : Q.
Variable is_plus : bool.
Variables index_k mu : nat.
Variable index_kp_full : list nat.
Variables frequencies density : nat -> nat -> Q.
Variable nptk : nat.
Variables first_evect second_evect : nat -> nat -> nat -> complex.
Variables first_chi second_chi : nat -> nat -> complex.
Variable scaled_potential : nat -> nat -> nat -> nat -> complex.
Variable frequencies_threshold : Q.
Variable omegas : nat -> nat -> Q.
Variable kpp_mapping : list nat.
Variable sigma_small : width.
Variable broadening_function : kernel.
Variables n_modes n_replicas : nat.

Let rows : list (nat * nat * nat) :=
  interactions pi is_plus index_k mu index_kp_full frequencies nptk
               frequencies_threshold omegas kpp_mapping sigma_small n_modes.

Let run : result (option gamma_out) :=
  calculate_single_gamma pi np_sqrt units_hbar units_mol units_J is_plus
    index_k mu index_kp_full frequencies density nptk first_evect
    second_evect first_chi second_chi scaled_potential
    frequencies_threshold omegas kpp_mapping sigma_small
    broadening_function n_modes n_replicas.

Lemma elem_of_interactions (j mup mupp : nat) :
  (j, mup, mupp) ∈ rows <->
  (j < nptk)%nat /\ (mup < n_modes)%nat /\ (mupp < n_modes)%nat /\
  omegas_difference is_plus index_k mu index_kp_full omegas kpp_mapping
                    j mup mupp
  < DELTA_THRESHOLD * 2 * pi * width_at sigma_small j mup mupp /\
  frequencies_threshold < frequencies (nth j index_kp_full 0%nat) mup /\
  frequencies_threshold < frequencies (nth j kpp_mapping 0%nat) mupp.
Proof.
  unfold rows, interactions. rewrite list_elem_of_filter, elem_of_cube.
  unfold condition. cbn [fst snd].
  rewrite !andb_true_iff, !ltb_lt. tauto.
Qed.

(** What a successful call returned. *)
Lemma calculate_single_gamma_inv (g : gamma_out) :
  run = Ok (Some g) ->
  rows <> [] /\
  index_kp_vec g = map (fun t => t.1.1) rows /\
  mup_vec g = map (fun t => t.1.2) rows /\
  index_kpp_vec g = map (fun t => nth t.1.1 kpp_mapping 0%nat) rows /\
  mupp_vec g = map (fun t => t.2) rows /\
  exists broadened,
    density_of_states pi is_plus index_k mu index_kp_full nptk omegas
      kpp_mapping sigma_small broadening_function n_modes rows
    = Ok broadened /\
    Np.imul
      (map (fun t : nat * nat * nat =>
              statistical_weight is_plus density kpp_mapping t.1.1 t.1.2 t.2
              / (omegas t.1.1 t.1.2 * omegas (nth t.1.1 kpp_mapping 0%nat) t.2))
           rows)
      broadened = Ok (dirac_delta g) /\
    pot_times_dirac g =
      map (to_rate pi units_hbar units_mol units_J index_k mu nptk omegas)
        (zip_with (fun v d => np_abs np_sqrt v ^ 2 * d)
           (map (fun t : nat * nat * nat =>
                   contract first_evect second_evect first_chi second_chi
                            scaled_potential n_modes n_replicas t.1.1 t.1.2 t.2)
                rows)
           (dirac_delta g)).
Proof.
  unfold run, calculate_single_gamma. fold rows.
  destruct rows as [|r rs] eqn:Hrows; [discriminate|].
  assert (Hne : rows <> []) by (rewrite Hrows; discriminate).
  rewrite <- Hrows. clear Hrows.
  destruct (density_of_states _ _ _ _ _ _ _ _ _ _ _ rows) as [dos|e] eqn:Hdos;
    [|discriminate].
  cbn [rbind].
  match goal with
  | |- rbind ?k _ = _ -> _ => destruct k as [dd|e] eqn:Hmul; [|discriminate]
  end.
  cbn [rbind]. intros H. injection H as <-. cbn.
  split; [|split; [|split; [|split; [|split]]]]; try reflexivity.
  - exact Hne.
  - rewrite map_map. reflexivity.
  - exists dos. split; [reflexivity|]. split; [exact Hmul|reflexivity].
Qed.

Lemma calculate_single_gamma_none : run = Ok None -> rows = [].
Proof.
  unfold run, calculate_single_gamma. fold rows.
  destruct rows as [|r rs]; [reflexivity|].
  match goal with
  | |- rbind ?k _ = _ -> _ => destruct k as [dos|e]; [|discriminate]
  end.
  cbn [rbind].
  match goal with
  | |- rbind ?k _ = _ -> _ => destruct k as [dd|e]; discriminate
  end.
Qed.

(** The rows of a returned [gamma_out] are the selected triplets. *)
Lemma gamma_out_rows (g : gamma_out) (i p mup mupp : nat) :
  run = Ok (Some g) ->
  (index_kp_vec g !! i = Some p /\ mup_vec g !! i = Some mup /\
   mupp_vec g !! i = Some mupp)
  <-> rows !! i = Some (p, mup, mupp).
Proof.
  intros Hrun. apply calculate_single_gamma_inv in Hrun
    as (_ & -> & -> & _ & -> & _).
  rewrite !list_lookup_fmap.
  destruct (rows !! i) as [[[p' m'] m'']|]; cbn; [|intuition discriminate].
  split.
  - intros (H1 & H2 & H3). congruence.
  - intros H. injection H as -> -> ->. auto.
Qed.

Lemma gamma_out_kpp (g : gamma_out) (i p : nat) :
  run = Ok (Some g) ->
  index_kp_vec g !! i = Some p ->
  index_kpp_vec g !! i = Some (nth p kpp_mapping 0%nat).
Proof.
  intros Hrun. apply calculate_single_gamma_inv in Hrun
    as (_ & -> & _ & -> & _).
  rewrite !list_lookup_fmap.
  destruct (rows !! i) as [[[p' m'] m'']|]; cbn; [|discriminate].
  intros H. injection H as ->. reflexivity.
Qed.

End SingleGammaFacts.

Lemma index_kpp_of_nth (is_plus : bool) (k_size : mesh) (index_k p : nat) :
  (p < np_prod k_size)%nat ->
  nth p (index_kpp_of is_plus k_size index_k) 0%nat
  = conjugate_index is_plus k_size index_k p.
Proof.
  intros Hp. unfold index_kpp_of.
  rewrite (nth_indep _ 0%nat (conjugate_index is_plus k_size index_k 0))
    by (rewrite length_map, length_seq; exact Hp).
  rewrite (map_nth (conjugate_index is_plus k_size index_k)).
  rewrite seq_nth by exact Hp. reflexivity.
Qed.

(** When [calculate_single_gamma] returns for the bra mode
    [(index_k, mu)], a triplet [(p, mup, pp, mupp)] of the mesh, [pp] the
    wrapped conjugate of [p], is among the returned triplets if and only if
    [|omega(k,mu) + s*omega(p,mup) - omega(pp,mupp)|] is below
    [2 * DELTA_THRESHOLD * pi * width] and the frequencies of both partner
    modes are above the threshold. *)
Lemma returned_triplets_are_selected
    (pi : Q) (np_sqrt : Q -> Q) (units_hbar units_mol units_J : Q)
    (is_plus : bool) (index_k mu : nat) (k_size : mesh)
    (frequencies density : nat -> nat -> Q)
    (first_evect second_evect : nat -> nat -> nat -> complex)
    (first_chi second_chi : nat -> nat -> complex)
    (scaled_potential : nat -> nat -> nat -> nat -> complex)
    (frequencies_threshold : Q) (omegas : nat -> nat -> Q)
    (sigma_small : width) (broadening_function : kernel)
    (n_modes n_replicas : nat)
    (returned : option gamma_out) (p mup mupp : nat) :
  let nptk := np_prod k_size in
  let pp := conjugate_index is_plus k_size index_k p in
  calculate_single_gamma pi np_sqrt units_hbar units_mol units_J is_plus
    index_k mu (seq 0 nptk) frequencies density nptk first_evect second_evect
    first_chi second_chi scaled_potential frequencies_threshold omegas
    (index_kpp_of is_plus k_size index_k) sigma_small broadening_function
    n_modes n_replicas = Ok returned ->
  (p < nptk)%nat -> (mup < n_modes)%nat -> (mupp < n_modes)%nat ->
  (exists g i,
      returned = Some g /\
      index_kp_vec g !! i = Some p /\ mup_vec g !! i = Some mup /\
      index_kpp_vec g !! i = Some pp /\ mupp_vec g !! i = Some mupp)
  <->
  (Qabs (omegas index_k mu
         + inject_Z (if is_plus then 1 else -1) * omegas p mup
         - omegas pp mupp)
   < 2 * DELTA_THRESHOLD * pi * width_at sigma_small p mup mupp /\
   frequencies_threshold < frequencies p mup /\
   frequencies_threshold < frequencies pp mupp).
Proof.
  intros nptk pp Hrun Hp Hmup Hmupp.
  assert (Hsel := elem_of_interactions pi is_plus index_k mu (seq 0 nptk)
                    frequencies nptk frequencies_threshold omegas
                    (index_kpp_of is_plus k_size index_k) sigma_small n_modes
                    p mup mupp).
  unfold omegas_difference in Hsel.
  rewrite seq_nth in Hsel by exact Hp. cbn [Nat.add] in Hsel.
  rewrite index_kpp_of_nth in Hsel by exact Hp. fold pp in Hsel.
  assert (Hsign : second_sign is_plus = if is_plus then 1%Z else (-1)%Z)
    by (destruct is_plus; reflexivity).
  rewrite Hsign in Hsel.
  assert (Hbound : DELTA_THRESHOLD * 2 * pi * width_at sigma_small p mup mupp
                   == 2 * DELTA_THRESHOLD * pi * width_at sigma_small p mup mupp)
    by ring.
  rewrite Hbound in Hsel.
  split.
  - intros (g & i & -> & Hkp & Hm & _ & Hm').
    apply Hsel. apply list_elem_of_lookup. exists i.
    eapply gamma_out_rows; [exact Hrun | auto].
  - intros Hcond.
    assert (Hin : (p, mup, mupp) ∈
                  interactions pi is_plus index_k mu (seq 0 nptk) frequencies
                    nptk frequencies_threshold omegas
                    (index_kpp_of is_plus k_size index_k) sigma_small n_modes)
      by (apply Hsel; tauto).
    destruct returned as [g|].
    + apply list_elem_of_lookup in Hin as [i Hi].
      eapply gamma_out_rows in Hi as (Hkp & Hm & Hm'); [|exact Hrun].
      exists g, i. split; [reflexivity|]. split; [exact Hkp|].
      split; [exact Hm|]. split; [|exact Hm'].
      erewrite gamma_out_kpp; [|exact Hrun|exact Hkp].
      rewrite index_kpp_of_nth by exact Hp. reflexivity.
    + apply calculate_single_gamma_none in Hrun. rewrite Hrun in Hin.
      apply elem_of_nil in Hin. contradiction.
Qed.

Lemma imul_lookup (xs ys out : list Q) (i : nat) (x : Q) :
  Np.imul xs ys = Ok out -> xs !! i = Some x ->
  exists y, (ys !! i = Some y \/ ys = [y]) /\ out !! i = Some (x * y).
Proof.
  unfold Np.imul. intros H Hx.
  destruct (Nat.eqb (length xs) (length ys)) eqn:Hlen.
  - injection H as <-. apply Nat.eqb_eq in Hlen.
    destruct (ys !! i) as [y|] eqn:Hy.
    + exists y. split; [left; reflexivity|].
      rewrite lookup_zip_with, Hx, Hy. reflexivity.
    + apply lookup_ge_None in Hy. apply lookup_lt_Some in Hx. lia.
  - destruct ys as [|y [|y' ys]]; try discriminate.
    injection H as <-. exists y. split; [right; reflexivity|].
    rewrite list_lookup_fmap, Hx. reflexivity.
Qed.

Lemma to_rate_zero (pi units_hbar units_mol units_J : Q) (index_k mu nptk : nat)
    (omegas : nat -> nat -> Q) (x : Q) :
  x == 0 -> to_rate pi units_hbar units_mol units_J index_k mu nptk omegas x == 0.
Proof.
  intros Hx. unfold to_rate, Qdiv. rewrite Hx. ring.
Qed.

(** C5. For a plus process every returned triplet carries the density
    [(n(kp) - n(kpp)) / (omega(kp) * omega(kpp))] times the kernel value,
    its rate is that density times the squared matrix element, scaled, and
    the rate is 0 when the two partner modes have equal occupations. *)
Theorem plus_weight_is_occupation_difference
    (pi : Q) (np_sqrt : Q -> Q) (units_hbar units_mol units_J : Q)
    (index_k mu : nat) (index_kp_full : list nat)
    (frequencies density : nat -> nat -> Q) (nptk : nat)
    (first_evect second_evect : nat -> nat -> nat -> complex)
    (first_chi second_chi : nat -> nat -> complex)
    (scaled_potential : nat -> nat -> nat -> nat -> complex)
    (frequencies_threshold : Q) (omegas : nat -> nat -> Q)
    (kpp_mapping : list nat) (sigma_small : width)
    (broadening_function : kernel) (n_modes n_replicas : nat)
    (g : gamma_out) (i p mup mupp : nat) :
  calculate_single_gamma pi np_sqrt units_hbar units_mol units_J true
    index_k mu index_kp_full frequencies density nptk first_evect second_evect
    first_chi second_chi scaled_potential frequencies_threshold omegas
    kpp_mapping sigma_small broadening_function n_modes n_replicas
  = Ok (Some g) ->
  index_kp_vec g !! i = Some p ->
  mup_vec g !! i = Some mup ->
  mupp_vec g !! i = Some mupp ->
  let pp := nth p kpp_mapping 0%nat in
  exists broadened kernel_density,
    density_of_states pi true index_k mu index_kp_full nptk omegas kpp_mapping
      sigma_small broadening_function n_modes
      (interactions pi true index_k mu index_kp_full frequencies nptk
         frequencies_threshold omegas kpp_mapping sigma_small n_modes)
    = Ok broadened /\
    (broadened !! i = Some kernel_density \/ broadened = [kernel_density]) /\
    let dirac :=
      (density p mup - density pp mupp) / (omegas p mup * omegas pp mupp)
      * kernel_density in
    let rate :=
      to_rate pi units_hbar units_mol units_J index_k mu nptk omegas
        (np_abs np_sqrt
           (contract first_evect second_evect first_chi second_chi
                     scaled_potential n_modes n_replicas p mup mupp) ^ 2
         * dirac) in
    index_kpp_vec g !! i = Some pp /\
    dirac_delta g !! i = Some dirac /\
    pot_times_dirac g !! i = Some rate /\
    (density p mup == density pp mupp -> rate == 0).
Proof.
  intros Hrun Hkp Hm Hm' pp.
  assert (Hrow : interactions pi true index_k mu index_kp_full frequencies nptk
                   frequencies_threshold omegas kpp_mapping sigma_small n_modes
                 !! i = Some (p, mup, mupp))
    by (eapply gamma_out_rows; [exact Hrun | auto]).
  assert (Hkpp : index_kpp_vec g !! i = Some pp)
    by (eapply gamma_out_kpp; [exact Hrun | exact Hkp]).
  apply calculate_single_gamma_inv in Hrun
    as (_ & _ & _ & _ & _ & dos & Hdos & Hmul & Hptd).
  eapply imul_lookup in Hmul as (y & Hy & Hdirac);
    [|rewrite list_lookup_fmap, Hrow; reflexivity].
  cbn [fst snd statistical_weight] in Hdirac.
  exists dos, y. split; [exact Hdos|]. split; [exact Hy|].
  cbn zeta. split; [exact Hkpp|]. split; [exact Hdirac|]. split.
  - rewrite Hptd, list_lookup_fmap, lookup_zip_with, list_lookup_fmap, Hrow.
    cbn. rewrite Hdirac. reflexivity.
  - intros Heq. apply to_rate_zero.
    unfold Qdiv, Qminus. rewrite Heq. ring.
Qed.

(** ** A program logic for [prog]: every step stays inside a reflexive and
    transitive relation on states, and a returned value satisfies a
    postcondition. *)
Section Logic.

Context {S : Type}.
Variable R : S -> S -> Prop.
Hypothesis R_refl : forall s, R s s.
Hypothesis R_trans : forall s1 s2 s3, R s1 s2 -> R s2 s3 -> R s1 s3.

Lemma keeps_ret {A : Type} (a : A) (Q : A -> Prop) :
  Q a -> keeps R (ret a) Q.
Proof using R_refl.
  intros Ha s. split; [apply R_refl|]. cbn. intros a' H.
  injection H as <-. exact Ha.
Qed.

Lemma keeps_raise {A : Type} (e : exn) (Q : A -> Prop) :
  keeps R (raise e) Q.
Proof using R_refl. intros s. split; [apply R_refl | discriminate]. Qed.

Lemma keeps_lift {A : Type} (r : result A) (Q : A -> Prop) :
  (forall a, r = Ok a -> Q a) -> keeps R (lift r) Q.
Proof using R_refl. intros H s. split; [apply R_refl | apply H]. Qed.

Lemma keeps_get (Q : S -> Prop) :
  (forall s, Q s) -> keeps R get Q.
Proof using R_refl.
  intros H s. split; [apply R_refl|]. intros a _. apply H.
Qed.

Lemma keeps_modify (f : S -> S) (Q : unit -> Prop) :
  (forall s, R s (f s)) -> Q tt -> keeps R (modify f) Q.
Proof.
  intros H Hq s. split; [apply H|]. intros [] _. exact Hq.
Qed.

Lemma keeps_bind {A B : Type} (m : prog S A) (k : A -> prog S B)
    (P : A -> Prop) (Q : B -> Prop) :
  keeps R m P -> (forall a, P a -> keeps R (k a) Q) -> keeps R (bind m k) Q.
Proof using R_trans.
  intros Hm Hk s. unfold bind. destruct (Hm s) as [HR HP].
  destruct (m s) as [s' [a|e]]; cbn in *.
  - destruct (Hk a (HP a eq_refl) s') as [HR' HQ].
    split; [eapply R_trans; eassumption | exact HQ].
  - split; [exact HR | discriminate].
Qed.

Lemma keeps_weaken {A : Type} (m : prog S A) (P Q : A -> Prop) :
  keeps R m P -> (forall a, P a -> Q a) -> keeps R m Q.
Proof.
  intros Hm HPQ s. destruct (Hm s) as [HR HP]. split; [exact HR|].
  intros a Ha. apply HPQ, HP, Ha.
Qed.

Lemma keeps_for_in {A L : Type} (xs : list A)
    (body : A -> L -> prog S (flow L)) (I : L -> Prop) (l : L) :
  (forall x l, x ∈ xs -> I l -> keeps R (body x l) (after I)) ->
  I l -> keeps R (for_in xs body l) I.
Proof using R_refl R_trans.
  revert l. induction xs as [|x xs IH]; intros l Hbody Hl.
  - apply keeps_ret. exact Hl.
  - cbn [for_in]. eapply keeps_bind.
    + apply Hbody; [left | exact Hl].
    + intros [l'|l'] Hl'; cbn in Hl'.
      * apply IH; [|exact Hl']. intros y l0 Hy. apply Hbody. right. exact Hy.
      * apply keeps_ret. exact Hl'.
Qed.

End Logic.

Lemma keeps_mono {S A : Type} (R R' : S -> S -> Prop) (m : prog S A)
    (Q : A -> Prop) :
  (forall s s', R s s' -> R' s s') -> keeps R m Q -> keeps R' m Q.
Proof.
  intros H Hm s. destruct (Hm s) as [HR HQ]. split; [apply H, HR | exact HQ].
Qed.

(** Reflexivity and transitivity of the relations in use. *)
Create HintDb rel discriminated.

(** The rules of the logic, with their side conditions discharged. *)
Ltac k_ret := apply keeps_ret; [solve [eauto with rel] | ].
Ltac k_raise := apply keeps_raise; solve [eauto with rel].
Ltac k_get :=
  apply keeps_get with (Q := fun _ => True);
  [solve [eauto with rel] | intros; exact I].
Ltac k_lift := apply keeps_lift; [solve [eauto with rel] | ].
Ltac k_bind :=
  eapply keeps_bind with (P := fun _ => True); [solve [eauto with rel] | | ].
Ltac k_bind_post post :=
  eapply keeps_bind with (P := post); [solve [eauto with rel] | | ].
Ltac k_skip := apply keeps_ret; [solve [eauto with rel] | exact I].
Ltac k_for inv :=
  apply keeps_for_in with (I := inv);
  [solve [eauto with rel] | solve [eauto with rel] | | ].

(** ** Index arithmetic of the mesh *)

Lemma ravel_wrap_bound (i : Z * Z * Z) (k_size : mesh) :
  (0 < np_prod k_size)%nat ->
  (ravel_multi_index_wrap i k_size < np_prod k_size)%nat.
Proof.
  destruct i as [[a b] c], k_size as [[nx ny] nz]. cbn [np_prod].
  intros Hpos. unfold ravel_multi_index_wrap.
  assert (0 < nx /\ 0 < ny /\ 0 < nz)%nat as (Hx & Hy & Hz) by nia.
  pose proof (Z.mod_pos_bound a (Z.of_nat nx) ltac:(lia)).
  pose proof (Z.mod_pos_bound b (Z.of_nat ny) ltac:(lia)).
  pose proof (Z.mod_pos_bound c (Z.of_nat nz) ltac:(lia)).
  set (A := (a mod Z.of_nat nx)%Z) in *.
  set (B := (b mod Z.of_nat ny)%Z) in *.
  set (C := (c mod Z.of_nat nz)%Z) in *.
  assert (H2 : (0 <= A * Z.of_nat ny + B <= Z.of_nat nx * Z.of_nat ny - 1)%Z)
    by nia.
  assert (H3 : (0 <= (A * Z.of_nat ny + B) * Z.of_nat nz + C
                <= Z.of_nat nx * Z.of_nat ny * Z.of_nat nz - 1)%Z) by nia.
  apply Nat2Z.inj_lt. rewrite Z2Nat.id by lia.
  rewrite !Nat2Z.inj_mul. lia.
Qed.

Lemma unravel_ravel_wrap (a b c : Z) (nx ny nz : nat) :
  (0 < nx * ny * nz)%nat ->
  unravel_index (ravel_multi_index_wrap (a, b, c) (nx, ny, nz)) (nx, ny, nz)
  = ((a mod Z.of_nat nx)%Z, (b mod Z.of_nat ny)%Z, (c mod Z.of_nat nz)%Z).
Proof.
  intros Hpos. unfold unravel_index, ravel_multi_index_wrap.
  assert (0 < nx /\ 0 < ny /\ 0 < nz)%nat as (Hx & Hy & Hz) by nia.
  pose proof (Z.mod_pos_bound a (Z.of_nat nx) ltac:(lia)) as Ha.
  pose proof (Z.mod_pos_bound b (Z.of_nat ny) ltac:(lia)) as Hb.
  pose proof (Z.mod_pos_bound c (Z.of_nat nz) ltac:(lia)) as Hc.
  set (A := (a mod Z.of_nat nx)%Z) in *.
  set (B := (b mod Z.of_nat ny)%Z) in *.
  set (C := (c mod Z.of_nat nz)%Z) in *.
  assert (H0 : (0 <= A * Z.of_nat ny + B)%Z) by nia.
  rewrite Z2Nat.id by nia.
  assert (H1 : (((A * Z.of_nat ny + B) * Z.of_nat nz + C)
                / (Z.of_nat ny * Z.of_nat nz) = A)%Z).
  { symmetry. apply (Z.div_unique _ _ _ (B * Z.of_nat nz + C)); [nia | ring]. }
  assert (H2 : (((A * Z.of_nat ny + B) * Z.of_nat nz + C) / Z.of_nat nz
                = A * Z.of_nat ny + B)%Z).
  { symmetry. apply (Z.div_unique _ _ _ C); [lia | ring]. }
  assert (H3 : (((A * Z.of_nat ny + B) * Z.of_nat nz + C) mod Z.of_nat nz
                = C)%Z).
  { symmetry. apply (Z.mod_unique _ _ (A * Z.of_nat ny + B)); [lia | ring]. }
  rewrite H1, H2, H3. f_equal. f_equal.
  symmetry. apply (Z.mod_unique _ _ A); [lia | ring].
Qed.

Lemma conjugate_index_spec (is_plus : bool) (k_size : mesh) (index_k p : nat) :
  (0 < np_prod k_size)%nat ->
  (conjugate_index is_plus k_size index_k p < np_prod k_size)%nat /\
  unravel_index (conjugate_index is_plus k_size index_k p) k_size
  = wrap_sum is_plus k_size (unravel_index index_k k_size)
             (unravel_index p k_size).
Proof.
  intros Hpos. unfold conjugate_index.
  destruct (unravel_index index_k k_size) as [[ka kb] kc] eqn:Hk.
  destruct (unravel_index p k_size) as [[pa pb] pc] eqn:Hp.
  split; [apply ravel_wrap_bound; exact Hpos|].
  destruct k_size as [[nx ny] nz]. rewrite unravel_ravel_wrap by exact Hpos.
  unfold wrap_sum, second_sign. destruct is_plus; reflexivity.
Qed.

(** ** The structure of a run

    Whatever relation on states the accumulator updates, the tensor
    updates, the two file operations and the ghost record of an evaluation
    stay inside, a whole run stays inside. *)

Section Structure.

Variable lib : numerics.
Variable ph : phonons.
Variable enabled : bool.

Let k_size : mesh := kpts ph.
Let nptk : nat := np_prod k_size.
Let n_modes : nat := (n_particles ph * 3)%nat.

Variable R : state -> state -> Prop.
Hypothesis R_refl : forall s, R s s.
Hypothesis R_trans : forall s1 s2 s3, R s1 s2 -> R s2 s3 -> R s1 s3.
Hypothesis R_replayed : forall target is_plus nu value,
  keeps R (accumulate target Replayed is_plus nu value) (fun _ => True).
Hypothesis R_computed : recognised lib ph ->
  forall target is_plus nu value,
    keeps R (accumulate target Computed is_plus nu value) (fun _ => True).
Hypothesis R_scatter : enabled = true ->
  forall is_plus nu nup nupp value,
    keeps R (scatter_into_tensor is_plus nu nup nupp value) (fun _ => True).
Hypothesis R_open : forall is_plus,
  keeps R (open_progress_file is_plus) (fun _ => True).
Hypothesis R_savetxt : recognised lib ph ->
  forall is_plus rows,
    Forall (conserving ph is_plus) rows ->
    keeps R (savetxt is_plus rows) (fun _ => True).
Hypothesis R_evaluated : recognised lib ph ->
  forall is_plus index_k mu,
    (index_k < nptk)%nat -> (mu < n_modes)%nat ->
    frequency_threshold ph < frequencies ph index_k mu ->
    keeps R (modify (log_event (EvEvaluated is_plus
                                  (index_k * n_modes + mu))))
          (fun _ => True).

Hint Resolve R_refl R_trans : rel.

Lemma maybe_scatter_keeps is_plus nu nup nupp value :
  keeps R
    (if enabled then scatter_into_tensor is_plus nu nup nupp value
     else ret tt)
    (fun _ => True).
Proof using R_refl R_scatter.
  destruct enabled eqn:E; [apply R_scatter; reflexivity | k_skip].
Qed.

Lemma replay_line_keeps is_plus l :
  keeps R (replay_line enabled is_plus l) (fun _ => True).
Proof using R_refl R_trans R_replayed R_scatter.
  unfold replay_line.
  destruct l as [|a [|b [|c [|v [|w [|x l]]]]]]; try k_raise.
  k_bind; [apply R_replayed |]. intros _ _.
  k_bind; [apply R_replayed |]. intros _ _.
  k_bind; [apply maybe_scatter_keeps |]. intros _ _. k_skip.
Qed.

Lemma replay_keeps is_plus bound :
  keeps R (replay enabled is_plus bound)
        (fun fr => broadening_function fr = bound).
Proof using R_refl R_trans R_replayed R_scatter.
  unfold replay. k_bind; [k_get|].
  intros s _. destruct (progress_file is_plus s) as [lines|].
  - k_bind.
    + k_for (fun _ : Z => True); [|exact I].
      intros l r _ _. k_bind; [apply replay_line_keeps|].
      intros; k_ret; exact I.
    + intros; k_ret; reflexivity.
  - k_ret; reflexivity.
Qed.

Lemma calculate_single_gamma_from_mesh (pi : Q) (np_sqrt : Q -> Q)
    (units_hbar units_mol units_J : Q) (is_plus : bool) (index_k mu : nat)
    (frequencies density : nat -> nat -> Q)
    (first_evect second_evect : nat -> nat -> nat -> complex)
    (first_chi second_chi : nat -> nat -> complex)
    (scaled_potential : nat -> nat -> nat -> nat -> complex)
    (frequencies_threshold : Q) (omegas : nat -> nat -> Q)
    (sigma_small : width) (kern : kernel) (n_replicas : nat)
    (out : gamma_out) :
  calculate_single_gamma pi np_sqrt units_hbar units_mol units_J is_plus
    index_k mu (seq 0 nptk) frequencies density nptk first_evect
    second_evect first_chi second_chi scaled_potential
    frequencies_threshold omegas (index_kpp_of is_plus k_size index_k)
    sigma_small kern n_modes n_replicas = Ok (Some out) ->
  from_mesh ph is_plus index_k out.
Proof.
  intros Hrun.
  pose proof (calculate_single_gamma_inv _ _ _ _ _ _ _ _ _ _ _ _ _ _ _ _ _
                _ _ _ _ _ _ _ _ Hrun) as (_ & Ekp & Emup & Ekpp & Emupp & _).
  eexists. split; [|split; [exact Ekp | split; [exact Emup | split;
                                                [|exact Emupp]]]].
  - apply Forall_forall. intros [[p m] m'] Hin.
    apply elem_of_interactions in Hin. cbn. tauto.
  - rewrite Ekpp. apply Forall_fmap_ext_1. apply Forall_forall.
    intros [[p m] m'] Hin. apply elem_of_interactions in Hin. cbn.
    apply index_kpp_of_nth. fold k_size nptk. tauto.
Qed.

Lemma commit_keeps is_plus index_k mu out :
  recognised lib ph ->
  (index_k < nptk)%nat -> (mu < n_modes)%nat ->
  from_mesh ph is_plus index_k out ->
  keeps R (commit lib ph enabled is_plus (index_k * n_modes + mu) out)
        (fun _ => True).
Proof using R_refl R_trans R_computed R_scatter R_savetxt.
  intros Hrec Hk Hmu (rows & Hrows & Ekp & Emup & Ekpp & Emupp).
  unfold commit. fold n_modes.
  k_bind; [apply R_computed, Hrec |]. intros _ _.
  k_bind; [apply R_computed, Hrec |]. intros _ _.
  k_bind.
  - k_for (fun _ : unit => True); [|exact I].
    intros t [] _ _. k_bind; [apply maybe_scatter_keeps|].
    intros; k_ret; exact I.
  - intros _ _. apply R_savetxt; [exact Hrec|].
    rewrite Ekp, Emup, Ekpp, Emupp.
    apply Forall_lookup. intros i l Hl.
    apply lookup_zip_with_Some in Hl as ([[nup nupp] v] & d & -> & Hz & Hd).
    apply lookup_zip_Some in Hz as [Hz Hv].
    apply lookup_zip_Some in Hz as [Hnup Hnupp]. cbn [fst snd] in *.
    apply lookup_zip_with_Some in Hnup as (p & m & -> & Hp & Hm).
    apply lookup_zip_with_Some in Hnupp as (pp & m' & -> & Hpp & Hm').
    rewrite list_lookup_fmap in Hp, Hm, Hpp, Hm'.
    destruct (rows !! i) as [[[p0 m0] m0']|] eqn:Hrow; [|discriminate].
    cbn in Hp, Hm, Hpp, Hm'.
    injection Hp as <-. injection Hm as <-. injection Hpp as <-.
    injection Hm' as <-.
    eapply Forall_lookup_1 in Hrows as (Hp0 & Hm0 & Hm0'); [|exact Hrow].
    cbn [fst snd] in *.
    destruct (conjugate_index_spec is_plus k_size index_k p0)
      as [Hlt Hsum]; [fold nptk; lia|].
    exists index_k, mu, p0, m0, (conjugate_index is_plus k_size index_k p0),
      m0', (lib_savetxt lib v), (lib_savetxt lib d).
    split; [reflexivity|]. split; [fold nptk in Hlt; auto|].
    split; [auto|]. exact Hsum.
Qed.

Lemma mode_body_keeps is_plus initial_k initial_mu index_k sigma_small mu fr :
  (index_k < nptk)%nat -> (mu < n_modes)%nat ->
  bound_by_name lib ph (broadening_function fr) ->
  keeps R
    (mode_body lib ph enabled is_plus initial_k initial_mu index_k
       (index_kpp_of is_plus k_size index_k) sigma_small mu fr)
    (after (fun fr' => broadening_function fr' = broadening_function fr)).
Proof using R_refl R_trans R_replayed R_computed R_scatter R_savetxt
            R_open R_evaluated.
  intros Hk Hmu Hbound. unfold mode_body. fold n_modes nptk.
  destruct (_ && _); [k_ret; reflexivity|].
  k_bind.
  - destruct (file fr); [k_skip | apply R_open].
  - intros _ _. cbn [broadening_function].
    destruct (Np.ltb _ _) eqn:Hphys; [|k_ret; reflexivity].
    destruct (broadening_function fr) as [kern|] eqn:Hbf; [|k_raise].
    assert (Hrec : recognised lib ph) by (apply Hbound; discriminate).
    k_bind; [apply R_evaluated; [exact Hrec | exact Hk | exact Hmu
                                | apply ltb_lt, Hphys]|].
    intros _ _.
    k_bind_post (fun o => forall out, o = Some out ->
                                      from_mesh ph is_plus index_k out).
    + k_lift.
      intros o Ho out ->. eapply calculate_single_gamma_from_mesh, Ho.
    + intros [out|] Hout; [|k_ret; cbn; auto].
      k_bind; [apply commit_keeps; auto|]. intros; k_ret; cbn; auto.
Qed.

Lemma select_broadening_bound_by_name bound :
  bound_by_name lib ph bound ->
  bound_by_name lib ph (select_broadening lib (broadening_shape ph) bound).
Proof.
  unfold bound_by_name, recognised, select_broadening. intros Hb.
  destruct (String.eqb _ "gauss"); [discriminate|].
  destruct (String.eqb _ "lorentz"); [discriminate|].
  destruct (String.eqb _ "triangle"); [discriminate|].
  intros Hne. exfalso. exact (Hb Hne eq_refl).
Qed.

Lemma wavevector_body_keeps is_plus initial_k initial_mu index_k fr :
  (index_k < nptk)%nat ->
  bound_by_name lib ph (broadening_function fr) ->
  keeps R
    (wavevector_body lib ph enabled is_plus initial_k initial_mu index_k fr)
    (after (fun fr' => bound_by_name lib ph (broadening_function fr'))).
Proof using R_refl R_trans R_replayed R_computed R_scatter R_savetxt
            R_open R_evaluated.
  intros Hk Hbound. unfold wavevector_body. fold k_size n_modes.
  destruct (is_amorphous ph); [k_raise|].
  k_bind_post (fun fr' : frame => bound_by_name lib ph (broadening_function fr')).
  - k_for (fun fr' : frame => bound_by_name lib ph (broadening_function fr'));
      [|apply select_broadening_bound_by_name, Hbound].
    intros mu fr' Hmu Hfr'. apply elem_of_seq in Hmu.
    eapply keeps_weaken; [apply mode_body_keeps; [exact Hk | lia | exact Hfr']|].
    intros [fr''|fr''] E; cbn in *; rewrite E; exact Hfr'.
  - intros; k_ret; cbn; auto.
Qed.

Lemma pass_keeps is_plus bound :
  bound_by_name lib ph bound ->
  keeps R (pass lib ph enabled is_plus bound) (bound_by_name lib ph).
Proof using R_refl R_trans R_replayed R_computed R_scatter R_savetxt
            R_open R_evaluated.
  intros Hbound. unfold pass. fold k_size nptk n_modes.
  k_bind_post (fun fr : frame => broadening_function fr = bound);
    [apply replay_keeps|].
  intros fr Hfr. cbn [read_nu file broadening_function].
  destruct (_ <? _)%Z; [|k_ret; rewrite Hfr; exact Hbound].
  destruct (_ <? _)%Z; [k_raise|].
  k_bind_post (fun fr' : frame => bound_by_name lib ph (broadening_function fr')).
  - k_for (fun fr' : frame => bound_by_name lib ph (broadening_function fr'));
      [|cbn; rewrite Hfr; exact Hbound].
    intros index_k fr' Hin Hfr'. apply elem_of_seq in Hin.
    apply wavevector_body_keeps; [lia | exact Hfr'].
  - intros fr' Hfr'. destruct (file fr'); [k_ret; exact Hfr' | k_raise].
Qed.

Lemma passes_keep :
  keeps R
    (bound <<- pass lib ph enabled true None ;;
     _ <<- pass lib ph enabled false bound ;;
     ret tt)
    (fun _ => True).
Proof using R_refl R_trans R_replayed R_computed R_scatter R_savetxt
            R_open R_evaluated.
  k_bind_post (bound_by_name lib ph); [apply pass_keeps; intros H; contradiction|].
  intros bound Hbound. k_bind_post (bound_by_name lib ph); [apply pass_keeps, Hbound|].
  intros; k_skip.
Qed.

End Structure.

(** ** Four relations between the state before and after a run *)

(** *** Reflexivity and transitivity *)

Lemma grows_refl ph s : grows ph s s.
Proof. intros b. exists []. rewrite app_nil_r. auto. Qed.

Lemma grows_trans ph s1 s2 s3 : grows ph s1 s2 -> grows ph s2 s3 -> grows ph s1 s3.
Proof.
  intros H1 H2 b. destruct (H1 b) as (n1 & E1 & F1).
  destruct (H2 b) as (n2 & E2 & F2). exists (n1 ++ n2).
  rewrite E2, E1, app_assoc. split; [reflexivity|].
  apply Forall_app. auto.
Qed.

Lemma tensor_kept_refl s : tensor_kept s s.
Proof. split; [reflexivity|]. exists []. rewrite app_nil_r. auto. Qed.

Lemma tensor_kept_trans s1 s2 s3 :
  tensor_kept s1 s2 -> tensor_kept s2 s3 -> tensor_kept s1 s3.
Proof.
  intros (T1 & e1 & E1 & F1) (T2 & e2 & E2 & F2).
  split; [congruence|]. exists (e1 ++ e2).
  rewrite E2, E1, app_assoc. split; [reflexivity|]. apply Forall_app. auto.
Qed.

Lemma nothing_computed_refl s : nothing_computed s s.
Proof. split; [reflexivity|]. exists []. rewrite app_nil_r. auto. Qed.

Lemma nothing_computed_trans s1 s2 s3 :
  nothing_computed s1 s2 -> nothing_computed s2 s3 -> nothing_computed s1 s3.
Proof.
  intros (L1 & e1 & E1 & F1) (L2 & e2 & E2 & F2).
  split; [intros b; rewrite L2; apply L1|]. exists (e1 ++ e2).
  rewrite E2, E1, app_assoc. split; [reflexivity|]. apply Forall_app. auto.
Qed.

Lemma accounted_refl s : accounted s s.
Proof. exists []. rewrite app_nil_r. cbn. auto. Qed.

Lemma accounted_trans s1 s2 s3 :
  accounted s1 s2 -> accounted s2 s3 -> accounted s1 s3.
Proof.
  intros (e1 & E1 & G1 & P1 & T1) (e2 & E2 & G2 & P2 & T2).
  exists (e1 ++ e2). rewrite !fold_left_app, E2, E1, app_assoc.
  rewrite G2, P2, T2, G1, P1, T1. auto.
Qed.

#[export] Hint Resolve grows_refl grows_trans tensor_kept_refl
  tensor_kept_trans nothing_computed_refl nothing_computed_trans
  accounted_refl accounted_trans : rel.

(** *** What one primitive step does to the state *)

Lemma accumulate_step target from is_plus nu value s :
  (accumulate target from is_plus nu value s).1 = s \/
  exists j,
    (accumulate target from is_plus nu value s).1
    = log_event (EvAdd target from is_plus j value)
        (set_accumulator target
           (alter (fun x => x + value) j (accumulator_of target s)) s).
Proof.
  unfold accumulate, bind, get, lift, modify, update_at, rbind. cbn.
  destruct (Np.index _ _) as [j|e]; cbn; [right; exists j; reflexivity | left;
                                                                       reflexivity].
Qed.

Lemma tensor_update_step nu nup subtract value s :
  (tensor_update nu nup subtract value s).1 = s \/
  exists t row col,
    _gamma_tensor s = Some t /\
    (tensor_update nu nup subtract value s).1
    = log_event (EvTensorWrite row col subtract value)
        (set_gamma_tensor
           (Some (alter (alter (signed_add subtract value) col) row t)) s).
Proof.
  unfold tensor_update, bind, get, lift, modify, raise, update_at2, rbind. cbn.
  destruct (_gamma_tensor s) as [t|] eqn:Ht; cbn; [|left; reflexivity].
  destruct (Np.index (length t) nu) as [r|e]; cbn; [|left; reflexivity].
  destruct (t !! r) as [row|]; cbn; [|left; reflexivity].
  destruct (Np.index (length row) nup) as [c|e]; cbn; [|left; reflexivity].
  right. exists t, r, c. auto.
Qed.

(** Steps of a relation that is reflexive, one primitive at a time. *)
Ltac by_step lemma :=
  let s := fresh "s" in
  let H := fresh "Hstep" in
  intros s; split; [|intros; exact I];
  destruct (lemma s) as [H | H]; [rewrite H; solve [auto with rel]|];
  revert H.

(** *** The progress files grow by conserving lines *)

Section Grows.

Variable lib : numerics.
Variable ph : phonons.
Variable enabled : bool.

Lemma grows_same_files s s' :
  (forall b, progress_file b s' = progress_file b s) -> grows ph s s'.
Proof.
  intros H b. exists []. unfold lines. rewrite app_nil_r, H. auto.
Qed.

Lemma accumulate_grows target from is_plus nu value :
  keeps (grows ph) (accumulate target from is_plus nu value) (fun _ => True).
Proof.
  by_step (accumulate_step target from is_plus nu value).
  intros [j ->]. apply grows_same_files.
  intros []; destruct target; reflexivity.
Qed.

Lemma tensor_update_grows nu nup subtract value :
  keeps (grows ph) (tensor_update nu nup subtract value) (fun _ => True).
Proof.
  by_step (tensor_update_step nu nup subtract value).
  intros (t & r & c & _ & ->). apply grows_same_files.
  intros []; reflexivity.
Qed.

Lemma scatter_grows is_plus nu nup nupp value :
  keeps (grows ph) (scatter_into_tensor is_plus nu nup nupp value)
        (fun _ => True).
Proof.
  unfold scatter_into_tensor.
  destruct is_plus; (k_bind; [apply tensor_update_grows|]);
    intros; apply tensor_update_grows.
Qed.

Lemma open_grows is_plus :
  keeps (grows ph) (open_progress_file is_plus) (fun _ => True).
Proof.
  intros s. unfold open_progress_file, bind, get, modify. cbn.
  split; [|auto]. intros b. exists []. rewrite app_nil_r. unfold lines.
  destruct is_plus, b; cbn; auto.
Qed.

Lemma savetxt_grows is_plus rows :
  Forall (conserving ph is_plus) rows ->
  keeps (grows ph) (savetxt is_plus rows) (fun _ => True).
Proof.
  intros Hrows s. unfold savetxt, bind, get, modify. cbn. split; [|auto].
  intros b. unfold lines. destruct is_plus, b; cbn;
    first [ exists rows; split; [reflexivity | exact Hrows]
          | exists []; rewrite app_nil_r; auto ].
Qed.

Lemma log_event_grows e :
  keeps (grows ph) (modify (log_event e)) (fun _ => True).
Proof.
  intros s. split; [|auto]. apply grows_same_files. intros []; reflexivity.
Qed.

Lemma reset_grows :
  keeps (grows ph) (reset_accumulators ph enabled) (fun _ => True).
Proof.
  intros s. split; [|auto]. apply grows_same_files.
  unfold reset_accumulators, bind, modify, ret.
  destruct enabled; intros []; reflexivity.
Qed.

Lemma calculate_gamma_grows :
  keeps (grows ph) (calculate_gamma lib ph enabled) (fun _ => True).
Proof.
  unfold calculate_gamma. k_bind; [apply reset_grows|]. intros _ _.
  apply (passes_keep lib ph enabled (grows ph) (grows_refl ph)
           (grows_trans ph)); intros.
  - apply accumulate_grows.
  - apply accumulate_grows.
  - apply scatter_grows.
  - apply open_grows.
  - apply savetxt_grows; assumption.
  - apply log_event_grows.
Qed.

End Grows.

(** *** With the option disabled the tensor is never touched *)

Section TensorKept.

Variable lib : numerics.
Variable ph : phonons.

Lemma tensor_kept_event e s s' :
  _gamma_tensor s' = _gamma_tensor s ->
  trace s' = trace s ++ [e] -> is_tensor_event e = false ->
  tensor_kept s s'.
Proof.
  intros Ht He Hf. split; [exact Ht|]. exists [e]. split; [exact He|].
  repeat constructor. exact Hf.
Qed.

Lemma tensor_kept_silent s s' :
  _gamma_tensor s' = _gamma_tensor s -> trace s' = trace s ->
  tensor_kept s s'.
Proof.
  intros Ht He. split; [exact Ht|]. exists []. rewrite app_nil_r. auto.
Qed.

Lemma accumulate_tensor_kept target from is_plus nu value :
  keeps tensor_kept (accumulate target from is_plus nu value)
        (fun _ => True).
Proof.
  by_step (accumulate_step target from is_plus nu value).
  intros [j ->].
  apply tensor_kept_event with (e := EvAdd target from is_plus j value);
    destruct target; reflexivity.
Qed.

Lemma open_tensor_kept is_plus :
  keeps tensor_kept (open_progress_file is_plus) (fun _ => True).
Proof.
  intros s. split; [|auto].
  apply tensor_kept_silent; destruct is_plus; reflexivity.
Qed.

Lemma savetxt_tensor_kept is_plus rows :
  keeps tensor_kept (savetxt is_plus rows) (fun _ => True).
Proof.
  intros s. split; [|auto].
  apply tensor_kept_silent; destruct is_plus; reflexivity.
Qed.

Lemma calculate_gamma_tensor_kept :
  keeps tensor_kept (calculate_gamma lib ph false) (fun _ => True).
Proof.
  unfold calculate_gamma. k_bind.
  - intros s. split; [|auto]. apply tensor_kept_silent; reflexivity.
  - intros _ _.
    apply (passes_keep lib ph false tensor_kept tensor_kept_refl
             tensor_kept_trans); intros.
    + apply accumulate_tensor_kept.
    + apply accumulate_tensor_kept.
    + discriminate.
    + apply open_tensor_kept.
    + apply savetxt_tensor_kept.
    + intros s. split; [|auto].
      eapply tensor_kept_event; reflexivity.
Qed.

End TensorKept.

(** *** With an unknown kernel name nothing is computed *)

Section NothingComputed.

Variable lib : numerics.
Variable ph : phonons.
Variable enabled : bool.
Hypothesis unknown : ~ recognised lib ph.

Lemma nothing_computed_event e s s' :
  (forall b, progress_file b s' = progress_file b s) ->
  trace s' = trace s ++ [e] -> is_fresh_event e = false ->
  nothing_computed s s'.
Proof.
  intros Hf He Hfresh. split; [intros b; unfold lines; rewrite Hf; reflexivity|].
  exists [e]. split; [exact He|]. repeat constructor. exact Hfresh.
Qed.

Lemma nothing_computed_silent s s' :
  (forall b, lines b s' = lines b s) -> trace s' = trace s ->
  nothing_computed s s'.
Proof.
  intros Hf He. split; [exact Hf|]. exists []. rewrite app_nil_r. auto.
Qed.

Lemma replayed_nothing_computed target is_plus nu value :
  keeps nothing_computed (accumulate target Replayed is_plus nu value)
        (fun _ => True).
Proof.
  by_step (accumulate_step target Replayed is_plus nu value).
  intros [j ->].
  apply nothing_computed_event
    with (e := EvAdd target Replayed is_plus j value);
    [intros []| |]; destruct target; reflexivity.
Qed.

Lemma tensor_update_nothing_computed nu nup subtract value :
  keeps nothing_computed (tensor_update nu nup subtract value)
        (fun _ => True).
Proof.
  by_step (tensor_update_step nu nup subtract value).
  intros (t & r & c & _ & ->).
  eapply nothing_computed_event; [intros []| |]; reflexivity.
Qed.

Lemma scatter_nothing_computed is_plus nu nup nupp value :
  keeps nothing_computed (scatter_into_tensor is_plus nu nup nupp value)
        (fun _ => True).
Proof.
  unfold scatter_into_tensor.
  destruct is_plus; (k_bind; [apply tensor_update_nothing_computed|]);
    intros; apply tensor_update_nothing_computed.
Qed.

Lemma open_nothing_computed is_plus :
  keeps nothing_computed (open_progress_file is_plus) (fun _ => True).
Proof.
  intros s. split; [|auto]. apply nothing_computed_silent.
  - intros b. unfold lines. destruct is_plus, b; cbn; auto.
  - destruct is_plus; reflexivity.
Qed.

Lemma reset_nothing_computed :
  keeps nothing_computed (reset_accumulators ph enabled) (fun _ => True).
Proof.
  intros s. split; [|auto]. unfold reset_accumulators, bind, modify, ret.
  destruct enabled; cbn.
  - eapply nothing_computed_event; [intros []| |]; reflexivity.
  - apply nothing_computed_silent; [intros []|]; reflexivity.
Qed.

Lemma calculate_gamma_nothing_computed :
  keeps nothing_computed (calculate_gamma lib ph enabled) (fun _ => True).
Proof using unknown.
  unfold calculate_gamma. k_bind; [apply reset_nothing_computed|].
  intros _ _.
  apply (passes_keep lib ph enabled nothing_computed nothing_computed_refl
           nothing_computed_trans); intros; try contradiction.
  - apply replayed_nothing_computed.
  - apply scatter_nothing_computed.
  - apply open_nothing_computed.
Qed.

End NothingComputed.

(** *** The accumulators hold the recorded additions *)

Section Accounted.

Variable lib : numerics.
Variable ph : phonons.
Variable enabled : bool.

Lemma accounted_event e s s' :
  trace s' = trace s ++ [e] ->
  _gamma s' = add_event Gamma (_gamma s) e ->
  _ps s' = add_event Ps (_ps s) e ->
  _gamma_tensor s' = write_event (_gamma_tensor s) e ->
  accounted s s'.
Proof. intros. exists [e]. cbn. auto. Qed.

Lemma accounted_silent s s' :
  trace s' = trace s -> _gamma s' = _gamma s -> _ps s' = _ps s ->
  _gamma_tensor s' = _gamma_tensor s -> accounted s s'.
Proof. intros. exists []. rewrite app_nil_r. cbn. auto. Qed.

Lemma accumulate_accounted target from is_plus nu value :
  keeps accounted (accumulate target from is_plus nu value) (fun _ => True).
Proof.
  by_step (accumulate_step target from is_plus nu value).
  intros [j ->]. apply accounted_event with
    (e := EvAdd target from is_plus j value); destruct target; reflexivity.
Qed.

Lemma tensor_update_accounted nu nup subtract value :
  keeps accounted (tensor_update nu nup subtract value) (fun _ => True).
Proof.
  by_step (tensor_update_step nu nup subtract value).
  intros (t & r & c & Ht & ->).
  apply accounted_event with (e := EvTensorWrite r c subtract value);
    try reflexivity.
  cbn. rewrite Ht. reflexivity.
Qed.

Lemma scatter_accounted is_plus nu nup nupp value :
  keeps accounted (scatter_into_tensor is_plus nu nup nupp value)
        (fun _ => True).
Proof.
  unfold scatter_into_tensor.
  destruct is_plus; (k_bind; [apply tensor_update_accounted|]);
    intros; apply tensor_update_accounted.
Qed.

Lemma passes_accounted :
  keeps accounted
    (bound <<- pass lib ph enabled true None ;;
     _ <<- pass lib ph enabled false bound ;;
     ret tt)
    (fun _ => True).
Proof.
  apply (passes_keep lib ph enabled accounted accounted_refl
           accounted_trans); intros.
  - apply accumulate_accounted.
  - apply accumulate_accounted.
  - apply scatter_accounted.
  - intros s. split; [|auto].
    apply accounted_silent; destruct is_plus; reflexivity.
  - intros s. split; [|auto].
    apply accounted_silent; destruct is_plus; reflexivity.
  - intros s. split; [|auto].
    eapply accounted_event; reflexivity.
Qed.

End Accounted.

(** ** Two runs side by side

    [sim E m1 m2]: from states related by [E], whenever [m1] returns, [m2]
    returns the same value and the final states are related by [E]. *)

Section SimRules.

Context {S : Type}.
Variable E : S -> S -> Prop.

Lemma sim_ret {A : Type} (a : A) : sim E (ret a) (ret a).
Proof.
  intros s1 s2 HE s1' a' H. injection H as <- <-. exists s2. auto.
Qed.

Lemma sim_raise {A : Type} (e : exn) (m2 : prog S A) : sim E (raise e) m2.
Proof. intros s1 s2 HE s1' a H. discriminate. Qed.

Lemma sim_lift {A : Type} (r : result A) : sim E (lift r) (lift r).
Proof.
  intros s1 s2 HE s1' a H. injection H as <- ->. exists s2. auto.
Qed.

Lemma sim_bind {A B : Type} (m1 m2 : prog S A) (k1 k2 : A -> prog S B) :
  sim E m1 m2 -> (forall a, sim E (k1 a) (k2 a)) ->
  sim E (bind m1 k1) (bind m2 k2).
Proof.
  intros Hm Hk s1 s2 HE s1' b H. unfold bind in *.
  destruct (m1 s1) as [t1 [a|e]] eqn:H1; [|discriminate].
  destruct (Hm s1 s2 HE t1 a H1) as (t2 & H2 & HE').
  rewrite H2. exact (Hk a t1 t2 HE' s1' b H).
Qed.

Lemma sim_get_bind {B : Type} (k1 k2 : S -> prog S B) :
  (forall s1 s2, E s1 s2 ->
     forall s1' b, k1 s1 s1 = (s1', Ok b) ->
     exists s2', k2 s2 s2 = (s2', Ok b) /\ E s1' s2') ->
  sim E (bind get k1) (bind get k2).
Proof. intros H s1 s2 HE s1' b Hrun. exact (H s1 s2 HE s1' b Hrun). Qed.

Lemma sim_for_in {A L : Type} (xs : list A)
    (body1 body2 : A -> L -> prog S (flow L)) (l : L) :
  (forall x l, sim E (body1 x l) (body2 x l)) ->
  sim E (for_in xs body1 l) (for_in xs body2 l).
Proof.
  intros Hbody. revert l. induction xs as [|x xs IH]; intros l.
  - apply sim_ret.
  - cbn [for_in]. apply sim_bind; [apply Hbody|].
    intros [l'|l']; [apply IH | apply sim_ret].
Qed.

End SimRules.

(** The primitive steps, as equations. *)

Lemma accumulate_eq target from is_plus nu value s :
  accumulate target from is_plus nu value s
  = match Np.index (length (accumulator_of target s)) nu with
    | Ok j =>
        (log_event (EvAdd target from is_plus j value)
           (set_accumulator target
              (alter (fun x => x + value) j (accumulator_of target s)) s),
         Ok tt)
    | Raise e => (s, Raise e)
    end.
Proof.
  unfold accumulate, bind, get, lift, modify, update_at, rbind. cbn.
  destruct (Np.index _ _); reflexivity.
Qed.

Lemma tensor_update_eq nu nup subtract value s :
  tensor_update nu nup subtract value s
  = match _gamma_tensor s with
    | None => (s, Raise TypeError)
    | Some t =>
        match update_at2 t nu nup (signed_add subtract value) with
        | Ok r =>
            (log_event (EvTensorWrite r.1.1 r.1.2 subtract value)
               (set_gamma_tensor (Some r.2) s), Ok tt)
        | Raise e => (s, Raise e)
        end
    end.
Proof.
  unfold tensor_update, bind, get, lift, modify, raise. cbn.
  destruct (_gamma_tensor s) as [t|]; [|reflexivity].
  destruct (update_at2 _ _ _ _); reflexivity.
Qed.

(** ** The structure of two runs that differ in the tensor option *)

Section SimStructure.

Variable lib : numerics.
Variable ph : phonons.
Variables enabled1 enabled2 : bool.

Variable E : state -> state -> Prop.
Hypothesis E_files : forall s1 s2, E s1 s2 ->
  forall b, progress_file b s1 = progress_file b s2.
Hypothesis E_accumulate : forall target from is_plus nu value,
  sim E (accumulate target from is_plus nu value)
        (accumulate target from is_plus nu value).
Hypothesis E_scatter : forall is_plus nu nup nupp value,
  sim E (if enabled1 then scatter_into_tensor is_plus nu nup nupp value
         else ret tt)
        (if enabled2 then scatter_into_tensor is_plus nu nup nupp value
         else ret tt).
Hypothesis E_open : forall is_plus,
  sim E (open_progress_file is_plus) (open_progress_file is_plus).
Hypothesis E_savetxt : forall is_plus rows,
  sim E (savetxt is_plus rows) (savetxt is_plus rows).
Hypothesis E_event : forall e,
  sim E (modify (log_event e)) (modify (log_event e)).

Lemma replay_line_sim is_plus l :
  sim E (replay_line enabled1 is_plus l) (replay_line enabled2 is_plus l).
Proof using E_accumulate E_scatter.
  unfold replay_line.
  destruct l as [|a [|b [|c [|v [|w [|x l]]]]]]; try apply sim_raise.
  apply sim_bind; [apply E_accumulate|]. intros _.
  apply sim_bind; [apply E_accumulate|]. intros _.
  apply sim_bind; [apply E_scatter|]. intros _. apply sim_ret.
Qed.

Lemma replay_sim is_plus bound :
  sim E (replay enabled1 is_plus bound) (replay enabled2 is_plus bound).
Proof using E_files E_accumulate E_scatter.
  unfold replay. apply sim_get_bind. intros s1 s2 HE.
  rewrite (E_files s1 s2 HE is_plus).
  destruct (progress_file is_plus s2) as [lines|].
  - apply sim_bind; [|intros; apply sim_ret | exact HE].
    apply sim_for_in. intros l r.
    apply sim_bind; [apply replay_line_sim|]. intros; apply sim_ret.
  - apply sim_ret. exact HE.
Qed.

Lemma commit_sim is_plus nu_single out :
  sim E (commit lib ph enabled1 is_plus nu_single out)
        (commit lib ph enabled2 is_plus nu_single out).
Proof using E_accumulate E_scatter E_savetxt.
  unfold commit.
  apply sim_bind; [apply E_accumulate|]. intros _.
  apply sim_bind; [apply E_accumulate|]. intros _.
  apply sim_bind; [|intros _; apply E_savetxt].
  apply sim_for_in. intros t [].
  apply sim_bind; [apply E_scatter|]. intros; apply sim_ret.
Qed.

Lemma mode_body_sim is_plus initial_k initial_mu index_k index_kpp_vec
    sigma_small mu fr :
  sim E (mode_body lib ph enabled1 is_plus initial_k initial_mu index_k
           index_kpp_vec sigma_small mu fr)
        (mode_body lib ph enabled2 is_plus initial_k initial_mu index_k
           index_kpp_vec sigma_small mu fr).
Proof using E_accumulate E_scatter E_savetxt E_open E_event.
  unfold mode_body.
  destruct (_ && _); [apply sim_ret|].
  apply sim_bind; [destruct (file fr); [apply sim_ret | apply E_open]|].
  intros _. cbn [broadening_function].
  destruct (Np.ltb _ _); [|apply sim_ret].
  destruct (broadening_function fr) as [kern|]; [|apply sim_raise].
  apply sim_bind; [apply E_event|]. intros _.
  apply sim_bind; [apply sim_lift|]. intros [out|]; [|apply sim_ret].
  apply sim_bind; [apply commit_sim|]. intros; apply sim_ret.
Qed.

Lemma wavevector_body_sim is_plus initial_k initial_mu index_k fr :
  sim E (wavevector_body lib ph enabled1 is_plus initial_k initial_mu
           index_k fr)
        (wavevector_body lib ph enabled2 is_plus initial_k initial_mu
           index_k fr).
Proof using E_accumulate E_scatter E_savetxt E_open E_event.
  unfold wavevector_body.
  destruct (is_amorphous ph); [apply sim_raise|].
  apply sim_bind; [|intros; apply sim_ret].
  apply sim_for_in. intros mu fr'. apply mode_body_sim.
Qed.

Lemma pass_sim is_plus bound :
  sim E (pass lib ph enabled1 is_plus bound)
        (pass lib ph enabled2 is_plus bound).
Proof using E_files E_accumulate E_scatter E_savetxt E_open E_event.
  unfold pass. apply sim_bind; [apply replay_sim|]. intros fr.
  cbn [read_nu file broadening_function].
  destruct (_ <? _)%Z; [|apply sim_ret].
  destruct (_ <? _)%Z; [apply sim_raise|].
  apply sim_bind.
  - apply sim_for_in. intros index_k fr'. apply wavevector_body_sim.
  - intros fr'. destruct (file fr'); [apply sim_ret | apply sim_raise].
Qed.

Lemma passes_sim :
  sim E
    (bound <<- pass lib ph enabled1 true None ;;
     _ <<- pass lib ph enabled1 false bound ;;
     ret tt)
    (bound <<- pass lib ph enabled2 true None ;;
     _ <<- pass lib ph enabled2 false bound ;;
     ret tt).
Proof using E_files E_accumulate E_scatter E_savetxt E_open E_event.
  apply sim_bind; [apply pass_sim|]. intros bound.
  apply sim_bind; [apply pass_sim|]. intros; apply sim_ret.
Qed.

End SimStructure.

(** ** Runs that agree on the totals and on the files *)

Lemma same_totals_accumulator target s1 s2 :
  same_totals s1 s2 -> accumulator_of target s1 = accumulator_of target s2.
Proof. intros (Hg & Hp & _). destruct target; assumption. Qed.

Lemma accumulate_same_totals target from is_plus nu value :
  sim same_totals (accumulate target from is_plus nu value)
      (accumulate target from is_plus nu value).
Proof.
  intros s1 s2 HE s1' a. rewrite !accumulate_eq.
  rewrite (same_totals_accumulator target s1 s2 HE).
  destruct (Np.index _ _) as [j|e]; [|discriminate].
  intros H. injection H as <- <-. eexists. split; [reflexivity|].
  destruct HE as (Hg & Hp & Hf).
  destruct target; cbn; (split; [|split]); cbn; auto; congruence.
Qed.

Lemma tensor_update_totals nu nup subtract value s s' a :
  tensor_update nu nup subtract value s = (s', a) ->
  _gamma s' = _gamma s /\ _ps s' = _ps s /\
  forall b, progress_file b s' = progress_file b s.
Proof.
  rewrite tensor_update_eq.
  destruct (_gamma_tensor s) as [t|]; [|intros H; injection H as <- _; auto].
  destruct (update_at2 _ _ _ _) as [r|e];
    intros H; injection H as <- _; auto.
Qed.

Lemma scatter_totals is_plus nu nup nupp value s s' a :
  scatter_into_tensor is_plus nu nup nupp value s = (s', a) ->
  _gamma s' = _gamma s /\ _ps s' = _ps s /\
  forall b, progress_file b s' = progress_file b s.
Proof.
  unfold scatter_into_tensor, bind.
  destruct is_plus;
    (destruct (tensor_update nu nup _ value s) as [t [[]|e]] eqn:H1;
     apply tensor_update_totals in H1 as (G1 & P1 & F1);
     [ intros H2; apply tensor_update_totals in H2 as (G2 & P2 & F2);
       split; [congruence|]; split; [congruence|];
       intros b; rewrite F2; apply F1
     | intros H; injection H as <- _; auto ]).
Qed.

Lemma open_same_totals is_plus :
  sim same_totals (open_progress_file is_plus) (open_progress_file is_plus).
Proof.
  intros s1 s2 HE s1' a H.
  unfold open_progress_file, bind, get, modify in *. cbn in *.
  injection H as <- <-. eexists. split; [reflexivity|].
  destruct HE as (Hg & Hp & Hf).
  split; [|split]; [destruct is_plus; exact Hg | destruct is_plus; exact Hp |].
  intros b. pose proof (Hf true). pose proof (Hf false).
  destruct is_plus, b; cbn in *; congruence.
Qed.

Lemma savetxt_same_totals is_plus rows :
  sim same_totals (savetxt is_plus rows) (savetxt is_plus rows).
Proof.
  intros s1 s2 HE s1' a H.
  unfold savetxt, bind, get, modify in *. cbn in *.
  injection H as <- <-. eexists. split; [reflexivity|].
  destruct HE as (Hg & Hp & Hf).
  split; [|split]; [destruct is_plus; exact Hg | destruct is_plus; exact Hp |].
  intros b. pose proof (Hf true). pose proof (Hf false).
  destruct is_plus, b; cbn in *; congruence.
Qed.

Lemma log_event_same_totals e :
  sim same_totals (modify (log_event e)) (modify (log_event e)).
Proof.
  intros s1 s2 (Hg & Hp & Hf) s1' a H. injection H as <- <-.
  eexists. split; [reflexivity|]. split; [exact Hg|]. split; [exact Hp|].
  intros []; [exact (Hf true) | exact (Hf false)].
Qed.

(** The run that fills the tensor and the run that does not. *)
Lemma passes_on_off lib ph :
  sim same_totals
    (bound <<- pass lib ph true true None ;;
     _ <<- pass lib ph true false bound ;;
     ret tt)
    (bound <<- pass lib ph false true None ;;
     _ <<- pass lib ph false false bound ;;
     ret tt).
Proof.
  apply passes_sim.
  - intros s1 s2 (_ & _ & Hf). exact Hf.
  - apply accumulate_same_totals.
  - intros is_plus nu nup nupp value s1 s2 HE s1' a H.
    exists s2. destruct a.
    split; [reflexivity|].
    apply scatter_totals in H as (G & P & F).
    destruct HE as (Hg & Hp & Hf).
    split; [congruence|]. split; [congruence|]. intros b. rewrite F. apply Hf.
  - apply open_same_totals.
  - apply savetxt_same_totals.
  - apply log_event_same_totals.
Qed.

(** Two runs with the same option, from states that agree on what the run
    reads. *)
Section SameInputs.

Variable enabled : bool.

Lemma sim_keeping_tensor {A : Type} (m : prog state A) :
  sim same_totals m m ->
  (forall s s' a, m s = (s', a) -> _gamma_tensor s' = _gamma_tensor s) ->
  sim (same_inputs enabled) m m.
Proof.
  intros Hsim Hkeep s1 s2 [HE Ht] s1' a H.
  destruct (Hsim s1 s2 HE s1' a H) as (s2' & H2 & HE').
  exists s2'. split; [exact H2|]. split; [exact HE'|].
  intros Hen. rewrite (Hkeep _ _ _ H), (Hkeep _ _ _ H2). apply Ht, Hen.
Qed.

Lemma accumulate_same_inputs target from is_plus nu value :
  sim (same_inputs enabled) (accumulate target from is_plus nu value)
      (accumulate target from is_plus nu value).
Proof.
  apply sim_keeping_tensor; [apply accumulate_same_totals|].
  intros s s' a. rewrite accumulate_eq.
  destruct (Np.index _ _); intros H; injection H as <- _;
    [destruct target|]; reflexivity.
Qed.

Lemma tensor_update_same_inputs nu nup subtract value :
  sim (same_inputs true) (tensor_update nu nup subtract value)
      (tensor_update nu nup subtract value).
Proof.
  intros s1 s2 [(Hg & Hp & Hf) Ht] s1' a. rewrite !tensor_update_eq.
  rewrite <- (Ht eq_refl).
  destruct (_gamma_tensor s1) as [t|]; [|discriminate].
  destruct (update_at2 _ _ _ _) as [r|e]; [|discriminate].
  intros H. injection H as <- <-. eexists. split; [reflexivity|].
  split; [split; [exact Hg | split; [exact Hp|]]|]; [|reflexivity].
  intros []; [exact (Hf true) | exact (Hf false)].
Qed.

Lemma maybe_scatter_same_inputs is_plus nu nup nupp value :
  sim (same_inputs enabled)
      (if enabled then scatter_into_tensor is_plus nu nup nupp value
       else ret tt)
      (if enabled then scatter_into_tensor is_plus nu nup nupp value
       else ret tt).
Proof.
  destruct enabled; [|apply sim_ret].
  unfold scatter_into_tensor.
  destruct is_plus;
    (apply sim_bind; [|intros _]);
    apply tensor_update_same_inputs.
Qed.

Lemma passes_same_inputs lib ph :
  sim (same_inputs enabled)
    (bound <<- pass lib ph enabled true None ;;
     _ <<- pass lib ph enabled false bound ;;
     ret tt)
    (bound <<- pass lib ph enabled true None ;;
     _ <<- pass lib ph enabled false bound ;;
     ret tt).
Proof.
  apply passes_sim.
  - intros s1 s2 [(_ & _ & Hf) _]. exact Hf.
  - apply accumulate_same_inputs.
  - apply maybe_scatter_same_inputs.
  - intros is_plus. apply sim_keeping_tensor; [apply open_same_totals|].
    intros s s' a H. injection H as <- _. destruct is_plus; reflexivity.
  - intros is_plus rows.
    apply sim_keeping_tensor; [apply savetxt_same_totals|].
    intros s s' a H. injection H as <- _. destruct is_plus; reflexivity.
  - intros e. apply sim_keeping_tensor; [apply log_event_same_totals|].
    intros s s' a H. injection H as <- _. reflexivity.
Qed.

End SameInputs.

(** ** The run as a whole *)

Lemma calculate_gamma_eq lib ph enabled s :
  calculate_gamma lib ph enabled s
  = (bound <<- pass lib ph enabled true None ;;
     _ <<- pass lib ph enabled false bound ;;
     ret tt) (after_reset ph enabled s).
Proof.
  unfold calculate_gamma, reset_accumulators, after_reset.
  destruct enabled; reflexivity.
Qed.

(** C4. Every line [calculate_gamma] appends to a progress file records
    modes of the mesh whose wavevector triples satisfy, component by
    component and modulo the mesh, [i_k + i_kp = i_kpp] in the file of the
    plus processes and [i_k - i_kp = i_kpp] in that of the minus
    processes; the lines already in the file are kept. *)
Theorem logged_triplets_conserve_momentum (lib : numerics) (ph : phonons)
    (enabled : bool) (s : state) (is_plus : bool) :
  exists appended,
    lines is_plus (calculate_gamma lib ph enabled s).1
    = lines is_plus s ++ appended /\
    Forall (conserving ph is_plus) appended.
Proof. apply (calculate_gamma_grows lib ph enabled s). Qed.

(** C6. With the full-tensor option disabled no step of a run allocates or
    writes the mode-pair tensor, and whenever the run with the option
    enabled completes, the run without it completes with the same per-mode
    rate and phase-space arrays. *)
Theorem disabled_tensor_untouched (lib : numerics) (ph : phonons) (s : state) :
  tensor_kept s (calculate_gamma lib ph false s).1 /\
  forall s_on, calculate_gamma lib ph true s = (s_on, Ok tt) ->
    exists s_off,
      calculate_gamma lib ph false s = (s_off, Ok tt) /\
      _gamma s_off = _gamma s_on /\ _ps s_off = _ps s_on.
Proof.
  split; [apply (calculate_gamma_tensor_kept lib ph s)|].
  intros s_on Hon. rewrite calculate_gamma_eq in Hon.
  rewrite calculate_gamma_eq.
  assert (HE : same_totals (after_reset ph true s) (after_reset ph false s)).
  { split; [reflexivity|]. split; [reflexivity|]. intros []; reflexivity. }
  destruct (passes_on_off lib ph _ _ HE _ _ Hon)
    as (s_off & Hoff & Hg & Hp & _).
  exists s_off. auto.
Qed.

(** A run reads the accumulators of no earlier run: from two states with
    the same progress files it returns the same totals and, when the
    tensor is enabled, the same tensor. *)
Lemma calculate_gamma_forgets_accumulators (lib : numerics) (ph : phonons)
    (enabled : bool) (s s0 s0' : state) :
  (forall b, progress_file b s0 = progress_file b s) ->
  calculate_gamma lib ph enabled s0 = (s0', Ok tt) ->
  exists s',
    calculate_gamma lib ph enabled s = (s', Ok tt) /\
    _gamma s' = _gamma s0' /\ _ps s' = _ps s0' /\
    (enabled = true -> _gamma_tensor s' = _gamma_tensor s0').
Proof.
  intros Hfiles Hrun. rewrite calculate_gamma_eq in Hrun.
  rewrite calculate_gamma_eq.
  assert (HE : same_inputs enabled (after_reset ph enabled s0)
                 (after_reset ph enabled s)).
  { unfold after_reset. destruct enabled.
    - split; [|reflexivity]. split; [reflexivity|]. split; [reflexivity|].
      intros []; [exact (Hfiles true) | exact (Hfiles false)].
    - split; [|discriminate]. split; [reflexivity|]. split; [reflexivity|].
      intros []; [exact (Hfiles true) | exact (Hfiles false)]. }
  destruct (passes_same_inputs enabled lib ph _ _ HE _ _ Hrun)
    as (s' & Hs' & (Hg & Hp & _) & Hten).
  exists s'. split; [exact Hs'|]. split; [congruence|]. split; [congruence|].
  intros Hen. symmetry. apply Hten, Hen.
Qed.

Lemma unknown_name_not_recognised lib ph :
  broadening_shape ph <> "gauss" ->
  broadening_shape ph <> "lorentz" ->
  broadening_shape ph <> "triangle" ->
  ~ recognised lib ph.
Proof.
  intros H1 H2 H3 Hrec. apply Hrec. unfold select_broadening.
  apply String.eqb_neq in H1, H2, H3. rewrite H1, H2, H3. reflexivity.
Qed.


(** ** Resuming from a truncated progress file *)

(** Line 356: when the progress file ends inside a wavevector, the first
    branch of that wavevector leaves the loop over its branches. *)
Lemma resumed_wavevector_is_left (lib : numerics) (ph : phonons)
    (enabled is_plus : bool) (initial_k initial_mu : nat)
    (index_kpp_vec : list nat) (sigma_small : width) (fr : frame) (s : state) :
  (0 < initial_mu)%nat ->
  for_in (seq 0 (n_particles ph * 3))
    (mode_body lib ph enabled is_plus initial_k initial_mu initial_k
               index_kpp_vec sigma_small)
    fr s
  = (s, Ok fr).
Proof.
  intros Hmu. destruct (n_particles ph * 3)%nat as [|n]; [reflexivity|].
  cbn [seq for_in]. unfold bind at 1, mode_body at 1.
  rewrite Nat.eqb_refl.
  replace (0 <? initial_mu)%nat with true
    by (symmetry; apply Nat.ltb_lt, Hmu).
  reflexivity.
Qed.

(** C1. A run resumed from a progress file that ends inside a wavevector
    leaves the loop over the branches of that wavevector at its first
    branch (line 356 breaks where it should skip): on the small system, with
    the plus file cut after the first bra mode, the resumed run completes,
    never evaluates the bra modes 1 and 2 in the plus pass, which the
    uninterrupted run evaluates, and returns another rate for mode 1. *)
Theorem resume_skips_unlogged_branches :
  (forall lib ph enabled is_plus initial_k initial_mu index_kpp_vec
          sigma_small fr s,
      (0 < initial_mu)%nat ->
      for_in (seq 0 (n_particles ph * 3))
        (mode_body lib ph enabled is_plus initial_k initial_mu initial_k
                   index_kpp_vec sigma_small)
        fr s
      = (s, Ok fr)) /\
  Toy.full.2 = Ok tt /\
  (Toy.resumed 1).2 = Ok tt /\
  (exists log,
      scattering_matrix_1 (Toy.interrupted 1) = Some log /\
      log = Toy.truncate_log 1 (lines true Toy.full.1) /\
      Forall (fun l : line => py_int (hd 0 l) = 0%Z) log /\
      length log = 12%nat) /\
  evaluated true 1 Toy.full.1 = true /\
  evaluated true 2 Toy.full.1 = true /\
  evaluated true 1 (Toy.resumed 1).1 = false /\
  evaluated true 2 (Toy.resumed 1).1 = false /\
  exists uninterrupted resumed,
    _gamma Toy.full.1 !! 1%nat = Some uninterrupted /\
    _gamma (Toy.resumed 1).1 !! 1%nat = Some resumed /\
    ~ resumed == uninterrupted.
Proof.
  split; [intros; apply resumed_wavevector_is_left; assumption|].
  split; [vm_compute; reflexivity|].
  split; [vm_compute; reflexivity|].
  split.
  { eexists. split; [vm_compute; reflexivity|].
    split; [vm_compute; reflexivity|].
    split; [|reflexivity].
    repeat (apply Forall_cons; split; [vm_compute; reflexivity|]).
    apply Forall_nil_2. }
  do 4 (split; [vm_compute; reflexivity|]).
  do 2 eexists. split; [vm_compute; reflexivity|].
  split; [vm_compute; reflexivity|]. q_decide.
Qed.

(** ** An unknown kernel name *)



(** ** The weight on the small system *)

Lemma plus_weight_is_occupation_difference_witness :
  Toy.single true 0 0 = Ok (Some (Toy.single_out true 0 0)) /\
  index_kp_vec (Toy.single_out true 0 0) !! 0%nat = Some 0%nat /\
  mup_vec (Toy.single_out true 0 0) !! 0%nat = Some 0%nat /\
  mupp_vec (Toy.single_out true 0 0) !! 0%nat = Some 0%nat /\
  exists rate,
    pot_times_dirac (Toy.single_out true 0 0) !! 0%nat = Some rate /\
    rate == 0.
Proof.
  assert (Hrun : Toy.single true 0 0 = Ok (Some (Toy.single_out true 0 0)))
    by (vm_compute; reflexivity).
  assert (Hkp : index_kp_vec (Toy.single_out true 0 0) !! 0%nat = Some 0%nat)
    by (vm_compute; reflexivity).
  assert (Hmup : mup_vec (Toy.single_out true 0 0) !! 0%nat = Some 0%nat)
    by (vm_compute; reflexivity).
  assert (Hmupp : mupp_vec (Toy.single_out true 0 0) !! 0%nat = Some 0%nat)
    by (vm_compute; reflexivity).
  split; [exact Hrun|]. split; [exact Hkp|]. split; [exact Hmup|].
  split; [exact Hmupp|].
  destruct (plus_weight_is_occupation_difference 3 Toy.q_sqrt 1 1 1 0 0
              (seq 0 2) (frequencies (Toy.system "triangle"))
              (occupations (Toy.system "triangle")) 2
              (fun _ _ _ => Toy.one) (fun _ _ _ => Toy.one)
              (fun _ _ => Toy.one) (fun _ _ => Toy.one)
              (fun _ _ _ _ => Toy.one) (1 # 10)
              (fun k m => 2 * 3 * frequencies (Toy.system "triangle") k m)
              (index_kpp_of true Toy.k_size 0) (WidthScalar 1)
              triangular_delta 3 1 (Toy.single_out true 0 0) 0 0 0 0
              Hrun Hkp Hmup Hmupp)
    as (broadened & kernel_density & _ & _ & _ & _ & Hrate & Hzero).
  eexists. split; [exact Hrate|]. apply Hzero. vm_compute. reflexivity.
Defined.

Lemma disabled_tensor_untouched_witness :
  (calculate_gamma Toy.lib (Toy.system "triangle") true Toy.fresh).2 = Ok tt /\
  (calculate_gamma Toy.lib (Toy.system "triangle") false Toy.fresh).2 = Ok tt /\
  _gamma (calculate_gamma Toy.lib (Toy.system "triangle") false Toy.fresh).1
  = _gamma (calculate_gamma Toy.lib (Toy.system "triangle") true Toy.fresh).1 /\
  _ps (calculate_gamma Toy.lib (Toy.system "triangle") false Toy.fresh).1
  = _ps (calculate_gamma Toy.lib (Toy.system "triangle") true Toy.fresh).1.
Proof.
  assert (Hon : (calculate_gamma Toy.lib (Toy.system "triangle") true
                   Toy.fresh).2 = Ok tt) by (vm_compute; reflexivity).
  split; [exact Hon|].
  pose proof (proj2 (disabled_tensor_untouched Toy.lib (Toy.system "triangle")
                     Toy.fresh)) as H.
  destruct (calculate_gamma Toy.lib (Toy.system "triangle") true Toy.fresh)
    as [s_on r] eqn:Hrun.
  cbn [fst snd] in Hon |- *.
  subst r.
  destruct (H s_on eq_refl) as (s_off & Hoff & Hg & Hp).
  rewrite Hoff. cbn [fst snd]. split; [reflexivity|]. split; assumption.
Defined.

(** ** The cached occupations *)

Lemma init_lookup (lib : numerics) (ph : phonons) :
  init lib ph !! "_occupations" = Some PyNone /\
  init lib ph !! "folder_name" = Some (PyStr (cache_folder lib ph)) /\
  init lib ph !! "frequencies" = None.
Proof.
  unfold init, cache_folder. split; [reflexivity|]. split; reflexivity.
Qed.

Lemma compute_density_spec (lib : numerics) (frequencies : ndarray)
    (temp threshold : Q) (classic : pyval) :
  compute_density lib frequencies temp threshold classic
  = Ok (NdArray (shape frequencies)
          (map (occupation lib classic temp threshold) (data frequencies))).
Proof.
  unfold compute_density, Np.take_mask, Np.put_mask.
  rewrite !length_map, Nat.eqb_refl. cbn [rbind negb].
  assert (Hlen : forall f : Q -> Q,
             length (map f (Np.mask_select (map (Np.ltb threshold)
                                                (data frequencies))
                                           (data frequencies)))
             = Np.count_true (map (Np.ltb threshold) (data frequencies)))
    by (intros f; rewrite length_map; apply mask_select_length).
  assert (Hout : forall f : Q -> Q,
             Np.mask_assign (map (Np.ltb threshold) (data frequencies))
               (map (fun _ => 0) (data frequencies))
               (map f (Np.mask_select (map (Np.ltb threshold)
                                           (data frequencies))
                                      (data frequencies)))
             = map (fun x => if Np.ltb threshold x then f x else 0)
                   (data frequencies))
    by (intros f; apply mask_assign_select).
  unfold occupation.
  destruct classic as [|[]| | | |]; rewrite Hlen, Nat.eqb_refl; cbn [rbind];
    rewrite Hout; reflexivity.
Qed.

(** C8. The accessor of a controller the constructor built, with no cached
    file on disk, raises [AttributeError] at [self.frequencies] and leaves
    the controller and the disk as they were: nothing is computed and
    nothing is persisted. The array lines 168-177 would compute from
    frequencies, a temperature and a threshold holds, mode by mode, the
    quantum or the classical occupation above the threshold and zero
    elsewhere. *)
Theorem occupations_accessor_reads_unbound_attribute (lib : numerics)
    (ph : phonons) (files : gmap string ndarray) :
  (files !! (cache_folder lib ph +:+ OCCUPATIONS_FILE) = None ->
   occupations_getter lib (World (init lib ph) files)
   = (World (init lib ph) files, Raise AttributeError)) /\
  (forall frequencies temp threshold classic,
      compute_density lib frequencies temp threshold classic
      = Ok (NdArray (shape frequencies)
              (map (occupation lib classic temp threshold)
                   (data frequencies)))).
Proof.
  split; [|intros; apply compute_density_spec].
  intros Hmiss. destruct (init_lookup lib ph) as (Hocc & Hfolder & Hfreq).
  unfold occupations_getter, bind, getattr, get, ret. cbn [self disk].
  repeat (cbn [self disk is_none];
          first [rewrite Hocc | rewrite Hfolder | rewrite Hmiss
                | rewrite Hfreq]).
  reflexivity.
Qed.

Lemma occupations_accessor_reads_unbound_attribute_witness :
  (∅ : gmap string ndarray)
    !! (cache_folder Toy.lib (Toy.system "triangle") +:+ OCCUPATIONS_FILE)
  = None /\
  occupations_getter Toy.lib Toy.controller
  = (Toy.controller, Raise AttributeError).
Proof.
  assert (Hmiss : (∅ : gmap string ndarray)
                    !! (cache_folder Toy.lib (Toy.system "triangle")
                        +:+ OCCUPATIONS_FILE) = None) by reflexivity.
  split; [exact Hmiss|].
  exact (proj1 (occupations_accessor_reads_unbound_attribute Toy.lib
                  (Toy.system "triangle") ∅) Hmiss).
Defined.

(** * Further properties of the code *)

(** ** The kernels *)

Lemma ramp_bounds (w d : Q) :
  Qabs d < Qabs w -> 0 < ramp w d /\ ramp w d <= 1 / Qabs w.
Proof.
  intros Hd. unfold ramp.
  assert (Hw : 0 < Qabs w)
    by (eapply Qle_lt_trans; [apply Qabs_nonneg | exact Hd]).
  assert (Hi : 0 < 1 / Qabs w).
  { unfold Qdiv. rewrite Qmult_1_l. apply Qinv_lt_0_compat, Hw. }
  assert (Hr : 0 <= Qabs d / Qabs w /\ Qabs d / Qabs w < 1).
  { split.
    - apply Qle_shift_div_l; [exact Hw|]. rewrite Qmult_0_l. apply Qabs_nonneg.
    - apply Qlt_shift_div_r; [exact Hw|]. rewrite Qmult_1_l. exact Hd. }
  destruct Hr as [Hr0 Hr1]. split.
  - apply Qmult_lt_0_compat; [exact Hi|].
    unfold Qminus. rewrite <- Qlt_minus_iff. exact Hr1.
  - rewrite <- (Qmult_1_r (1 / Qabs w)) at 2.
    apply Qmult_le_l; [exact Hi|].
    rewrite <- (Qplus_0_r 1) at 2. unfold Qminus. apply Qplus_le_r.
    apply (Qopp_le_compat 0). exact Hr0.
Qed.

(** X1. With a scalar width the triangular kernel is never negative and never
    above its peak [1/|width|]. *)
Theorem triangular_delta_bounded (delta_energy : list Q) (width : Q) :
  exists out,
    triangular_delta delta_energy (Np.Scalar width) = Ok out /\
    Forall (fun o => 0 <= o /\ o <= 1 / Qabs width) out.
Proof.
  eexists. split; [apply triangular_delta_scalar|].
  apply Forall_forall. intros o Ho.
  apply list_elem_of_fmap in Ho as (d & -> & _).
  destruct (Np.ltb (Qabs d) (Qabs width)) eqn:Hlt.
  - apply ltb_lt in Hlt. destruct (ramp_bounds width d Hlt) as [H0 H1].
    split; [apply Qlt_le_weak, H0 | exact H1].
  - split; [apply Qle_refl|].
    unfold Qdiv. rewrite Qmult_1_l. apply Qinv_le_0_compat, Qabs_nonneg.
Qed.

Lemma count_true_cons (b : bool) (mask : list bool) :
  Np.count_true (b :: mask)
  = ((if b then 1 else 0) + Np.count_true mask)%nat.
Proof.
  unfold Np.count_true. rewrite filter_cons.
  destruct b; [rewrite decide_True by done | rewrite decide_False by done];
    reflexivity.
Qed.

Lemma count_true_le (mask : list bool) :
  (Np.count_true mask <= length mask)%nat.
Proof.
  induction mask as [|b mask IH]; [done|].
  rewrite count_true_cons. destruct b; cbn [length]; lia.
Qed.

Lemma count_true_some_false (mask : list bool) (i : nat) :
  mask !! i = Some false -> (Np.count_true mask < length mask)%nat.
Proof.
  revert i. induction mask as [|b mask IH]; intros i Hi; [done|].
  rewrite count_true_cons. cbn [length]. destruct i as [|i].
  - injection Hi as ->. pose proof (count_true_le mask). lia.
  - apply IH in Hi. destruct b; lia.
Qed.

Lemma mask_select_length_eq {A : Type} (mask : list bool) (xs : list A) :
  length mask = length xs ->
  length (Np.mask_select mask xs) = Np.count_true mask.
Proof.
  revert xs. induction mask as [|b mask IH]; intros [|x xs] Hlen;
    try discriminate; [done|].
  rewrite count_true_cons. cbn [Np.mask_select]. injection Hlen as Hlen.
  destruct b; cbn [length]; rewrite IH by exact Hlen; reflexivity.
Qed.

Lemma mask_select_all {A : Type} (mask : list bool) (xs : list A) :
  Forall (fun b => b = true) mask -> length mask = length xs ->
  Np.mask_select mask xs = xs.
Proof.
  intros Hall. revert xs. induction Hall as [|b mask -> _ IH];
    intros [|x xs] Hlen; try discriminate; [done|].
  cbn [Np.mask_select]. f_equal. apply IH. injection Hlen as ->. reflexivity.
Qed.

Lemma mask_assign_all {A : Type} (mask : list bool) (out vals : list A) :
  Forall (fun b => b = true) mask ->
  length mask = length out -> length mask = length vals ->
  Np.mask_assign mask out vals = vals.
Proof.
  intros Hall. revert out vals. induction Hall as [|b mask -> _ IH];
    intros [|o out] [|v vals] Ho Hv; try discriminate; [done|].
  cbn [Np.mask_assign]. f_equal. apply IH; [injection Ho | injection Hv]; auto.
Qed.

Lemma count_true_all (mask : list bool) :
  Forall (fun b => b = true) mask -> Np.count_true mask = length mask.
Proof.
  induction 1 as [|b mask -> _ IH]; [done|].
  rewrite count_true_cons, IH. reflexivity.
Qed.

Lemma triangular_delta_array (delta_energy widths : list Q) :
  length widths = length delta_energy ->
  triangular_delta delta_energy (Np.Array widths)
  = (let ds := map Qabs delta_energy in
     let ws := map Qabs widths in
     let mask := zip_with Np.ltb ds ws in
     ratio <- Np.broadcast Qdiv (Np.mask_select mask ds) ws ;;
     rhs <- Np.broadcast Qmult (map (fun w => 1 / w) ws)
                         (map (fun r => 1 - r) ratio) ;;
     Np.put_mask mask (map (fun _ => 0) ds) rhs)%result.
Proof.
  intros Hlen. unfold triangular_delta. cbn [Np.map1 Np.op_l Np.op_r].
  unfold Np.broadcast at 1. rewrite !length_map, Hlen, Nat.eqb_refl.
  cbn [rbind]. unfold Np.take_mask.
  rewrite length_zip_with, !length_map, Hlen, Nat.min_id, Nat.eqb_refl.
  reflexivity.
Qed.

Lemma triangular_delta_array_inside (delta_energy widths : list Q) :
  length widths = length delta_energy ->
  Forall2 (fun d w => Qabs d < Qabs w) delta_energy widths ->
  triangular_delta delta_energy (Np.Array widths)
  = Ok (zip_with (fun d w => ramp w d) delta_energy widths).
Proof.
  intros Hlen. rewrite (triangular_delta_array _ _ Hlen). cbv zeta.
  set (ds := map Qabs delta_energy). set (ws := map Qabs widths).
  set (out := map (fun _ => 0) ds).
  assert (Hds : length ds = length delta_energy) by apply length_map.
  assert (Hws : length ws = length delta_energy)
    by (unfold ws; rewrite length_map; exact Hlen).
  assert (Hout : length out = length delta_energy)
    by (unfold out; rewrite length_map; exact Hds).
  set (mask := zip_with Np.ltb ds ws).
  assert (Hmask : length mask = length delta_energy)
    by (unfold mask; rewrite length_zip_with; lia).
  assert (Hsel : length (Np.mask_select mask ds) = Np.count_true mask)
    by (apply mask_select_length_eq; congruence).
  intros Hall.
  assert (Htrue : Forall (fun b => b = true) mask).
  { unfold mask, ds, ws. clear -Hall.
    induction Hall as [|d w ds ws Hd _ IH]; [constructor|].
    cbn [map zip_with]. constructor; [apply ltb_lt, Hd | exact IH]. }
  rewrite (mask_select_all mask ds Htrue) by congruence.
  unfold Np.broadcast at 1. rewrite Hds, Hws, Nat.eqb_refl. cbn [rbind].
  set (ratio := map (fun r => 1 - r) (zip_with Qdiv ds ws)).
  assert (Hratio : length ratio = length delta_energy)
    by (unfold ratio; rewrite length_map, length_zip_with; lia).
  unfold Np.broadcast. rewrite length_map, Hws, Hratio, Nat.eqb_refl.
  cbn [rbind].
  set (rhs := zip_with Qmult (map (fun w => 1 / w) ws) ratio).
  assert (Hrhs : length rhs = length delta_energy)
    by (unfold rhs; rewrite length_zip_with, length_map; lia).
  unfold Np.put_mask. rewrite Hmask, Hout, Nat.eqb_refl. cbn [negb].
  rewrite (count_true_all mask Htrue), Hrhs, Hmask, Nat.eqb_refl. f_equal.
  rewrite (mask_assign_all mask out rhs Htrue) by congruence.
  unfold rhs, ratio, ds, ws. clear. revert widths.
  induction delta_energy as [|d ds IH]; intros [|w ws]; try reflexivity.
  cbn [map zip_with]. f_equal. apply IH.
Qed.

Lemma triangular_delta_array_outside (delta_energy widths : list Q) :
  length widths = length delta_energy ->
  (2 <= length delta_energy)%nat ->
  (exists i d w,
      delta_energy !! i = Some d /\ widths !! i = Some w /\
      Qabs w <= Qabs d) ->
  triangular_delta delta_energy (Np.Array widths) = Raise ValueError.
Proof.
  intros Hlen Hn. rewrite (triangular_delta_array _ _ Hlen). cbv zeta.
  set (ds := map Qabs delta_energy). set (ws := map Qabs widths).
  set (out := map (fun _ => 0) ds).
  assert (Hds : length ds = length delta_energy) by apply length_map.
  assert (Hws : length ws = length delta_energy)
    by (unfold ws; rewrite length_map; exact Hlen).
  assert (Hout : length out = length delta_energy)
    by (unfold out; rewrite length_map; exact Hds).
  set (mask := zip_with Np.ltb ds ws).
  assert (Hmask : length mask = length delta_energy)
    by (unfold mask; rewrite length_zip_with; lia).
  assert (Hsel : length (Np.mask_select mask ds) = Np.count_true mask)
    by (apply mask_select_length_eq; congruence).
  intros (i & d & w & Hd & Hw & Hge).
  assert (Hfalse : mask !! i = Some false).
  { unfold mask, ds, ws.
    rewrite lookup_zip_with, !list_lookup_fmap, Hd, Hw.
    cbn. f_equal. apply ltb_ge, Hge. }
  apply count_true_some_false in Hfalse. rewrite Hmask, <- Hsel in Hfalse.
  set (selected := Np.mask_select mask ds) in *.
  destruct ws as [|w1 [|w2 ws']] eqn:Ews;
    [cbn in Hws; lia | cbn in Hws; lia |].
  unfold Np.broadcast at 1.
  replace (length selected =? length (w1 :: w2 :: ws'))%nat with false
    by (symmetry; apply Nat.eqb_neq; lia).
  destruct selected as [|x [|x' selected']] eqn:Esel; cbn [rbind];
    [reflexivity | | reflexivity].
  set (ratio := map (fun r => 1 - r) (map (Qdiv x) (w1 :: w2 :: ws'))).
  assert (Hratio : length ratio = length delta_energy)
    by (unfold ratio; rewrite !length_map; exact Hws).
  unfold Np.broadcast. rewrite length_map, Hws, Hratio, Nat.eqb_refl.
  cbn [rbind].
  set (rhs := zip_with Qmult (map (fun w => 1 / w) (w1 :: w2 :: ws')) ratio).
  assert (Hrhs : length rhs = length delta_energy)
    by (unfold rhs; rewrite length_zip_with, length_map; lia).
  unfold Np.put_mask. rewrite Hmask, Hout, Nat.eqb_refl. cbn [negb].
  rewrite <- Hsel, Hrhs. cbn [length].
  replace (length delta_energy =? 1)%nat with false
    by (symmetry; apply Nat.eqb_neq; lia).
  destruct rhs as [|r1 [|r2 rhs']]; [reflexivity | | reflexivity].
  cbn in Hrhs. lia.
Qed.

(** X2. With one width per energy difference (the adaptive broadening), the
    triangular kernel returns the ramps when every difference lies inside
    the support of its width; as soon as one of two or more differences
    lies outside, the shapes of line 49 do not match and the call raises
    [ValueError]. *)
Theorem triangular_delta_array_width (delta_energy widths : list Q) :
  length widths = length delta_energy ->
  (2 <= length delta_energy)%nat ->
  (Forall2 (fun d w => Qabs d < Qabs w) delta_energy widths ->
   triangular_delta delta_energy (Np.Array widths)
   = Ok (zip_with (fun d w => ramp w d) delta_energy widths)) /\
  ((exists i d w,
       delta_energy !! i = Some d /\ widths !! i = Some w /\
       Qabs w <= Qabs d) ->
   triangular_delta delta_energy (Np.Array widths) = Raise ValueError).
Proof.
  intros Hlen Hn. split.
  - apply triangular_delta_array_inside, Hlen.
  - apply triangular_delta_array_outside; assumption.
Qed.

Lemma triangular_delta_array_width_witness :
  length [1; 1] = length [0; 5] /\
  (2 <= length [0; 5])%nat /\
  triangular_delta [0; 5] (Np.Array [1; 1]) = Raise ValueError.
Proof.
  assert (Hlen : length [1; 1] = length [0; 5]) by reflexivity.
  assert (Hn : (2 <= length [0; 5])%nat) by (simpl; lia).
  split; [exact Hlen|]. split; [exact Hn|].
  apply (proj2 (triangular_delta_array_width [0; 5] [1; 1] Hlen Hn)).
  exists 1%nat, 5, 1. split; [reflexivity|]. split; [reflexivity|].
  vm_compute. discriminate.
Defined.

Lemma Qsquare_opp (x : Q) : (- x) ^ 2 = x ^ 2.
Proof.
  destruct x as [n d]. cbn. unfold Qmult. cbn [Qnum Qden Qopp].
  f_equal. lia.
Qed.

Lemma Qhalf_square_opp (x : Q) : (- x / 2) ^ 2 = (x / 2) ^ 2.
Proof.
  destruct x as [n d]. cbn. unfold Qmult, Qdiv, Qmult. cbn [Qnum Qden Qopp Qinv].
  f_equal. lia.
Qed.

(** X3. The Gaussian kernel reads its two arguments through their squares: it
    returns the same result, value or error, when every energy difference
    is negated and when the width, scalar or array, is negated. *)
Theorem gaussian_delta_even (pi : Q) (np_exp np_sqrt erf : Q -> Q)
    (delta_energy : list Q) (sigma : Np.operand) :
  gaussian_delta pi np_exp np_sqrt erf (map Qopp delta_energy) sigma
  = gaussian_delta pi np_exp np_sqrt erf delta_energy sigma /\
  gaussian_delta pi np_exp np_sqrt erf delta_energy (Np.map1 Qopp sigma)
  = gaussian_delta pi np_exp np_sqrt erf delta_energy sigma.
Proof.
  unfold gaussian_delta. split.
  - rewrite map_map.
    rewrite (map_ext (fun d => - (- d) ^ 2) (fun d => - d ^ 2))
      by (intros d; rewrite Qsquare_opp; reflexivity).
    reflexivity.
  - assert (H1 : Np.map1 (fun s => s ^ 2) (Np.map1 Qopp sigma)
                 = Np.map1 (fun s => s ^ 2) sigma).
    { destruct sigma as [s|ss]; unfold Np.map1.
      - rewrite Qsquare_opp. reflexivity.
      - rewrite map_map. f_equal. apply map_ext. intros. apply Qsquare_opp. }
    assert (H2 : Np.map1 (fun s => 1 / np_sqrt (pi * s ^ 2))
                         (Np.map1 Qopp sigma)
                 = Np.map1 (fun s => 1 / np_sqrt (pi * s ^ 2)) sigma).
    { destruct sigma as [s|ss]; unfold Np.map1.
      - rewrite Qsquare_opp. reflexivity.
      - rewrite map_map. f_equal. apply map_ext. intros.
        rewrite Qsquare_opp. reflexivity. }
    rewrite H1, H2. reflexivity.
Qed.

Lemma broadcast_negated (xs xs' ys : list Q) :
  Forall2 (fun x x' => x' == - x) xs xs' ->
  negated (Np.broadcast Qdiv xs ys) (Np.broadcast Qdiv xs' ys).
Proof.
  intros Hxs. pose proof (Forall2_length _ _ _ Hxs) as Hlen.
  assert (Hdiv : forall x x' y, x' == - x -> x' / y == - (x / y)).
  { intros x x' y ->. unfold Qdiv. ring. }
  unfold Np.broadcast. rewrite <- Hlen.
  destruct (length xs =? length ys)%nat.
  - cbn. clear Hlen. revert ys.
    induction Hxs as [|x x' xs xs' Hx _ IH]; intros [|y ys]; cbn;
      constructor; auto.
  - destruct ys as [|y [|y' ys]].
    + destruct Hxs as [|x x' xs xs' Hx [|]]; cbn; auto.
    + cbn. clear Hlen. induction Hxs; cbn; constructor; auto.
    + destruct Hxs as [|x x' xs xs' Hx [|]]; cbn; auto.
      constructor; [auto|]. constructor; [auto|].
      induction ys; cbn; constructor; auto.
Qed.

(** X4. The Lorentzian kernel is even in the energy difference, but its sign
    follows the sign of the width: negating the width negates every value
    (and leaves an error as it is). *)
Theorem lorentzian_delta_symmetry (pi : Q) (delta_energy : list Q)
    (gamma : Np.operand) :
  lorentzian_delta pi (map Qopp delta_energy) gamma
  = lorentzian_delta pi delta_energy gamma /\
  negated (lorentzian_delta pi delta_energy gamma)
          (lorentzian_delta pi delta_energy (Np.map1 Qopp gamma)).
Proof.
  unfold lorentzian_delta. cbn [IS_DELTA_CORRECTION_ENABLED rbind]. split.
  - rewrite map_map.
    rewrite (map_ext (fun d => (- d) ^ 2) (fun d => d ^ 2))
      by (intros d; apply Qsquare_opp).
    reflexivity.
  - assert (Hden : Np.map1 (fun g => (g / 2) ^ 2) (Np.map1 Qopp gamma)
                   = Np.map1 (fun g => (g / 2) ^ 2) gamma).
    { destruct gamma as [g|gs]; unfold Np.map1.
      - rewrite Qhalf_square_opp. reflexivity.
      - rewrite map_map. f_equal. apply map_ext. intros.
        apply Qhalf_square_opp. }
    rewrite Hden.
    destruct (Np.op_l Qplus (map (fun d => d ^ 2) delta_energy)
                (Np.map1 (fun g => (g / 2) ^ 2) gamma)) as [den|e];
      cbn [rbind negated]; [|reflexivity].
    assert (Hscale : forall l l' : list Q,
               Forall2 (fun o o' => o' == - o) l l' ->
               Forall2 (fun o o' => o' == - o)
                       (map (fun l => l / 1) l) (map (fun l => l / 1) l')).
    { induction 1 as [|o o' l l' Ho _ IH]; cbn; constructor; [|exact IH].
      rewrite Ho. unfold Qdiv. ring. }
    destruct gamma as [g|gs]; cbn [Np.map1 Np.op_r rbind].
    + apply Hscale. induction den as [|d den IH]; cbn; constructor;
        [|exact IH].
      unfold Qdiv. ring.
    + assert (Hpre : Forall2 (fun x x' => x' == - x)
                       (map (fun g => 1 / pi * 1 / 2 * g) gs)
                       (map (fun g => 1 / pi * 1 / 2 * g) (map Qopp gs))).
      { clear. induction gs as [|g gs IH]; cbn; constructor; [|exact IH].
        ring. }
      pose proof (broadcast_negated _ _ den Hpre) as Hb.
      unfold negated in Hb.
      destruct (Np.broadcast Qdiv (map (fun g => 1 / pi * 1 / 2 * g) gs) den),
        (Np.broadcast Qdiv (map (fun g => 1 / pi * 1 / 2 * g) (map Qopp gs))
           den); cbn [rbind]; try contradiction.
      * apply Hscale, Hb.
      * exact Hb.
Qed.

Lemma Qsquare_nonneg (x : Q) : 0 <= x ^ 2.
Proof. destruct x as [n d]. unfold Qle. cbn. nia. Qed.

Lemma lorentzian_delta_scalar (pi : Q) (delta_energy : list Q) (gamma : Q) :
  lorentzian_delta pi delta_energy (Np.Scalar gamma)
  = Ok (map (fun d => 1 / pi * 1 / 2 * gamma / (d ^ 2 + (gamma / 2) ^ 2) / 1)
            delta_energy).
Proof.
  unfold lorentzian_delta.
  cbn [IS_DELTA_CORRECTION_ENABLED rbind Np.map1 Np.op_l Np.op_r].
  rewrite !map_map. reflexivity.
Qed.

(** X5. With a positive [pi] and a positive scalar width every value of the
    Lorentzian kernel is positive and at most the peak
    [2 / (pi * gamma)]. *)
Theorem lorentzian_delta_bounded (pi : Q) (delta_energy : list Q) (gamma : Q) :
  0 < pi -> 0 < gamma ->
  exists out,
    lorentzian_delta pi delta_energy (Np.Scalar gamma) = Ok out /\
    length out = length delta_energy /\
    Forall (fun o => 0 < o /\ o <= 2 / (pi * gamma)) out.
Proof.
  intros Hpi Hg. eexists. split; [apply lorentzian_delta_scalar|].
  split; [apply length_map|].
  apply Forall_forall. intros o Ho.
  apply list_elem_of_fmap in Ho as (d & -> & _).
  assert (Hpi' : ~ pi == 0) by (intros H; rewrite H in Hpi; discriminate).
  assert (Hg' : ~ gamma == 0) by (intros H; rewrite H in Hg; discriminate).
  assert (Hd : 0 <= d ^ 2) by apply Qsquare_nonneg.
  assert (Hh : 0 < (gamma / 2) ^ 2).
  { cbn. apply Qmult_lt_0_compat;
      (apply Qlt_shift_div_l; [reflexivity | rewrite Qmult_0_l; exact Hg]). }
  assert (HD : 0 < d ^ 2 + (gamma / 2) ^ 2).
  { apply (Qlt_le_trans _ (0 + (gamma / 2) ^ 2)).
    - rewrite Qplus_0_l. exact Hh.
    - apply Qplus_le_l. exact Hd. }
  assert (HN : 0 < 1 / pi * 1 / 2 * gamma).
  { apply Qmult_lt_0_compat; [|exact Hg].
    apply Qlt_shift_div_l; [reflexivity|]. rewrite Qmult_0_l.
    rewrite Qmult_1_r. apply Qlt_shift_div_l; [exact Hpi|].
    rewrite Qmult_0_l. reflexivity. }
  assert (HB : 0 < 2 / (pi * gamma)).
  { apply Qlt_shift_div_l; [apply Qmult_lt_0_compat; assumption|].
    rewrite Qmult_0_l. reflexivity. }
  split.
  - apply Qlt_shift_div_l; [reflexivity|]. rewrite Qmult_0_l.
    apply Qlt_shift_div_l; [exact HD|]. rewrite Qmult_0_l. exact HN.
  - apply Qle_shift_div_r; [reflexivity|]. rewrite Qmult_1_r.
    apply Qle_shift_div_r; [exact HD|].
    apply (Qle_trans _ (2 / (pi * gamma) * (gamma / 2) ^ 2 * 1)).
    { apply Qle_lteq. right. cbn. field. split; assumption. }
    rewrite (Qmult_comm (2 / (pi * gamma) * 1)), Qmult_assoc.
    rewrite !Qmult_1_r, (Qmult_comm (d ^ 2 + (gamma / 2) ^ 2)).
    apply Qmult_le_l; [exact HB|].
    rewrite <- (Qplus_0_l ((gamma / 2) ^ 2)) at 1.
    apply Qplus_le_l. exact Hd.
Qed.

Lemma lorentzian_delta_bounded_witness :
  0 < 3 /\ 0 < 2 /\
  exists out,
    lorentzian_delta 3 [0; 1; -4] (Np.Scalar 2) = Ok out /\
    length out = length [0; 1; -4] /\
    Forall (fun o => 0 < o /\ o <= 2 / (3 * 2)) out.
Proof.
  assert (Hpi : 0 < 3) by reflexivity.
  assert (Hg : 0 < 2) by reflexivity.
  split; [exact Hpi|]. split; [exact Hg|].
  exact (lorentzian_delta_bounded 3 [0; 1; -4] 2 Hpi Hg).
Defined.

(** ** [calculate_single_gamma] *)

Lemma cube_NoDup (a b c : nat) : NoDup (cube a b c).
Proof.
  unfold cube. apply NoDup_bind; [| |apply NoDup_seq].
  - intros j1 j2 t _ _ H1 H2.
    apply list_elem_of_bind in H1 as (m1 & H1 & _).
    apply list_elem_of_bind in H1 as (n1 & H1 & _).
    apply list_elem_of_bind in H2 as (m2 & H2 & _).
    apply list_elem_of_bind in H2 as (n2 & H2 & _).
    apply list_elem_of_singleton in H1, H2. congruence.
  - intros j _. apply NoDup_bind; [| |apply NoDup_seq].
    + intros m1 m2 t _ _ H1 H2.
      apply list_elem_of_bind in H1 as (n1 & H1 & _).
      apply list_elem_of_bind in H2 as (n2 & H2 & _).
      apply list_elem_of_singleton in H1, H2. congruence.
    + intros m _. apply NoDup_bind; [| |apply NoDup_seq].
      * intros n1 n2 t _ _ H1 H2.
        apply list_elem_of_singleton in H1, H2. congruence.
      * intros n _. apply NoDup_singleton.
Qed.

Lemma imul_length (xs ys out : list Q) :
  Np.imul xs ys = Ok out -> length out = length xs.
Proof.
  unfold Np.imul. destruct (Nat.eqb (length xs) (length ys)) eqn:Hlen.
  - intros H. injection H as <-. apply Nat.eqb_eq in Hlen.
    rewrite length_zip_with. lia.
  - destruct ys as [|y [|y' ys]]; try discriminate.
    intros H. injection H as <-. apply length_map.
Qed.

(** X7. What [calculate_single_gamma] returns is well formed: the six arrays
    have the same length, which is not zero, every row names a wavevector
    and two branches of the mesh, and no triplet is returned twice. *)
Theorem returned_triplets_are_distinct
    (pi : Q) (np_sqrt : Q -> Q) (units_hbar units_mol units_J : Q)
    (is_plus : bool) (index_k mu : nat) (index_kp_full : list nat)
    (frequencies density : nat -> nat -> Q) (nptk : nat)
    (first_evect second_evect : nat -> nat -> nat -> complex)
    (first_chi second_chi : nat -> nat -> complex)
    (scaled_potential : nat -> nat -> nat -> nat -> complex)
    (frequencies_threshold : Q) (omegas : nat -> nat -> Q)
    (kpp_mapping : list nat) (sigma_small : width)
    (broadening_function : kernel) (n_modes n_replicas : nat)
    (g : gamma_out) :
  calculate_single_gamma pi np_sqrt units_hbar units_mol units_J is_plus
    index_k mu index_kp_full frequencies density nptk first_evect second_evect
    first_chi second_chi scaled_potential frequencies_threshold omegas
    kpp_mapping sigma_small broadening_function n_modes n_replicas
  = Ok (Some g) ->
  let n := length (index_kp_vec g) in
  (0 < n)%nat /\
  length (mup_vec g) = n /\ length (index_kpp_vec g) = n /\
  length (mupp_vec g) = n /\ length (pot_times_dirac g) = n /\
  length (dirac_delta g) = n /\
  (forall i p mup mupp,
      index_kp_vec g !! i = Some p -> mup_vec g !! i = Some mup ->
      mupp_vec g !! i = Some mupp ->
      (p < nptk /\ mup < n_modes /\ mupp < n_modes)%nat /\
      forall j,
        index_kp_vec g !! j = Some p -> mup_vec g !! j = Some mup ->
        mupp_vec g !! j = Some mupp -> j = i).
Proof.
  intros Hrun n.
  pose proof Hrun as Hinv.
  apply calculate_single_gamma_inv in Hinv
    as (Hne & Hkp & Hm & Hkpp & Hm' & dos & _ & Hmul & Hptd).
  set (rows := interactions pi is_plus index_k mu index_kp_full frequencies
                 nptk frequencies_threshold omegas kpp_mapping sigma_small
                 n_modes) in *.
  assert (Hn : n = length rows) by (unfold n; rewrite Hkp; apply length_map).
  assert (Hd : length (dirac_delta g) = length rows)
    by (apply imul_length in Hmul; rewrite length_map in Hmul; exact Hmul).
  split; [rewrite Hn; destruct rows; [contradiction | cbn; lia]|].
  split; [rewrite Hm, Hn; apply length_map|].
  split; [rewrite Hkpp, Hn; apply length_map|].
  split; [rewrite Hm', Hn; apply length_map|].
  split; [rewrite Hptd, Hn, length_map, length_zip_with, length_map; lia|].
  split; [rewrite Hn; exact Hd|].
  intros i p mup mupp Hi1 Hi2 Hi3.
  assert (Hrow : rows !! i = Some (p, mup, mupp))
    by (eapply gamma_out_rows; [exact Hrun | auto]).
  split.
  - assert (Hin : (p, mup, mupp) ∈ rows)
      by (apply list_elem_of_lookup; exists i; exact Hrow).
    apply elem_of_interactions in Hin. tauto.
  - intros j Hj1 Hj2 Hj3.
    assert (Hrow' : rows !! j = Some (p, mup, mupp))
      by (eapply gamma_out_rows; [exact Hrun | auto]).
    eapply NoDup_lookup; [|exact Hrow'|exact Hrow].
    unfold rows, interactions. apply NoDup_filter, cube_NoDup.
Qed.

Lemma returned_triplets_are_distinct_witness :
  Toy.single true 0 0 = Ok (Some (Toy.single_out true 0 0)) /\
  length (index_kp_vec (Toy.single_out true 0 0)) = 12%nat /\
  length (pot_times_dirac (Toy.single_out true 0 0))
  = length (index_kp_vec (Toy.single_out true 0 0)).
Proof.
  assert (Hrun : Toy.single true 0 0 = Ok (Some (Toy.single_out true 0 0)))
    by (vm_compute; reflexivity).
  split; [exact Hrun|]. split; [vm_compute; reflexivity|].
  exact (proj1 (proj2 (proj2 (proj2 (proj2
           (returned_triplets_are_distinct _ _ _ _ _ _ _ _ _ _ _ _ _ _ _ _ _
              _ _ _ _ _ _ _ _ Hrun)))))).
Defined.

(** X8. [calculate_single_gamma] returns [None], and no error, exactly when no
    candidate triplet lies inside the energy window with both partner
    frequencies above the threshold. *)
Theorem no_triplet_returns_none
    (pi : Q) (np_sqrt : Q -> Q) (units_hbar units_mol units_J : Q)
    (is_plus : bool) (index_k mu : nat) (index_kp_full : list nat)
    (frequencies density : nat -> nat -> Q) (nptk : nat)
    (first_evect second_evect : nat -> nat -> nat -> complex)
    (first_chi second_chi : nat -> nat -> complex)
    (scaled_potential : nat -> nat -> nat -> nat -> complex)
    (frequencies_threshold : Q) (omegas : nat -> nat -> Q)
    (kpp_mapping : list nat) (sigma_small : width)
    (broadening_function : kernel) (n_modes n_replicas : nat) :
  calculate_single_gamma pi np_sqrt units_hbar units_mol units_J is_plus
    index_k mu index_kp_full frequencies density nptk first_evect second_evect
    first_chi second_chi scaled_potential frequencies_threshold omegas
    kpp_mapping sigma_small broadening_function n_modes n_replicas
  = Ok None
  <->
  (forall j mup mupp,
      (j < nptk)%nat -> (mup < n_modes)%nat -> (mupp < n_modes)%nat ->
      ~ (omegas_difference is_plus index_k mu index_kp_full omegas kpp_mapping
                           j mup mupp
         < DELTA_THRESHOLD * 2 * pi * width_at sigma_small j mup mupp /\
         frequencies_threshold < frequencies (nth j index_kp_full 0%nat) mup /\
         frequencies_threshold < frequencies (nth j kpp_mapping 0%nat) mupp)).
Proof.
  split.
  - intros Hrun j mup mupp Hj Hm Hm' Hsel.
    apply calculate_single_gamma_none in Hrun.
    assert (Hin : (j, mup, mupp) ∈
                  interactions pi is_plus index_k mu index_kp_full frequencies
                    nptk frequencies_threshold omegas kpp_mapping sigma_small
                    n_modes)
      by (apply elem_of_interactions; tauto).
    rewrite Hrun in Hin. apply elem_of_nil in Hin. exact Hin.
  - intros Hnone. unfold calculate_single_gamma.
    destruct (interactions pi is_plus index_k mu index_kp_full frequencies
                nptk frequencies_threshold omegas kpp_mapping sigma_small
                n_modes) as [|[[j mup] mupp] rows] eqn:Hrows; [reflexivity|].
    exfalso.
    assert (Hin : (j, mup, mupp) ∈
                  interactions pi is_plus index_k mu index_kp_full frequencies
                    nptk frequencies_threshold omegas kpp_mapping sigma_small
                    n_modes)
      by (rewrite Hrows; left).
    apply elem_of_interactions in Hin as (Hj & Hm & Hm' & Hsel).
    exact (Hnone j mup mupp Hj Hm Hm' Hsel).
Qed.

Lemma zip_rows (rows : list (nat * nat * nat)) :
  zip (zip (map (fun t => t.1.1) rows) (map (fun t => t.1.2) rows))
      (map (fun t => t.2) rows)
  = rows.
Proof.
  induction rows as [|[[p m] m'] rows IH]; [reflexivity|].
  cbn [map zip zip_with fst snd]. f_equal. exact IH.
Qed.

(** X9. For a minus process, a returned triplet [(p, mup, pp, mupp)] carries
    the density [(1 + n(p,mup) + n(pp,mupp)) / 2 / (omega(p,mup) *
    omega(pp,mupp))] times the value of the kernel, the kernel being
    called once on the mismatches [|omega(k,mu) - omega(p,mup) -
    omega(pp,mupp)|] of the returned triplets with the width [2 pi sigma]
    (one number, or one width per triplet); its rate is that density times
    [|V|^2], [V] the sum over the replicas [l], [t] and the coordinates
    [i], [j] of [potential[l,i,t,j] * first_evect[p,mup,i] *
    first_chi[p,l] * second_evect[p,mupp,j] * second_chi[p,t]], times
    [hbar * pi / 4 / omega(k,mu) / nptk * 1e11 * mol * (mol / (10 J))^2]. *)
Theorem minus_weight_is_occupation_sum
    (pi : Q) (np_sqrt : Q -> Q) (units_hbar units_mol units_J : Q)
    (index_k mu : nat) (index_kp_full : list nat)
    (frequencies density : nat -> nat -> Q) (nptk : nat)
    (first_evect second_evect : nat -> nat -> nat -> complex)
    (first_chi second_chi : nat -> nat -> complex)
    (scaled_potential : nat -> nat -> nat -> nat -> complex)
    (frequencies_threshold : Q) (omegas : nat -> nat -> Q)
    (kpp_mapping : list nat) (sigma_small : width)
    (broadening_function : kernel) (n_modes n_replicas : nat)
    (g : gamma_out) (i p mup mupp : nat) :
  calculate_single_gamma pi np_sqrt units_hbar units_mol units_J false
    index_k mu index_kp_full frequencies density nptk first_evect second_evect
    first_chi second_chi scaled_potential frequencies_threshold omegas
    kpp_mapping sigma_small broadening_function n_modes n_replicas
  = Ok (Some g) ->
  index_kp_vec g !! i = Some p ->
  mup_vec g !! i = Some mup ->
  mupp_vec g !! i = Some mupp ->
  let pp := nth p kpp_mapping 0%nat in
  let triplets := zip (zip (index_kp_vec g) (mup_vec g)) (mupp_vec g) in
  let mismatches :=
    map (fun t : nat * nat * nat =>
           Qabs (omegas index_k mu
                 + inject_Z (-1) * omegas (nth t.1.1 index_kp_full 0%nat) t.1.2
                 - omegas (nth t.1.1 kpp_mapping 0%nat) t.2))
        triplets in
  let widths :=
    match sigma_small with
    | WidthScalar sigma => Np.Scalar (2 * pi * sigma)
    | WidthTensor sigma =>
        Np.Array (map (fun t : nat * nat * nat =>
                         2 * pi * sigma t.1.1 t.1.2 t.2)
                      triplets)
    end in
  exists broadened kernel_density,
    broadening_function mismatches widths = Ok broadened /\
    (broadened !! i = Some kernel_density \/ broadened = [kernel_density]) /\
    let dirac :=
      (1 # 2) * (1 + density p mup + density pp mupp)
      / (omegas p mup * omegas pp mupp) * kernel_density in
    let V :=
      csum_below n_replicas (fun l =>
        csum_below n_modes (fun i' =>
          csum_below n_replicas (fun t =>
            csum_below n_modes (fun j =>
              cmul (cmul (cmul (cmul (scaled_potential l i' t j)
                                     (first_evect p mup i'))
                               (first_chi p l))
                         (second_evect p mupp j))
                   (second_chi p t))))) in
    index_kpp_vec g !! i = Some pp /\
    dirac_delta g !! i = Some dirac /\
    pot_times_dirac g !! i
    = Some (units_hbar * pi / 4
            * (np_sqrt (re V ^ 2 + im V ^ 2) ^ 2 * dirac)
            / omegas index_k mu / inject_Z (Z.of_nat nptk)
            * (100000000000 * units_mol * (units_mol / (10 * units_J)) ^ 2)).
Proof.
  intros Hrun Hkp Hm Hm' pp triplets mismatches widths.
  assert (Hrow : interactions pi false index_k mu index_kp_full frequencies
                   nptk frequencies_threshold omegas kpp_mapping sigma_small
                   n_modes !! i = Some (p, mup, mupp))
    by (eapply gamma_out_rows; [exact Hrun | auto]).
  assert (Hkpp : index_kpp_vec g !! i = Some pp)
    by (eapply gamma_out_kpp; [exact Hrun | exact Hkp]).
  apply calculate_single_gamma_inv in Hrun
    as (_ & Hkps & Hmups & _ & Hmupps & dos & Hdos & Hmul & Hptd).
  eapply imul_lookup in Hmul as (y & Hy & Hdirac);
    [|rewrite list_lookup_fmap, Hrow; reflexivity].
  cbn [fst snd statistical_weight] in Hdirac.
  exists dos, y. split.
  { unfold mismatches, widths, triplets.
    rewrite Hkps, Hmups, Hmupps, zip_rows.
    revert Hdos. unfold density_of_states, sigma_size_is_one.
    destruct sigma_small as [sigma|sigma]; [intros H; exact H|].
    destruct (Nat.eqb (nptk * n_modes * n_modes) 1); [discriminate|].
    intros H; exact H. }
  split; [exact Hy|].
  cbn zeta. split; [exact Hkpp|]. split; [exact Hdirac|].
  rewrite Hptd, list_lookup_fmap, lookup_zip_with, list_lookup_fmap, Hrow.
  cbn. rewrite Hdirac. reflexivity.
Qed.

Lemma minus_weight_is_occupation_sum_witness :
  Toy.single false 1 2 = Ok (Some (Toy.single_out false 1 2)) /\
  index_kp_vec (Toy.single_out false 1 2) !! 1%nat = Some 0%nat /\
  mup_vec (Toy.single_out false 1 2) !! 1%nat = Some 0%nat /\
  mupp_vec (Toy.single_out false 1 2) !! 1%nat = Some 1%nat /\
  exists kernel_density,
    dirac_delta (Toy.single_out false 1 2) !! 1%nat
    = Some ((1 # 2)
            * (1 + occupations (Toy.system "triangle") 0 0
               + occupations (Toy.system "triangle") 1 1)
            / (2 * 3 * frequencies (Toy.system "triangle") 0 0
               * (2 * 3 * frequencies (Toy.system "triangle") 1 1))
            * kernel_density).
Proof.
  assert (Hrun : Toy.single false 1 2 = Ok (Some (Toy.single_out false 1 2)))
    by (vm_compute; reflexivity).
  assert (Hkp : index_kp_vec (Toy.single_out false 1 2) !! 1%nat = Some 0%nat)
    by (vm_compute; reflexivity).
  assert (Hmup : mup_vec (Toy.single_out false 1 2) !! 1%nat = Some 0%nat)
    by (vm_compute; reflexivity).
  assert (Hmupp : mupp_vec (Toy.single_out false 1 2) !! 1%nat = Some 1%nat)
    by (vm_compute; reflexivity).
  split; [exact Hrun|]. split; [exact Hkp|]. split; [exact Hmup|].
  split; [exact Hmupp|].
  destruct (minus_weight_is_occupation_sum 3 Toy.q_sqrt 1 1 1 1 2
              (seq 0 2) (frequencies (Toy.system "triangle"))
              (occupations (Toy.system "triangle")) 2
              (fun _ _ _ => Toy.one) (fun _ _ _ => Toy.one)
              (fun _ _ => Toy.one) (fun _ _ => Toy.one)
              (fun _ _ _ _ => Toy.one) (1 # 10)
              (fun k m => 2 * 3 * frequencies (Toy.system "triangle") k m)
              (index_kpp_of false Toy.k_size 1) (WidthScalar 1)
              triangular_delta 3 1 (Toy.single_out false 1 2) 1 0 0 1
              Hrun Hkp Hmup Hmupp)
    as (broadened & kernel_density & _ & _ & _ & Hdirac & _).
  exists kernel_density. exact Hdirac.
Defined.

(** ** [calculate_broadening] *)

Lemma Qplus_opp_opp (x y : Q) : - x + - y = - (x + y).
Proof.
  destruct x as [a b], y as [c d]. unfold Qplus, Qopp. cbn [Qnum Qden].
  f_equal. lia.
Qed.

Lemma Qmult_opp_l_eq (x y : Q) : - x * y = - (x * y).
Proof.
  destruct x as [a b], y as [c d]. unfold Qmult, Qopp. cbn [Qnum Qden].
  f_equal. lia.
Qed.

Lemma sum_below_3_opp (f g : nat -> Q) :
  sum_below 3 (fun b => - f b * g b) = - sum_below 3 (fun b => f b * g b).
Proof.
  unfold sum_below, Np.sum. cbn [seq map fold_left].
  rewrite !Qmult_opp_l_eq, <- !Qplus_opp_opp. reflexivity.
Qed.

(** X6. The adaptive width reads the velocity difference through squares: the
    width of a triplet is the same for a velocity difference and for its
    opposite. *)
Theorem calculate_broadening_even (np_sqrt : Q -> Q)
    (velocity : nat -> nat -> nat -> nat -> Q) (cellinv : nat -> nat -> Q)
    (k_size : mesh) (p mup mupp : nat) :
  calculate_broadening np_sqrt
    (fun p mup mupp c => - velocity p mup mupp c) cellinv k_size p mup mupp
  = calculate_broadening np_sqrt velocity cellinv k_size p mup mupp.
Proof.
  unfold calculate_broadening. do 2 f_equal.
  unfold sum_below at 1 3. f_equal. apply map_ext. intros a.
  rewrite sum_below_3_opp. apply Qsquare_opp.
Qed.

(** ** The cached properties of the controller *)

(** One step of a run of an accessor on a world whose attributes are
    known by hypotheses of the form [_ !! _ = _]. *)
Ltac attr_step :=
  cbn [self disk is_none fst snd];
  first
    [ rewrite lookup_insert_eq
    | rewrite lookup_insert_ne by discriminate
    | match goal with
      | H : _ !! _ = _ |- _ => rewrite H
      end ].

Ltac attr_run := repeat attr_step; cbn [self disk is_none fst snd].

Lemma occupations_getter_cached (lib : numerics) (w : world) (v : pyval) :
  self w !! "_occupations" = Some v -> is_none v = false ->
  occupations_getter lib w = (w, Ok v).
Proof.
  intros Hv Hnone. unfold occupations_getter, bind, getattr, ret.
  rewrite Hv, Hnone. cbn. rewrite Hv, Hnone. cbn. rewrite Hv. reflexivity.
Qed.

(** X10. A cached array is returned as it is, without a look at the disk or at
    any other attribute; with nothing cached, an array stored in
    [occupations.npy] is loaded, cached and returned, and the disk is left
    as it was. *)
Theorem occupations_cache_hit (lib : numerics) (w : world) :
  (forall v,
      self w !! "_occupations" = Some v -> is_none v = false ->
      occupations_getter lib w = (w, Ok v)) /\
  (forall folder a,
      self w !! "_occupations" = Some PyNone ->
      self w !! "folder_name" = Some (PyStr folder) ->
      disk w !! (folder +:+ OCCUPATIONS_FILE) = Some a ->
      occupations_getter lib w
      = (World (<["_occupations" := PyArray a]> (self w)) (disk w),
         Ok (PyArray a))).
Proof.
  split.
  - intros v. apply occupations_getter_cached.
  - intros folder a Hocc Hfolder Hfile.
    unfold occupations_getter, bind, getattr, setattr, modify, get, ret.
    attr_run. reflexivity.
Qed.

(** X11. The setter stores the array in [occupations.npy] and in the cache, and
    an accessor call after it returns that array and changes nothing. *)
Theorem occupations_set_then_get (lib : numerics) (w : world)
    (folder : string) (a : ndarray) :
  self w !! "folder_name" = Some (PyStr folder) ->
  let stored :=
    World (<["_occupations" := PyArray a]> (self w))
          (<[folder +:+ OCCUPATIONS_FILE := a]> (disk w)) in
  occupations_setter a w = (stored, Ok tt) /\
  occupations_getter lib stored = (stored, Ok (PyArray a)).
Proof.
  intros Hfolder stored. split.
  - unfold occupations_setter, bind, getattr, np_save, setattr, modify.
    rewrite Hfolder. reflexivity.
  - apply occupations_getter_cached; [apply lookup_insert_eq | reflexivity].
Qed.

Lemma occupations_set_then_get_witness :
  self Toy.controller !! "folder_name"
  = Some (PyStr (cache_folder Toy.lib (Toy.system "triangle"))) /\
  occupations_getter Toy.lib
    (occupations_setter (NdArray [2; 3]%nat [1; 2; 3; 4; 5; 6])
       Toy.controller).1
  = ((occupations_setter (NdArray [2; 3]%nat [1; 2; 3; 4; 5; 6])
        Toy.controller).1,
     Ok (PyArray (NdArray [2; 3]%nat [1; 2; 3; 4; 5; 6]))).
Proof.
  assert (Hfolder : self Toy.controller !! "folder_name"
                    = Some (PyStr (cache_folder Toy.lib
                                     (Toy.system "triangle"))))
    by reflexivity.
  split; [exact Hfolder|].
  destruct (occupations_set_then_get Toy.lib Toy.controller _
              (NdArray [2; 3]%nat [1; 2; 3; 4; 5; 6]) Hfolder)
    as [Hset Hget].
  rewrite Hset. exact Hget.
Defined.

(** X12. On a cache miss, a controller that carries the attributes the getter
    reads (an array of frequencies, a temperature, a threshold and the
    statistics flag) gets the occupations of lines 168-177, mode by mode;
    the array is saved to [occupations.npy] and cached, and it is what the
    call returns. *)
Theorem occupations_computed_and_persisted (lib : numerics) (w : world)
    (folder : string) (frequencies : ndarray) (temperature threshold : Q)
    (classic : pyval) :
  self w !! "_occupations" = Some PyNone ->
  self w !! "folder_name" = Some (PyStr folder) ->
  disk w !! (folder +:+ OCCUPATIONS_FILE) = None ->
  self w !! "frequencies" = Some (PyArray frequencies) ->
  self w !! "temperature" = Some (PyFloat temperature) ->
  self w !! "frequency_threshold" = Some (PyFloat threshold) ->
  self w !! "is_classic" = Some classic ->
  let temp :=
    temperature
    * KELVINTOTHZ (lib_pi lib) (lib_hbar lib) (lib_J lib) (lib_kB lib) in
  let density :=
    NdArray (shape frequencies)
            (map (occupation lib classic temp threshold) (data frequencies)) in
  occupations_getter lib w
  = (World (<["_occupations" := PyArray density]> (self w))
           (<[folder +:+ OCCUPATIONS_FILE := density]> (disk w)),
     Ok (PyArray density)).
Proof.
  intros Hocc Hfolder Hfile Hfreq Htemp Hthr Hclassic temp density.
  unfold occupations_getter, occupations_setter, bind, getattr, setattr,
    np_save, modify, get, ret, lift.
  attr_run. rewrite compute_density_spec. attr_run. reflexivity.
Qed.

Lemma occupations_computed_and_persisted_witness :
  self Toy.equipped !! "_occupations" = Some PyNone /\
  self Toy.equipped !! "folder_name"
  = Some (PyStr (cache_folder Toy.lib (Toy.system "triangle"))) /\
  disk Toy.equipped
    !! (cache_folder Toy.lib (Toy.system "triangle") +:+ OCCUPATIONS_FILE)
  = None /\
  self Toy.equipped !! "frequencies"
  = Some (PyArray (NdArray [2; 3]%nat [0; 2; 3; 1; 3; 4])) /\
  self Toy.equipped !! "temperature" = Some (PyFloat 300) /\
  self Toy.equipped !! "frequency_threshold" = Some (PyFloat (1 # 10)) /\
  self Toy.equipped !! "is_classic" = Some (PyBool true) /\
  exists density,
    (occupations_getter Toy.lib Toy.equipped).2 = Ok (PyArray density) /\
    disk (occupations_getter Toy.lib Toy.equipped).1
      !! (cache_folder Toy.lib (Toy.system "triangle") +:+ OCCUPATIONS_FILE)
    = Some density /\
    shape density = [2; 3]%nat /\
    data density !! 0%nat = Some 0.
Proof.
  assert (H1 : self Toy.equipped !! "_occupations" = Some PyNone)
    by reflexivity.
  assert (H2 : self Toy.equipped !! "folder_name"
               = Some (PyStr (cache_folder Toy.lib (Toy.system "triangle"))))
    by reflexivity.
  assert (H3 : disk Toy.equipped
                 !! (cache_folder Toy.lib (Toy.system "triangle")
                     +:+ OCCUPATIONS_FILE) = None) by reflexivity.
  assert (H4 : self Toy.equipped !! "frequencies"
               = Some (PyArray (NdArray [2; 3]%nat [0; 2; 3; 1; 3; 4])))
    by reflexivity.
  assert (H5 : self Toy.equipped !! "temperature" = Some (PyFloat 300))
    by reflexivity.
  assert (H6 : self Toy.equipped !! "frequency_threshold"
               = Some (PyFloat (1 # 10))) by reflexivity.
  assert (H7 : self Toy.equipped !! "is_classic" = Some (PyBool true))
    by reflexivity.
  do 7 (split; [assumption|]).
  rewrite (occupations_computed_and_persisted Toy.lib Toy.equipped _ _ _ _ _
             H1 H2 H3 H4 H5 H6 H7).
  eexists. split; [reflexivity|]. cbn [fst disk].
  split; [apply lookup_insert_eq|]. split; reflexivity.
Defined.

(** *** The heat capacity *)

Lemma init_lookup_c_v (lib : numerics) (ph : phonons) :
  init lib ph !! "_c_v" = Some PyNone.
Proof. reflexivity. Qed.

(** X13. The accessor of the heat capacity has the defect of the accessor of the
    occupations: on a controller the constructor built, with no cached
    [c_v.npy], it raises [AttributeError] at [self.frequencies] and changes
    nothing. *)
Theorem c_v_accessor_reads_unbound_attribute (lib : numerics) (ph : phonons)
    (files : gmap string ndarray) :
  files !! (cache_folder lib ph +:+ C_V_FILE) = None ->
  c_v_getter lib (World (init lib ph) files)
  = (World (init lib ph) files, Raise AttributeError).
Proof.
  intros Hmiss. destruct (init_lookup lib ph) as (_ & Hfolder & Hfreq).
  pose proof (init_lookup_c_v lib ph) as Hcv.
  unfold c_v_getter, bind, getattr, get, ret.
  repeat (cbn [self disk is_none];
          first [rewrite Hcv | rewrite Hfolder | rewrite Hmiss
                | rewrite Hfreq]).
  reflexivity.
Qed.

Lemma c_v_accessor_reads_unbound_attribute_witness :
  (∅ : gmap string ndarray)
    !! (cache_folder Toy.lib (Toy.system "triangle") +:+ C_V_FILE) = None /\
  c_v_getter Toy.lib Toy.controller = (Toy.controller, Raise AttributeError).
Proof.
  assert (Hmiss : (∅ : gmap string ndarray)
                    !! (cache_folder Toy.lib (Toy.system "triangle")
                        +:+ C_V_FILE) = None) by reflexivity.
  split; [exact Hmiss|].
  exact (c_v_accessor_reads_unbound_attribute Toy.lib
           (Toy.system "triangle") ∅ Hmiss).
Defined.

Lemma put_mask_fill (p : Q -> bool) (xs : list Q) (v : Q) :
  Np.put_mask (map p xs) (map (fun _ => 0) xs) [v]
  = Ok (map (fun x => if p x then v else 0) xs).
Proof.
  unfold Np.put_mask. rewrite !length_map, Nat.eqb_refl. cbn [negb length].
  assert (Hfill : forall vals,
             (Np.count_true (map p xs) <= length vals)%nat ->
             Forall (fun x => x = v) vals ->
             Np.mask_assign (map p xs) (map (fun _ => 0) xs) vals
             = map (fun x => if p x then v else 0) xs).
  { induction xs as [|x xs IH]; intros vals Hlen Hall; [reflexivity|].
    cbn [map Np.mask_assign]. cbn [map] in Hlen.
    rewrite count_true_cons in Hlen.
    destruct (p x).
    - destruct Hall as [|y vals -> Hall]; [cbn in Hlen; lia|].
      f_equal. apply IH; [cbn in Hlen; lia | exact Hall].
    - f_equal. apply IH; [lia | exact Hall]. }
  destruct (Nat.eqb 1 (Np.count_true (map p xs))) eqn:Hone.
  - f_equal. apply Nat.eqb_eq in Hone. apply Hfill; [cbn; lia|].
    constructor; [reflexivity | constructor].
  - f_equal. apply Hfill; [rewrite length_replicate; lia|].
    apply Forall_forall. intros y Hy. apply elem_of_replicate in Hy as [-> _].
    reflexivity.
Qed.

(** X14. With classical statistics, a controller that carries the attributes gets
    the heat capacity [KELVINTOJOULE] on every mode above the threshold and
    0 on the others; the array is saved to [c_v.npy] and cached, and the
    occupations are not touched. *)
Theorem c_v_classical_computed_and_persisted (lib : numerics) (w : world)
    (folder : string) (frequencies : ndarray) (temperature threshold : Q)
    (classic : pyval) :
  self w !! "_c_v" = Some PyNone ->
  self w !! "folder_name" = Some (PyStr folder) ->
  disk w !! (folder +:+ C_V_FILE) = None ->
  self w !! "frequencies" = Some (PyArray frequencies) ->
  self w !! "frequency_threshold" = Some (PyFloat threshold) ->
  self w !! "temperature" = Some (PyFloat temperature) ->
  self w !! "is_classic" = Some classic ->
  truthy classic = Ok true ->
  let c_v :=
    NdArray (shape frequencies)
            (map (fun f => if Np.ltb threshold f
                           then KELVINTOJOULE (lib_J lib) (lib_kB lib) else 0)
                 (data frequencies)) in
  c_v_getter lib w
  = (World (<["_c_v" := PyArray c_v]> (self w))
           (<[folder +:+ C_V_FILE := c_v]> (disk w)),
     Ok (PyArray c_v)).
Proof.
  intros Hcv Hfolder Hfile Hfreq Hthr Htemp Hclassic Htrue c_v.
  unfold c_v_getter, c_v_setter, bind, getattr, setattr, np_save, modify,
    get, ret, lift.
  attr_run. rewrite Htrue. cbn [fst snd]. rewrite put_mask_fill.
  attr_run. reflexivity.
Qed.

Lemma c_v_classical_computed_and_persisted_witness :
  self Toy.equipped !! "_c_v" = Some PyNone /\
  self Toy.equipped !! "folder_name"
  = Some (PyStr (cache_folder Toy.lib (Toy.system "triangle"))) /\
  disk Toy.equipped
    !! (cache_folder Toy.lib (Toy.system "triangle") +:+ C_V_FILE) = None /\
  self Toy.equipped !! "frequencies"
  = Some (PyArray (NdArray [2; 3]%nat [0; 2; 3; 1; 3; 4])) /\
  self Toy.equipped !! "frequency_threshold" = Some (PyFloat (1 # 10)) /\
  self Toy.equipped !! "temperature" = Some (PyFloat 300) /\
  self Toy.equipped !! "is_classic" = Some (PyBool true) /\
  truthy (PyBool true) = Ok true /\
  (c_v_getter Toy.lib Toy.equipped).2
  = Ok (PyArray (NdArray [2; 3]%nat
                   (map (fun f => if Np.ltb (1 # 10) f
                                  then KELVINTOJOULE 1 1 else 0)
                        [0; 2; 3; 1; 3; 4]))).
Proof.
  assert (H1 : self Toy.equipped !! "_c_v" = Some PyNone) by reflexivity.
  assert (H2 : self Toy.equipped !! "folder_name"
               = Some (PyStr (cache_folder Toy.lib (Toy.system "triangle"))))
    by reflexivity.
  assert (H3 : disk Toy.equipped
                 !! (cache_folder Toy.lib (Toy.system "triangle")
                     +:+ C_V_FILE) = None) by reflexivity.
  assert (H4 : self Toy.equipped !! "frequencies"
               = Some (PyArray (NdArray [2; 3]%nat [0; 2; 3; 1; 3; 4])))
    by reflexivity.
  assert (H5 : self Toy.equipped !! "frequency_threshold"
               = Some (PyFloat (1 # 10))) by reflexivity.
  assert (H6 : self Toy.equipped !! "temperature" = Some (PyFloat 300))
    by reflexivity.
  assert (H7 : self Toy.equipped !! "is_classic" = Some (PyBool true))
    by reflexivity.
  assert (H8 : truthy (PyBool true) = Ok true) by reflexivity.
  do 8 (split; [assumption|]).
  rewrite (c_v_classical_computed_and_persisted Toy.lib Toy.equipped _ _ _ _ _
             H1 H2 H3 H4 H5 H6 H7 H8).
  reflexivity.
Defined.

(** ** [calculate_gamma]: errors and restarts *)

Lemma after_reset_files (ph : phonons) (enabled : bool) (s : state)
    (b : bool) :
  progress_file b (after_reset ph enabled s) = progress_file b s.
Proof. unfold after_reset. destruct enabled, b; reflexivity. Qed.

(** X15. Lines 283-337: on a 1 x 1 x 1 mesh [chi] is the integer 1, which has no
    method [conj]. A run on such a mesh that finds no progress file of the
    plus processes raises [AttributeError] right after the reset, whatever
    the kernel and the width. *)
Theorem single_point_mesh_raises (lib : numerics) (ph : phonons)
    (enabled : bool) (s : state) :
  kpts ph = (1, 1, 1)%nat ->
  (0 < n_particles ph)%nat ->
  progress_file true s = None ->
  calculate_gamma lib ph enabled s
  = (after_reset ph enabled s, Raise AttributeError).
Proof.
  intros Hmesh Hn Hfile. rewrite calculate_gamma_eq.
  pose proof (after_reset_files ph enabled s true) as Hfile'.
  rewrite Hfile in Hfile'.
  unfold bind at 1. unfold pass at 1. unfold bind at 1.
  unfold replay at 1. unfold bind at 1, get at 1. rewrite Hfile'.
  cbn [ret read_nu file broadening_function]. rewrite Hmesh.
  cbn [np_prod Nat.mul]. rewrite Nat.add_0_r.
  destruct (n_particles ph) as [|n] eqn:En; [lia|].
  replace (-1 + 1 <? Z.of_nat (S n * 3))%Z with true
    by (symmetry; apply Z.ltb_lt; lia).
  replace (-1 + 1 <? 0)%Z with false by reflexivity.
  replace (Z.to_nat (-1 + 1) / (S n * 3))%nat with 0%nat
    by (symmetry; apply Nat.div_small; lia).
  cbn [Nat.sub seq for_in]. unfold bind at 1.
  unfold wavevector_body, is_amorphous. rewrite Hmesh.
  reflexivity.
Qed.

Lemma single_point_mesh_raises_witness :
  kpts Toy.point = (1, 1, 1)%nat /\
  (0 < n_particles Toy.point)%nat /\
  progress_file true Toy.fresh = None /\
  calculate_gamma Toy.lib Toy.point true Toy.fresh
  = (after_reset Toy.point true Toy.fresh, Raise AttributeError).
Proof.
  assert (Hmesh : kpts Toy.point = (1, 1, 1)%nat) by reflexivity.
  assert (Hn : (0 < n_particles Toy.point)%nat) by (simpl; lia).
  assert (Hfile : progress_file true Toy.fresh = None) by reflexivity.
  split; [exact Hmesh|]. split; [exact Hn|]. split; [exact Hfile|].
  exact (single_point_mesh_raises Toy.lib Toy.point true Toy.fresh
           Hmesh Hn Hfile).
Defined.

Lemma open_progress_file_eq (is_plus : bool) (s : state) :
  open_progress_file is_plus s
  = (set_progress_file is_plus (Some (default [] (progress_file is_plus s))) s,
     Ok tt).
Proof. reflexivity. Qed.

Lemma not_amorphous (lib : numerics) (ph : phonons) (enabled : bool) :
  kpts ph <> (1, 1, 1)%nat -> is_amorphous ph = false.
Proof.
  intros Hmesh. unfold is_amorphous. destruct (kpts ph) as [[nx ny] nz].
  destruct (Nat.eqb_spec nx 1), (Nat.eqb_spec ny 1), (Nat.eqb_spec nz 1);
    try reflexivity.
  subst. contradiction.
Qed.

Lemma bind_raise {S A B : Type} (m : prog S A) (k : A -> prog S B)
    (s s' : S) (e : exn) :
  m s = (s', Raise e) -> bind m k s = (s', Raise e).
Proof. intros H. unfold bind. rewrite H. reflexivity. Qed.

Lemma bind_ok {S A B : Type} (m : prog S A) (k : A -> prog S B)
    (s s' : S) (a : A) :
  m s = (s', Ok a) -> bind m k s = k a s'.
Proof. intros H. unfold bind. rewrite H. reflexivity. Qed.

Lemma for_in_cons_raise {S A L : Type} (x : A) (xs : list A)
    (body : A -> L -> prog S (flow L)) (l : L) (s s' : S) (e : exn) :
  body x l s = (s', Raise e) -> for_in (x :: xs) body l s = (s', Raise e).
Proof. intros H. cbn [for_in]. apply bind_raise, H. Qed.

(** X16. Lines 339-366: with a kernel name that is none of the three, a run on
    a mesh of more than one point that finds no progress file of the plus
    processes and whose first mode is physical resets the accumulators,
    creates the empty progress file and raises [UnboundLocalError] at the
    first call of [calculate_single_gamma]. *)
Theorem unknown_kernel_raises (lib : numerics) (ph : phonons)
    (enabled : bool) (s : state) :
  broadening_shape ph <> "gauss" ->
  broadening_shape ph <> "lorentz" ->
  broadening_shape ph <> "triangle" ->
  kpts ph <> (1, 1, 1)%nat ->
  (0 < np_prod (kpts ph))%nat ->
  (0 < n_particles ph)%nat ->
  progress_file true s = None ->
  frequency_threshold ph < frequencies ph 0 0 ->
  calculate_gamma lib ph enabled s
  = (set_progress_file true (Some []) (after_reset ph enabled s),
     Raise UnboundLocalError).
Proof.
  intros H1 H2 H3 Hmesh Hk Hn Hfile Hphys. rewrite calculate_gamma_eq.
  pose proof (after_reset_files ph enabled s true) as Hfile'.
  rewrite Hfile in Hfile'. set (s0 := after_reset ph enabled s) in *.
  assert (Hsel : select_broadening lib (broadening_shape ph) None = None).
  { unfold select_broadening. apply String.eqb_neq in H1, H2, H3.
    rewrite H1, H2, H3. reflexivity. }
  apply bind_raise. unfold pass.
  assert (Hreplay : replay enabled true None s0
                    = (s0, Ok (Frame (-1) false None))).
  { unfold replay, bind, get. rewrite Hfile'. reflexivity. }
  rewrite (bind_ok _ _ _ _ _ Hreplay).
  cbn [read_nu file broadening_function].
  destruct (np_prod (kpts ph)) as [|m] eqn:Em; [lia|].
  destruct (n_particles ph) as [|n] eqn:En; [lia|].
  replace (-1 + 1 <? Z.of_nat (S m * (S n * 3)))%Z with true
    by (symmetry; apply Z.ltb_lt; lia).
  replace (-1 + 1 <? 0)%Z with false by reflexivity.
  replace (Z.to_nat (-1 + 1) / (S n * 3))%nat with 0%nat
    by (symmetry; apply Nat.div_small; lia).
  replace (Z.to_nat (-1 + 1) mod (S n * 3))%nat with 0%nat
    by (symmetry; apply Nat.mod_small; lia).
  cbn [Nat.sub seq]. apply bind_raise, for_in_cons_raise.
  unfold wavevector_body. rewrite (not_amorphous lib ph enabled Hmesh).
  cbn [read_nu file broadening_function]. rewrite Hsel.
  apply bind_raise. rewrite En. cbn [Nat.mul Nat.add seq].
  apply for_in_cons_raise. unfold mode_body.
  cbn [Nat.eqb Nat.ltb Nat.leb andb file read_nu broadening_function].
  rewrite (bind_ok _ _ _ _ _ (open_progress_file_eq true s0)), Hfile'.
  cbn [default].
  replace (Np.ltb (frequency_threshold ph) (frequencies ph 0 0)) with true
    by (symmetry; apply ltb_lt, Hphys).
  reflexivity.
Qed.

Lemma unknown_kernel_raises_witness :
  broadening_shape (Toy.system "foo") <> "gauss" /\
  broadening_shape (Toy.system "foo") <> "lorentz" /\
  broadening_shape (Toy.system "foo") <> "triangle" /\
  kpts (Toy.system "foo") <> (1, 1, 1)%nat /\
  (0 < np_prod (kpts (Toy.system "foo")))%nat /\
  (0 < n_particles (Toy.system "foo"))%nat /\
  progress_file true Toy.fresh = None /\
  frequency_threshold (Toy.system "foo")
  < frequencies (Toy.system "foo") 0 0 /\
  calculate_gamma Toy.lib (Toy.system "foo") false Toy.fresh
  = (set_progress_file true (Some [])
       (after_reset (Toy.system "foo") false Toy.fresh),
     Raise UnboundLocalError).
Proof.
  assert (H1 : broadening_shape (Toy.system "foo") <> "gauss")
    by (apply String.eqb_neq; reflexivity).
  assert (H2 : broadening_shape (Toy.system "foo") <> "lorentz")
    by (apply String.eqb_neq; reflexivity).
  assert (H3 : broadening_shape (Toy.system "foo") <> "triangle")
    by (apply String.eqb_neq; reflexivity).
  assert (H4 : kpts (Toy.system "foo") <> (1, 1, 1)%nat)
    by (simpl; discriminate).
  assert (H5 : (0 < np_prod (kpts (Toy.system "foo")))%nat) by (simpl; lia).
  assert (H6 : (0 < n_particles (Toy.system "foo"))%nat) by (simpl; lia).
  assert (H7 : progress_file true Toy.fresh = None) by reflexivity.
  assert (H8 : frequency_threshold (Toy.system "foo")
               < frequencies (Toy.system "foo") 0 0) by reflexivity.
  do 8 (split; [assumption|]).
  exact (unknown_kernel_raises Toy.lib (Toy.system "foo") false Toy.fresh
           H1 H2 H3 H4 H5 H6 H7 H8).
Defined.

(** *** Runs that only replay *)

Lemma only_replayed_refl (s : state) : only_replayed s s.
Proof. split; [reflexivity|]. exists []. rewrite app_nil_r. auto. Qed.

Lemma only_replayed_trans (s1 s2 s3 : state) :
  only_replayed s1 s2 -> only_replayed s2 s3 -> only_replayed s1 s3.
Proof.
  intros [F1 (e1 & E1 & A1)] [F2 (e2 & E2 & A2)]. split.
  - intros b. rewrite F2, F1. reflexivity.
  - exists (e1 ++ e2). rewrite E2, E1, app_assoc. split; [reflexivity|].
    apply Forall_app. auto.
Qed.

#[export] Hint Resolve only_replayed_refl only_replayed_trans : rel.

Lemma only_replayed_event (e : event) (s s' : state) :
  (forall b, progress_file b s' = progress_file b s) ->
  trace s' = trace s ++ [e] -> is_fresh_event e = false ->
  only_replayed s s'.
Proof.
  intros Hf He Hfresh. split; [exact Hf|].
  exists [e]. split; [exact He|]. repeat constructor. exact Hfresh.
Qed.

Lemma replayed_only_replayed target is_plus nu value :
  keeps only_replayed (accumulate target Replayed is_plus nu value)
        (fun _ => True).
Proof.
  by_step (accumulate_step target Replayed is_plus nu value).
  intros [j ->].
  apply only_replayed_event
    with (e := EvAdd target Replayed is_plus j value);
    [intros []| |]; destruct target; reflexivity.
Qed.

Lemma tensor_update_only_replayed nu nup subtract value :
  keeps only_replayed (tensor_update nu nup subtract value) (fun _ => True).
Proof.
  by_step (tensor_update_step nu nup subtract value).
  intros (t & r & c & _ & ->).
  eapply only_replayed_event; [intros []| |]; reflexivity.
Qed.

Lemma scatter_only_replayed is_plus nu nup nupp value :
  keeps only_replayed (scatter_into_tensor is_plus nu nup nupp value)
        (fun _ => True).
Proof.
  unfold scatter_into_tensor.
  destruct is_plus; (k_bind; [apply tensor_update_only_replayed|]);
    intros; apply tensor_update_only_replayed.
Qed.

Lemma replay_only_replayed enabled is_plus bound :
  keeps only_replayed (replay enabled is_plus bound)
        (fun fr => broadening_function fr = bound).
Proof.
  apply (replay_keeps enabled only_replayed only_replayed_refl
           only_replayed_trans); intros.
  - apply replayed_only_replayed.
  - apply scatter_only_replayed.
Qed.

(** A line the replay accepts hands on its bra mode. *)
Lemma replay_line_returns enabled is_plus (l : line) (s s' : state) (r : Z) :
  replay_line enabled is_plus l s = (s', Ok r) -> r = py_int (hd 0 l).
Proof.
  unfold replay_line.
  destruct l as [|a [|b [|c [|v [|w [|x l]]]]]]; try discriminate.
  unfold bind.
  destruct (accumulate Gamma Replayed is_plus (py_int a) v s) as [s1 [[]|e]];
    [|discriminate].
  destruct (accumulate Ps Replayed is_plus (py_int a) w s1) as [s2 [[]|e]];
    [|discriminate].
  destruct ((if enabled
             then scatter_into_tensor is_plus (py_int a) (py_int b)
                    (py_int c) v
             else ret tt) s2) as [s3 [[]|e]]; [|discriminate].
  cbn. intros H. injection H as _ <-. reflexivity.
Qed.

Lemma replay_loop_returns enabled is_plus (log : list line) (r0 r : Z)
    (s s' : state) :
  for_in log (fun l _ => r <<- replay_line enabled is_plus l ;;
                         ret (Continue r)) r0 s
  = (s', Ok r) ->
  r = fold_left (fun _ l => py_int (hd 0 l)) log r0.
Proof.
  revert r0 s. induction log as [|l log IH]; intros r0 s; cbn [for_in fold_left].
  - intros H. injection H as _ <-. reflexivity.
  - unfold bind at 1. unfold bind at 1.
    destruct (replay_line enabled is_plus l s) as [s1 [r1|e]] eqn:Hl;
      [|discriminate].
    cbn [ret]. apply replay_line_returns in Hl as ->. apply IH.
Qed.

Lemma replay_returns enabled is_plus bound (log : list line) (s s' : state)
    (fr : frame) :
  progress_file is_plus s = Some log ->
  replay enabled is_plus bound s = (s', Ok fr) ->
  read_nu fr = last_nu log.
Proof.
  intros Hfile. unfold replay. unfold bind at 1, get at 1. rewrite Hfile.
  unfold bind.
  destruct (for_in log _ (-1)%Z s) as [s1 [r|e]] eqn:Hloop; [|discriminate].
  cbn [ret]. intros H. injection H as _ <-. cbn [read_nu].
  apply replay_loop_returns in Hloop. exact Hloop.
Qed.

(** A pass over a progress file that ends with the last mode only
    replays. *)
Lemma pass_complete lib ph enabled is_plus bound (log : list line)
    (s : state) :
  progress_file is_plus s = Some log ->
  (Z.of_nat (np_prod (kpts ph) * (n_particles ph * 3)) <= last_nu log + 1)%Z ->
  only_replayed s (pass lib ph enabled is_plus bound s).1.
Proof.
  intros Hfile Hlast. unfold pass, bind.
  destruct (replay_only_replayed enabled is_plus bound s) as [HR _].
  destruct (replay enabled is_plus bound s) as [s1 [fr|e]] eqn:Hreplay;
    [|exact HR].
  apply (replay_returns _ _ _ _ _ _ _ Hfile) in Hreplay.
  cbn [read_nu file broadening_function]. rewrite Hreplay.
  replace (last_nu log + 1 <?
           Z.of_nat (np_prod (kpts ph) * (n_particles ph * 3)))%Z
    with false by (symmetry; apply Z.ltb_ge; exact Hlast).
  exact HR.
Qed.

(** X17. A run on progress files that both end with a line of the last mode
    only replays them: it evaluates no triplet, adds nothing freshly
    computed and leaves both files exactly as they were. *)
Theorem complete_files_are_only_replayed (lib : numerics) (ph : phonons)
    (enabled : bool) (s : state) (plus minus : list line) :
  progress_file true s = Some plus ->
  progress_file false s = Some minus ->
  (Z.of_nat (np_prod (kpts ph) * (n_particles ph * 3)) <= last_nu plus + 1)%Z ->
  (Z.of_nat (np_prod (kpts ph) * (n_particles ph * 3)) <= last_nu minus + 1)%Z ->
  only_replayed s (calculate_gamma lib ph enabled s).1.
Proof.
  intros Hplus Hminus Hlp Hlm. rewrite calculate_gamma_eq.
  set (s0 := after_reset ph enabled s).
  assert (H0 : only_replayed s s0).
  { unfold s0, after_reset. destruct enabled.
    - eapply only_replayed_event; [intros []| |]; reflexivity.
    - split; [intros []; reflexivity|]. exists []. rewrite app_nil_r. auto. }
  assert (Hplus0 : progress_file true s0 = Some plus)
    by (rewrite (proj1 H0); exact Hplus).
  assert (Hminus0 : progress_file false s0 = Some minus)
    by (rewrite (proj1 H0); exact Hminus).
  pose proof (pass_complete lib ph enabled true None plus s0 Hplus0 Hlp) as H1.
  unfold bind at 1.
  destruct (pass lib ph enabled true None s0) as [s1 [bound|e]];
    cbn [fst] in *; [|eauto with rel].
  assert (Hminus1 : progress_file false s1 = Some minus)
    by (rewrite (proj1 H1); exact Hminus0).
  pose proof (pass_complete lib ph enabled false bound minus s1 Hminus1 Hlm)
    as H2.
  unfold bind.
  destruct (pass lib ph enabled false bound s1) as [s2 [bound'|e]];
    cbn [fst] in *; eauto with rel.
Qed.

Lemma complete_files_are_only_replayed_witness :
  progress_file true Toy.full.1 = Some (lines true Toy.full.1) /\
  progress_file false Toy.full.1 = Some (lines false Toy.full.1) /\
  (Z.of_nat (np_prod (kpts (Toy.system "gauss"))
             * (n_particles (Toy.system "gauss") * 3))
   <= last_nu (lines true Toy.full.1) + 1)%Z /\
  (Z.of_nat (np_prod (kpts (Toy.system "gauss"))
             * (n_particles (Toy.system "gauss") * 3))
   <= last_nu (lines false Toy.full.1) + 1)%Z /\
  only_replayed Toy.full.1
    (calculate_gamma Toy.lib (Toy.system "gauss") true Toy.full.1).1.
Proof.
  assert (Hplus : progress_file true Toy.full.1
                  = Some (lines true Toy.full.1))
    by (vm_compute; reflexivity).
  assert (Hminus : progress_file false Toy.full.1
                   = Some (lines false Toy.full.1))
    by (vm_compute; reflexivity).
  assert (Hlp : (Z.of_nat (np_prod (kpts (Toy.system "gauss"))
                           * (n_particles (Toy.system "gauss") * 3))
                 <= last_nu (lines true Toy.full.1) + 1)%Z)
    by (vm_compute; discriminate).
  assert (Hlm : (Z.of_nat (np_prod (kpts (Toy.system "gauss"))
                           * (n_particles (Toy.system "gauss") * 3))
                 <= last_nu (lines false Toy.full.1) + 1)%Z)
    by (vm_compute; discriminate).
  do 4 (split; [assumption|]).
  exact (complete_files_are_only_replayed Toy.lib (Toy.system "gauss") true
           Toy.full.1 _ _ Hplus Hminus Hlp Hlm).
Defined.

(** *** A progress file with a broken line *)

Lemma replay_line_malformed enabled is_plus (l : line) (s : state) :
  length l <> 5%nat ->
  replay_line enabled is_plus l s = (s, Raise ValueError).
Proof.
  intros Hlen. unfold replay_line.
  destruct l as [|a [|b [|c [|v [|w [|x l]]]]]]; try reflexivity.
  cbn in Hlen. lia.
Qed.

Lemma replay_loop_malformed enabled is_plus (good : list line) (bad : line)
    (rest : list line) (r0 : Z) (s : state) :
  length bad <> 5%nat ->
  exists e,
    (for_in (good ++ bad :: rest)
       (fun l _ => r <<- replay_line enabled is_plus l ;; ret (Continue r))
       r0 s).2
    = Raise e.
Proof.
  intros Hbad. revert r0 s.
  induction good as [|l good IH]; intros r0 s; cbn [app for_in].
  - exists ValueError. unfold bind.
    rewrite (replay_line_malformed enabled is_plus bad s Hbad). reflexivity.
  - unfold bind at 1. unfold bind at 1.
    destruct (replay_line enabled is_plus l s) as [s1 [r1|e]].
    + cbn [ret]. apply IH.
    + exists e. reflexivity.
Qed.

(** X18. A line of the plus progress file that does not hold five numbers, as a
    write cut short leaves it, makes the run fail: [calculate_gamma] raises
    during the replay, having evaluated nothing and written nothing. *)
Theorem malformed_line_raises (lib : numerics) (ph : phonons)
    (enabled : bool) (s : state) (good : list line) (bad : line)
    (rest : list line) :
  progress_file true s = Some (good ++ bad :: rest) ->
  length bad <> 5%nat ->
  (exists e, (calculate_gamma lib ph enabled s).2 = Raise e) /\
  only_replayed s (calculate_gamma lib ph enabled s).1.
Proof.
  intros Hfile Hbad. rewrite calculate_gamma_eq.
  set (s0 := after_reset ph enabled s).
  assert (H0 : only_replayed s s0).
  { unfold s0, after_reset. destruct enabled.
    - eapply only_replayed_event; [intros []| |]; reflexivity.
    - split; [intros []; reflexivity|]. exists []. rewrite app_nil_r. auto. }
  assert (Hfile0 : progress_file true s0 = Some (good ++ bad :: rest))
    by (rewrite (proj1 H0); exact Hfile).
  destruct (replay_only_replayed enabled true None s0) as [HR _].
  assert (Hraise : exists e,
             (replay enabled true None s0).2 = Raise e).
  { unfold replay. unfold bind at 1, get at 1. rewrite Hfile0.
    destruct (replay_loop_malformed enabled true good bad rest (-1)%Z s0 Hbad)
      as [e He].
    exists e. unfold bind.
    destruct (for_in (good ++ bad :: rest) _ (-1)%Z s0) as [s1 [r|e']];
      [discriminate|].
    cbn in He |- *. injection He as ->. reflexivity. }
  destruct Hraise as [e He].
  destruct (replay enabled true None s0) as [s1 r] eqn:Hreplay.
  cbn [snd] in He. subst r. cbn [fst] in HR.
  assert (Hpass : pass lib ph enabled true None s0 = (s1, Raise e))
    by (unfold pass; apply bind_raise, Hreplay).
  rewrite (bind_raise _ _ _ _ _ Hpass). cbn [fst snd].
  split; [exists e; reflexivity | eauto with rel].
Qed.

Lemma malformed_line_raises_witness :
  progress_file true
    (State [] [] None (Some ([[0; 1; 2; 3; 4]] ++ [0; 1; 2] :: [])) None [])
  = Some ([[0; 1; 2; 3; 4]] ++ [0; 1; 2] :: []) /\
  length [0; 1; 2] <> 5%nat /\
  exists e,
    (calculate_gamma Toy.lib (Toy.system "triangle") false
       (State [] [] None (Some ([[0; 1; 2; 3; 4]] ++ [0; 1; 2] :: [])) None
              [])).2
    = Raise e.
Proof.
  assert (Hfile : progress_file true
                    (State [] [] None
                           (Some ([[0; 1; 2; 3; 4]] ++ [0; 1; 2] :: []))
                           None [])
                  = Some ([[0; 1; 2; 3; 4]] ++ [0; 1; 2] :: []))
    by reflexivity.
  assert (Hbad : length [0; 1; 2] <> 5%nat) by (simpl; lia).
  split; [exact Hfile|]. split; [exact Hbad|].
  exact (proj1 (malformed_line_raises Toy.lib (Toy.system "triangle") false
                  _ _ _ _ Hfile Hbad)).
Defined.

(** *** The shapes of the arrays *)

Lemma same_shape_refl (s : state) : same_shape s s.
Proof. repeat split. Qed.

Lemma same_shape_trans (s1 s2 s3 : state) :
  same_shape s1 s2 -> same_shape s2 s3 -> same_shape s1 s3.
Proof.
  intros (G1 & P1 & T1) (G2 & P2 & T2).
  split; [congruence|]. split; congruence.
Qed.

#[export] Hint Resolve same_shape_refl same_shape_trans : rel.

Lemma accumulate_same_shape target from is_plus nu value :
  keeps same_shape (accumulate target from is_plus nu value) (fun _ => True).
Proof.
  by_step (accumulate_step target from is_plus nu value).
  intros [j ->].
  destruct target; (split; [|split]); cbn; rewrite ?length_alter; reflexivity.
Qed.

Lemma alter_alter_shape (f : Q -> Q) (row col : nat) (t : list (list Q)) :
  map length (alter (alter f col) row t) = map length t.
Proof.
  revert row. induction t as [|r t IH]; intros [|row]; cbn; try reflexivity.
  - rewrite length_alter. reflexivity.
  - f_equal. apply IH.
Qed.

Lemma tensor_update_same_shape nu nup subtract value :
  keeps same_shape (tensor_update nu nup subtract value) (fun _ => True).
Proof.
  by_step (tensor_update_step nu nup subtract value).
  intros (t & r & c & Ht & ->).
  split; [reflexivity|]. split; [reflexivity|]. cbn. rewrite Ht. cbn.
  f_equal. apply alter_alter_shape.
Qed.

Lemma scatter_same_shape is_plus nu nup nupp value :
  keeps same_shape (scatter_into_tensor is_plus nu nup nupp value)
        (fun _ => True).
Proof.
  unfold scatter_into_tensor.
  destruct is_plus; (k_bind; [apply tensor_update_same_shape|]);
    intros; apply tensor_update_same_shape.
Qed.

(** X19. Whatever the run does and however it ends, it leaves rate and
    phase-space arrays with one entry per mode and, when the full tensor is
    requested, a square tensor of that size. *)
Theorem accumulators_keep_their_shape (lib : numerics) (ph : phonons)
    (enabled : bool) (s : state) :
  let s' := (calculate_gamma lib ph enabled s).1 in
  length (_gamma s') = n_phonons ph /\
  length (_ps s') = n_phonons ph /\
  (enabled = true ->
   exists t, _gamma_tensor s' = Some t /\
             map length t = replicate (n_phonons ph) (n_phonons ph)).
Proof.
  intros s'. unfold s'. rewrite calculate_gamma_eq.
  assert (Hpasses : keeps same_shape
                      (bound <<- pass lib ph enabled true None ;;
                       _ <<- pass lib ph enabled false bound ;;
                       ret tt)
                      (fun _ => True)).
  { apply (passes_keep lib ph enabled same_shape same_shape_refl
             same_shape_trans); intros.
    - apply accumulate_same_shape.
    - apply accumulate_same_shape.
    - apply scatter_same_shape.
    - intros s0. split; [destruct is_plus; repeat split | auto].
    - intros s0. split; [destruct is_plus; repeat split | auto].
    - intros s0. split; [repeat split | auto]. }
  destruct (Hpasses (after_reset ph enabled s)) as [(Hg & Hp & Ht) _].
  rewrite Hg, Hp. unfold after_reset at 1 2.
  split; [destruct enabled; apply length_replicate|].
  split; [destruct enabled; apply length_replicate|].
  intros ->. unfold after_reset in Ht. cbn in Ht.
  destruct (_gamma_tensor _) as [t|]; [|discriminate].
  exists t. split; [reflexivity|]. cbn in Ht. injection Ht as ->.
  rewrite fmap_replicate, length_replicate. reflexivity.
Qed.

(** ** The conjugate wavevectors *)

Lemma mod_shift_inj (k s a b n : Z) :
  (s = 1 \/ s = -1)%Z -> (0 <= a < n)%Z -> (0 <= b < n)%Z ->
  ((k + s * a) mod n = (k + s * b) mod n)%Z -> a = b.
Proof.
  intros Hs Ha Hb H.
  assert (Hn : (0 < n)%Z) by lia.
  assert (Hd : ((k + s * a - (k + s * b)) mod n = 0)%Z).
  { rewrite Zminus_mod, H, Z.sub_diag. apply Z.mod_0_l. lia. }
  apply Z.mod_divide in Hd; [|lia]. destruct Hd as [q Hq].
  assert (Hq' : (s * (a - b) = q * n)%Z) by lia.
  assert (q = 0)%Z by (destruct Hs; subst s; nia).
  subst q. destruct Hs; subst s; lia.
Qed.

Lemma unravel_index_bounds (p : nat) (nx ny nz : nat) :
  (p < nx * ny * nz)%nat ->
  let '(a, b, c) := unravel_index p (nx, ny, nz) in
  (0 <= a < Z.of_nat nx)%Z /\ (0 <= b < Z.of_nat ny)%Z /\
  (0 <= c < Z.of_nat nz)%Z.
Proof.
  intros Hp. unfold unravel_index.
  assert (0 < nx /\ 0 < ny /\ 0 < nz)%nat as (Hx & Hy & Hz) by nia.
  split; [|split; apply Z.mod_pos_bound; lia].
  split; [apply Z.div_pos; lia|].
  apply Z.div_lt_upper_bound; [lia|]. nia.
Qed.

Lemma unravel_index_inj (p q : nat) (nx ny nz : nat) :
  (0 < ny)%nat -> (0 < nz)%nat ->
  unravel_index p (nx, ny, nz) = unravel_index q (nx, ny, nz) -> p = q.
Proof.
  intros Hy Hz H. unfold unravel_index in H. injection H as H1 H2 H3.
  apply Nat2Z.inj.
  set (i := Z.of_nat p) in *. set (j := Z.of_nat q) in *.
  set (Y := Z.of_nat ny) in *. set (Z' := Z.of_nat nz) in *.
  assert (HY : (0 < Y)%Z) by (unfold Y; lia).
  assert (HZ : (0 < Z')%Z) by (unfold Z'; lia).
  rewrite (Z.div_mod i Z'), (Z.div_mod j Z') by lia. rewrite H3. f_equal.
  f_equal.
  rewrite (Z.div_mod (i / Z') Y), (Z.div_mod (j / Z') Y) by lia.
  rewrite H2. f_equal. f_equal.
  rewrite !Z.div_div by lia. rewrite (Z.mul_comm Z' Y). exact H1.
Qed.

Lemma conjugate_index_inj (is_plus : bool) (k_size : mesh)
    (index_k p q : nat) :
  (p < np_prod k_size)%nat -> (q < np_prod k_size)%nat ->
  conjugate_index is_plus k_size index_k p
  = conjugate_index is_plus k_size index_k q ->
  p = q.
Proof.
  intros Hp Hq H.
  assert (Hpos : (0 < np_prod k_size)%nat) by lia.
  pose proof (proj2 (conjugate_index_spec is_plus k_size index_k p Hpos)) as Sp.
  pose proof (proj2 (conjugate_index_spec is_plus k_size index_k q Hpos)) as Sq.
  rewrite H, Sq in Sp. clear H Sq.
  destruct k_size as [[nx ny] nz]. cbn [np_prod] in *.
  pose proof (unravel_index_bounds p nx ny nz Hp) as Bp.
  pose proof (unravel_index_bounds q nx ny nz Hq) as Bq.
  assert (0 < nx /\ 0 < ny /\ 0 < nz)%nat as (Hx & Hy & Hz) by nia.
  apply (unravel_index_inj p q nx ny nz Hy Hz).
  destruct (unravel_index p (nx, ny, nz)) as [[pa pb] pc].
  destruct (unravel_index q (nx, ny, nz)) as [[qa qb] qc].
  destruct (unravel_index index_k (nx, ny, nz)) as [[ka kb] kc].
  unfold wrap_sum in Sp. injection Sp as S1 S2 S3.
  assert (Hs : ((if is_plus then 1 else -1) = 1
                \/ (if is_plus then 1 else -1) = -1)%Z)
    by (destruct is_plus; auto).
  destruct Bp as (? & ? & ?), Bq as (? & ? & ?).
  f_equal; [f_equal|]; symmetry; eapply mod_shift_inj; eauto.
Qed.

(** X20. Lines 321-325: for every bra wavevector the conjugate wavevectors of
    the mesh points are the mesh points again, each one once. *)
Theorem conjugates_permute_the_mesh (is_plus : bool) (k_size : mesh)
    (index_k : nat) :
  index_kpp_of is_plus k_size index_k ≡ₚ seq 0 (np_prod k_size).
Proof.
  unfold index_kpp_of.
  apply submseteq_length_Permutation.
  - apply NoDup_submseteq.
    + apply NoDup_fmap_2_strong; [|apply NoDup_seq].
      intros p q Hp Hq. apply elem_of_seq in Hp, Hq.
      apply conjugate_index_inj; lia.
    + intros x Hx. apply list_elem_of_fmap in Hx as (p & -> & Hp).
      apply elem_of_seq in Hp. apply elem_of_seq.
      split; [lia|]. apply conjugate_index_spec. lia.
  - rewrite length_map. reflexivity.
Qed.

(** ** [calculate_gamma]: which modes are evaluated *)

Lemma evaluates_physical_refl ph (s : state) : evaluates_physical ph s s.
Proof. exists []. rewrite app_nil_r. auto. Qed.

Lemma evaluates_physical_trans ph (s1 s2 s3 : state) :
  evaluates_physical ph s1 s2 -> evaluates_physical ph s2 s3 ->
  evaluates_physical ph s1 s3.
Proof.
  intros (e1 & E1 & A1) (e2 & E2 & A2).
  exists (e1 ++ e2). rewrite E2, E1, app_assoc. split; [reflexivity|].
  apply Forall_app. auto.
Qed.

#[export] Hint Resolve evaluates_physical_refl evaluates_physical_trans : rel.

Lemma evaluates_physical_other ph (e : event) (s s' : state) :
  trace s' = trace s ++ [e] ->
  match e with EvEvaluated _ _ => False | _ => True end ->
  evaluates_physical ph s s'.
Proof.
  intros He Hother. exists [e]. split; [exact He|].
  constructor; [|constructor]. destruct e; auto. contradiction.
Qed.

Lemma accumulate_evaluates_physical ph target from is_plus nu value :
  keeps (evaluates_physical ph) (accumulate target from is_plus nu value)
        (fun _ => True).
Proof.
  by_step (accumulate_step target from is_plus nu value).
  intros [j ->].
  eapply evaluates_physical_other; [destruct target; reflexivity | exact I].
Qed.

Lemma tensor_update_evaluates_physical ph nu nup subtract value :
  keeps (evaluates_physical ph) (tensor_update nu nup subtract value)
        (fun _ => True).
Proof.
  by_step (tensor_update_step nu nup subtract value).
  intros (t & r & c & _ & ->).
  eapply evaluates_physical_other; [reflexivity | exact I].
Qed.

Lemma scatter_evaluates_physical ph is_plus nu nup nupp value :
  keeps (evaluates_physical ph) (scatter_into_tensor is_plus nu nup nupp value)
        (fun _ => True).
Proof.
  unfold scatter_into_tensor.
  destruct is_plus; (k_bind; [apply tensor_update_evaluates_physical|]);
    intros; apply tensor_update_evaluates_physical.
Qed.

(** X21. Lines 355-361: every bra mode a run evaluates, in either pass, is a
    mode of the mesh whose frequency is strictly above the threshold; the
    modes at or below it are skipped. *)
Theorem only_physical_modes_are_evaluated (lib : numerics) (ph : phonons)
    (enabled : bool) (s : state) :
  evaluates_physical ph s (calculate_gamma lib ph enabled s).1.
Proof.
  rewrite calculate_gamma_eq.
  apply (evaluates_physical_trans ph _ (after_reset ph enabled s)).
  { unfold after_reset. destruct enabled.
    - eapply evaluates_physical_other; [reflexivity | exact I].
    - exists []. rewrite app_nil_r. auto. }
  assert (Hpasses : keeps (evaluates_physical ph)
                      (bound <<- pass lib ph enabled true None ;;
                       _ <<- pass lib ph enabled false bound ;;
                       ret tt)
                      (fun _ => True)).
  { apply (passes_keep lib ph enabled (evaluates_physical ph)
             (evaluates_physical_refl ph) (evaluates_physical_trans ph));
      intros.
    - apply accumulate_evaluates_physical.
    - apply accumulate_evaluates_physical.
    - apply scatter_evaluates_physical.
    - intros s0. split; [|auto]. exists []. rewrite app_nil_r.
      split; [destruct is_plus; reflexivity | constructor].
    - intros s0. split; [|auto]. exists []. rewrite app_nil_r.
      split; [destruct is_plus; reflexivity | constructor].
    - intros s0. split; [|auto].
      exists [EvEvaluated is_plus (index_k * (n_particles ph * 3) + mu)].
      split; [reflexivity|]. constructor; [|constructor].
      assert (Hn : (n_particles ph * 3 <> 0)%nat) by lia.
      rewrite Nat.div_add_l, Nat.div_small, Nat.add_0_r by lia.
      rewrite Nat.add_comm, Nat.Div0.mod_add, Nat.mod_small by lia.
      split; [nia | assumption]. }
  apply Hpasses.
Qed.

(** ** [calculate_gamma]: the totals of a replay *)

Lemma accumulate_gamma_ok from is_plus nu value (s s' : state) :
  accumulate Gamma from is_plus nu value s = (s', Ok tt) ->
  (exists j, Np.index (length (_gamma s)) nu = Ok j /\
             _gamma s' = alter (fun x => x + value) j (_gamma s)) /\
  _ps s' = _ps s.
Proof.
  unfold accumulate, bind, get, lift, modify, update_at, rbind.
  cbn [accumulator_of].
  destruct (Np.index (length (_gamma s)) nu) as [j|e]; cbn; [|discriminate].
  intros H. injection H as <-. cbn. split; [exists j; auto | reflexivity].
Qed.

Lemma accumulate_ps_ok from is_plus nu value (s s' : state) :
  accumulate Ps from is_plus nu value s = (s', Ok tt) ->
  (exists j, Np.index (length (_ps s)) nu = Ok j /\
             _ps s' = alter (fun x => x + value) j (_ps s)) /\
  _gamma s' = _gamma s.
Proof.
  unfold accumulate, bind, get, lift, modify, update_at, rbind.
  cbn [accumulator_of].
  destruct (Np.index (length (_ps s)) nu) as [j|e]; cbn; [|discriminate].
  intros H. injection H as <-. cbn. split; [exists j; auto | reflexivity].
Qed.

Lemma totals_kept_refl (s : state) : totals_kept s s.
Proof. split; reflexivity. Qed.

Lemma totals_kept_trans (s1 s2 s3 : state) :
  totals_kept s1 s2 -> totals_kept s2 s3 -> totals_kept s1 s3.
Proof. intros [G1 P1] [G2 P2]. split; congruence. Qed.

#[export] Hint Resolve totals_kept_refl totals_kept_trans : rel.

Lemma tensor_update_totals_kept nu nup subtract value :
  keeps totals_kept (tensor_update nu nup subtract value) (fun _ => True).
Proof.
  by_step (tensor_update_step nu nup subtract value).
  intros (t & r & c & _ & ->). split; reflexivity.
Qed.

Lemma maybe_scatter_totals_kept (enabled is_plus : bool) nu nup nupp value :
  keeps totals_kept
    (if enabled then scatter_into_tensor is_plus nu nup nupp value
     else ret tt)
    (fun _ => True).
Proof.
  destruct enabled; [|k_skip]. unfold scatter_into_tensor.
  destruct is_plus; (k_bind; [apply tensor_update_totals_kept|]);
    intros; apply tensor_update_totals_kept.
Qed.

Lemma replay_line_totals enabled is_plus (l : line) (s s' : state) (r : Z) :
  replay_line enabled is_plus l s = (s', Ok r) ->
  _gamma s' = add_line 3 (_gamma s) l /\ _ps s' = add_line 4 (_ps s) l.
Proof.
  unfold replay_line.
  destruct l as [|a [|b [|c [|v [|w [|x l]]]]]]; try discriminate.
  unfold bind.
  destruct (accumulate Gamma Replayed is_plus (py_int a) v s)
    as [s1 [[]|e]] eqn:Hg; [|discriminate].
  destruct (accumulate Ps Replayed is_plus (py_int a) w s1)
    as [s2 [[]|e]] eqn:Hp; [|discriminate].
  destruct (maybe_scatter_totals_kept enabled is_plus (py_int a) (py_int b)
              (py_int c) v s2) as [[Hg3 Hp3] _].
  destruct ((if enabled
             then scatter_into_tensor is_plus (py_int a) (py_int b)
                    (py_int c) v
             else ret tt) s2) as [s3 [[]|e]]; [|discriminate].
  cbn [fst] in Hg3, Hp3. cbn. intros H. injection H as <- _.
  apply accumulate_gamma_ok in Hg as ((j & Hj & Hg) & Hps1).
  apply accumulate_ps_ok in Hp as ((k & Hk & Hp) & Hg2).
  unfold add_line. cbn [hd nth]. rewrite Hj, <- Hps1, Hk.
  split; congruence.
Qed.

Lemma replay_loop_totals enabled is_plus (log : list line) (r0 r : Z)
    (s s' : state) :
  for_in log (fun l _ => r <<- replay_line enabled is_plus l ;;
                         ret (Continue r)) r0 s
  = (s', Ok r) ->
  _gamma s' = fold_left (add_line 3) log (_gamma s) /\
  _ps s' = fold_left (add_line 4) log (_ps s).
Proof.
  revert r0 s. induction log as [|l log IH]; intros r0 s; cbn [for_in fold_left].
  - intros H. injection H as <- _. auto.
  - unfold bind at 1. unfold bind at 1.
    destruct (replay_line enabled is_plus l s) as [s1 [r1|e]] eqn:Hl;
      [|discriminate].
    cbn [ret]. apply replay_line_totals in Hl as [<- <-]. apply IH.
Qed.

(** A pass over a complete progress file that returns leaves the
    accumulators it found plus the lines of the file, and the files as they
    were. *)
Lemma pass_complete_totals lib ph enabled is_plus bound (log : list line)
    (s s' : state) (bound' : option kernel) :
  progress_file is_plus s = Some log ->
  (Z.of_nat (np_prod (kpts ph) * (n_particles ph * 3)) <= last_nu log + 1)%Z ->
  pass lib ph enabled is_plus bound s = (s', Ok bound') ->
  _gamma s' = fold_left (add_line 3) log (_gamma s) /\
  _ps s' = fold_left (add_line 4) log (_ps s) /\
  forall b, progress_file b s' = progress_file b s.
Proof.
  intros Hfile Hlast Hpass.
  pose proof (pass_complete lib ph enabled is_plus bound log s Hfile Hlast)
    as [Hfiles _].
  rewrite Hpass in Hfiles. cbn [fst] in Hfiles.
  split; [|split; [|exact Hfiles]]; revert Hpass; unfold pass, bind;
    (destruct (replay enabled is_plus bound s) as [s1 [fr|e]] eqn:Hreplay;
       [|discriminate]);
    pose proof (replay_returns _ _ _ _ _ _ _ Hfile Hreplay) as Hnu;
    cbn [read_nu file broadening_function]; rewrite Hnu;
    (replace (last_nu log + 1 <?
              Z.of_nat (np_prod (kpts ph) * (n_particles ph * 3)))%Z
       with false by (symmetry; apply Z.ltb_ge; exact Hlast));
    cbn [ret]; intros H; injection H as <- _;
    revert Hreplay; unfold replay; unfold bind at 1, get at 1;
    rewrite Hfile; unfold bind;
    (destruct (for_in log _ (-1)%Z s) as [s2 [r|e]] eqn:Hloop;
       [|discriminate]);
    cbn [ret]; intros H; injection H as <- _;
    apply replay_loop_totals in Hloop; tauto.
Qed.

(** X22. When both progress files are complete and the run returns, the rate and
    the phase space it leaves are zero plus the fourth and the fifth
    number of every line, added at the bra mode of the line, plus file
    first: the totals are rebuilt from the files alone. *)
Theorem complete_files_give_the_totals (lib : numerics) (ph : phonons)
    (enabled : bool) (s s' : state) (plus minus : list line) :
  progress_file true s = Some plus ->
  progress_file false s = Some minus ->
  (Z.of_nat (np_prod (kpts ph) * (n_particles ph * 3)) <= last_nu plus + 1)%Z ->
  (Z.of_nat (np_prod (kpts ph) * (n_particles ph * 3)) <= last_nu minus + 1)%Z ->
  calculate_gamma lib ph enabled s = (s', Ok tt) ->
  _gamma s'
  = fold_left (add_line 3) (plus ++ minus) (replicate (n_phonons ph) 0) /\
  _ps s'
  = fold_left (add_line 4) (plus ++ minus) (replicate (n_phonons ph) 0).
Proof.
  intros Hplus Hminus Hlp Hlm. rewrite calculate_gamma_eq.
  set (s0 := after_reset ph enabled s).
  assert (Hplus0 : progress_file true s0 = Some plus)
    by (unfold s0; rewrite after_reset_files; exact Hplus).
  assert (Hminus0 : progress_file false s0 = Some minus)
    by (unfold s0; rewrite after_reset_files; exact Hminus).
  assert (Hg0 : _gamma s0 = replicate (n_phonons ph) 0)
    by (unfold s0, after_reset; destruct enabled; reflexivity).
  assert (Hp0 : _ps s0 = replicate (n_phonons ph) 0)
    by (unfold s0, after_reset; destruct enabled; reflexivity).
  unfold bind at 1.
  destruct (pass lib ph enabled true None s0) as [s1 [bound|e]] eqn:Hpass1;
    [|discriminate].
  apply pass_complete_totals with (log := plus) in Hpass1
    as (Hg1 & Hp1 & Hfiles1); [|exact Hplus0|exact Hlp].
  unfold bind.
  destruct (pass lib ph enabled false bound s1) as [s2 [bound'|e]] eqn:Hpass2;
    [|discriminate].
  apply pass_complete_totals with (log := minus) in Hpass2
    as (Hg2 & Hp2 & _); [|rewrite Hfiles1; exact Hminus0|exact Hlm].
  cbn [ret]. intros H. injection H as <-.
  rewrite !fold_left_app. split.
  - rewrite <- Hg0, <- Hg1. exact Hg2.
  - rewrite <- Hp0, <- Hp1. exact Hp2.
Qed.

Lemma complete_files_give_the_totals_witness :
  progress_file true Toy.full.1 = Some (lines true Toy.full.1) /\
  progress_file false Toy.full.1 = Some (lines false Toy.full.1) /\
  (Z.of_nat (np_prod (kpts (Toy.system "gauss"))
             * (n_particles (Toy.system "gauss") * 3))
   <= last_nu (lines true Toy.full.1) + 1)%Z /\
  (Z.of_nat (np_prod (kpts (Toy.system "gauss"))
             * (n_particles (Toy.system "gauss") * 3))
   <= last_nu (lines false Toy.full.1) + 1)%Z /\
  (calculate_gamma Toy.lib (Toy.system "gauss") false Toy.full.1).2
  = Ok tt /\
  _gamma (calculate_gamma Toy.lib (Toy.system "gauss") false Toy.full.1).1
  = fold_left (add_line 3) (lines true Toy.full.1 ++ lines false Toy.full.1)
              (replicate (n_phonons (Toy.system "gauss")) 0).
Proof.
  assert (Hplus : progress_file true Toy.full.1
                  = Some (lines true Toy.full.1))
    by (vm_compute; reflexivity).
  assert (Hminus : progress_file false Toy.full.1
                   = Some (lines false Toy.full.1))
    by (vm_compute; reflexivity).
  assert (Hlp : (Z.of_nat (np_prod (kpts (Toy.system "gauss"))
                           * (n_particles (Toy.system "gauss") * 3))
                 <= last_nu (lines true Toy.full.1) + 1)%Z)
    by (vm_compute; discriminate).
  assert (Hlm : (Z.of_nat (np_prod (kpts (Toy.system "gauss"))
                           * (n_particles (Toy.system "gauss") * 3))
                 <= last_nu (lines false Toy.full.1) + 1)%Z)
    by (vm_compute; discriminate).
  assert (Hrun : (calculate_gamma Toy.lib (Toy.system "gauss") false
                    Toy.full.1).2 = Ok tt) by (vm_compute; reflexivity).
  do 4 (split; [assumption|]). split; [exact Hrun|].
  pose proof (complete_files_give_the_totals Toy.lib (Toy.system "gauss")
                false Toy.full.1) as H.
  destruct (calculate_gamma Toy.lib (Toy.system "gauss") false Toy.full.1)
    as [s' r] eqn:E.
  cbn [fst snd] in Hrun |- *. subst r.
  exact (proj1 (H s' _ _ Hplus Hminus Hlp Hlm eq_refl)).
Defined.

(** * Where the code leaves the specification *)

(** ** The triangular kernel with one width per difference *)

Lemma inside_or_outside (delta_energy widths : list Q) :
  length widths = length delta_energy ->
  Forall2 (fun d w => Qabs d < Qabs w) delta_energy widths \/
  exists i d w,
    delta_energy !! i = Some d /\ widths !! i = Some w /\ Qabs w <= Qabs d.
Proof.
  revert widths. induction delta_energy as [|d ds IH]; intros [|w ws] Hlen;
    try discriminate.
  - left. constructor.
  - injection Hlen as Hlen.
    destruct (Qlt_le_dec (Qabs d) (Qabs w)) as [Hin | Hout].
    + destruct (IH ws Hlen) as [Hall | (i & d' & w' & Hd & Hw & Hge)].
      * left. constructor; assumption.
      * right. exists (S i), d', w'. auto.
    + right. exists 0%nat, d, w. auto.
Qed.

(** C7. With a scalar width [triangular_delta] is the ramp of the
    specification, taken at [|width|]: 0 wherever
    [|width| <= |delta_energy|] and [1/|width| * (1 - |delta_energy|/|width|)]
    wherever [|delta_energy| < |width|]. With one width per difference, as
    the adaptive broadening passes them (lines 111-114), it returns only
    when every difference lies strictly inside the support of its width:
    as soon as one of two or more differences lies outside, where the
    specification asks for the value 0, line 49 raises [ValueError]. *)
Theorem triangular_delta_finite_support (delta_energy : list Q) :
  (forall width : Q, exists out,
      triangular_delta delta_energy (Np.Scalar width) = Ok out /\
      length out = length delta_energy /\
      forall i d, delta_energy !! i = Some d ->
        (Qabs width <= Qabs d -> out !! i = Some 0) /\
        (Qabs d < Qabs width -> out !! i = Some (ramp width d))) /\
  (forall widths : list Q,
      length widths = length delta_energy ->
      (2 <= length delta_energy)%nat ->
      ((exists out,
           triangular_delta delta_energy (Np.Array widths) = Ok out)
       <-> Forall2 (fun d w => Qabs d < Qabs w) delta_energy widths) /\
      ((exists i d w,
           delta_energy !! i = Some d /\ widths !! i = Some w /\
           Qabs w <= Qabs d) ->
       triangular_delta delta_energy (Np.Array widths) = Raise ValueError)).
Proof.
  split; [intros width; apply triangular_delta_scalar_support|].
  intros widths Hlen Hn. split; [|apply triangular_delta_array_outside; assumption].
  split.
  - intros [out Hout].
    destruct (inside_or_outside delta_energy widths Hlen) as [Hall | Hex];
      [exact Hall|].
    rewrite (triangular_delta_array_outside _ _ Hlen Hn Hex) in Hout.
    discriminate.
  - intros Hall. eexists. apply triangular_delta_array_inside; assumption.
Qed.

Lemma triangular_delta_finite_support_witness :
  (exists out,
      triangular_delta [0; 1; 3] (Np.Scalar 2) = Ok out /\
      out !! 0%nat = Some (ramp 2 0) /\
      out !! 1%nat = Some (ramp 2 1) /\
      out !! 2%nat = Some 0) /\
  triangular_delta [0; 1; 3] (Np.Array [2; 2; 2]) = Raise ValueError.
Proof.
  destruct (triangular_delta_finite_support [0; 1; 3]) as [Hscalar Harray].
  split.
  - destruct (Hscalar 2) as (out & Hout & _ & Hval). exists out.
    split; [exact Hout|].
    split; [apply (proj2 (Hval 0%nat 0 eq_refl)); q_decide|].
    split; [apply (proj2 (Hval 1%nat 1 eq_refl)); q_decide|].
    apply (proj1 (Hval 2%nat 3 eq_refl)). q_decide.
  - apply (proj2 (Harray [2; 2; 2] eq_refl ltac:(simpl; lia))).
    exists 2%nat, 3, 2. split; [reflexivity|]. split; [reflexivity|].
    q_decide.
Defined.

(** ** The energy window with the triangular kernel *)

Lemma two_rows (rows : list (nat * nat * nat)) (r1 r2 : nat * nat * nat) :
  r1 ∈ rows -> r2 ∈ rows -> r1 <> r2 -> (2 <= length rows)%nat.
Proof.
  intros H1 H2 Hne.
  destruct rows as [|a [|b rows]]; cbn [length]; [| |lia].
  - apply elem_of_nil in H1. contradiction.
  - apply list_elem_of_singleton in H1, H2. congruence.
Qed.

(** C3. Whenever [calculate_single_gamma] returns, the triplets it
    returns for the bra mode [(index_k, mu)] are the triplets
    [(p, mup, pp, mupp)] of the mesh, [pp] the wrapped conjugate of [p],
    with [|omega(k,mu) + s*omega(p,mup) - omega(pp,mupp)|] below
    [2 * DELTA_THRESHOLD * pi * width] and both partner frequencies above
    the threshold. With the triangular kernel and the width of the
    adaptive estimator the call does not always return: when two triplets
    pass both tests and the mismatch of one of them is not inside the
    support [|2 * pi * width|] of the kernel, which is half the window,
    the kernel raises [ValueError] (line 49, called at lines 112-114) and
    no triplet reaches the matrix elements of lines 116-125. *)
Theorem energy_window_selects_triplets
    (pi : Q) (np_sqrt : Q -> Q) (units_hbar units_mol units_J : Q)
    (is_plus : bool) (index_k mu : nat) (k_size : mesh)
    (frequencies density : nat -> nat -> Q)
    (first_evect second_evect : nat -> nat -> nat -> complex)
    (first_chi second_chi : nat -> nat -> complex)
    (scaled_potential : nat -> nat -> nat -> nat -> complex)
    (frequencies_threshold : Q) (omegas : nat -> nat -> Q)
    (sigma_small : width) (n_modes n_replicas : nat) :
  let nptk := np_prod k_size in
  let pp p := conjugate_index is_plus k_size index_k p in
  let mismatch p mup mupp :=
    Qabs (omegas index_k mu
          + inject_Z (if is_plus then 1 else -1) * omegas p mup
          - omegas (pp p) mupp) in
  let passes p mup mupp :=
    (p < nptk)%nat /\ (mup < n_modes)%nat /\ (mupp < n_modes)%nat /\
    mismatch p mup mupp
    < 2 * DELTA_THRESHOLD * pi * width_at sigma_small p mup mupp /\
    frequencies_threshold < frequencies p mup /\
    frequencies_threshold < frequencies (pp p) mupp in
  let run broadening_function :=
    calculate_single_gamma pi np_sqrt units_hbar units_mol units_J is_plus
      index_k mu (seq 0 nptk) frequencies density nptk first_evect
      second_evect first_chi second_chi scaled_potential
      frequencies_threshold omegas (index_kpp_of is_plus k_size index_k)
      sigma_small broadening_function n_modes n_replicas in
  (forall broadening_function returned p mup mupp,
      run broadening_function = Ok returned ->
      (exists g i,
          returned = Some g /\
          index_kp_vec g !! i = Some p /\ mup_vec g !! i = Some mup /\
          index_kpp_vec g !! i = Some (pp p) /\ mupp_vec g !! i = Some mupp)
      <-> passes p mup mupp) /\
  (forall adaptive p mup mupp p' mup' mupp',
      sigma_small = WidthTensor adaptive ->
      passes p mup mupp -> passes p' mup' mupp' ->
      (p, mup, mupp) <> (p', mup', mupp') ->
      Qabs (2 * pi * adaptive p mup mupp) <= mismatch p mup mupp ->
      run triangular_delta = Raise ValueError).
Proof.
  intros nptk pp mismatch passes run.
  assert (Hsel : forall p mup mupp,
             (p, mup, mupp) ∈
             interactions pi is_plus index_k mu (seq 0 nptk) frequencies nptk
               frequencies_threshold omegas
               (index_kpp_of is_plus k_size index_k) sigma_small n_modes
             <-> passes p mup mupp).
  { intros p mup mupp. rewrite elem_of_interactions.
    unfold passes, mismatch, pp, omegas_difference.
    assert (Hsign : second_sign is_plus = if is_plus then 1%Z else (-1)%Z)
      by (destruct is_plus; reflexivity).
    rewrite Hsign.
    assert (Hbound :
              DELTA_THRESHOLD * 2 * pi * width_at sigma_small p mup mupp
              == 2 * DELTA_THRESHOLD * pi * width_at sigma_small p mup mupp)
      by ring.
    rewrite Hbound.
    split; intros (Hp & H); (split; [exact Hp|]);
      [rewrite seq_nth, index_kpp_of_nth in H by exact Hp
      |rewrite seq_nth, index_kpp_of_nth by exact Hp];
      exact H. }
  split.
  - intros kern returned p mup mupp Hrun. split.
    + intros (g & i & -> & Hkp & Hm & Hkpp & Hm').
      apply Hsel. apply list_elem_of_lookup. exists i.
      eapply gamma_out_rows; [exact Hrun | auto].
    + intros Hpass.
      assert (Hp : (p < nptk)%nat) by apply Hpass.
      pose proof (returned_triplets_are_selected pi np_sqrt units_hbar
                    units_mol units_J is_plus index_k mu k_size frequencies
                    density first_evect second_evect first_chi second_chi
                    scaled_potential frequencies_threshold omegas sigma_small
                    kern n_modes n_replicas returned p mup mupp Hrun Hp
                    ltac:(apply Hpass) ltac:(apply Hpass)) as Hiff.
      apply Hiff. split; [apply Hpass|]. split; apply Hpass.
  - intros adaptive p mup mupp p' mup' mupp' Hwidth Hpass Hpass' Hne Hout.
    apply Hsel in Hpass as Hin. apply Hsel in Hpass' as Hin'.
    pose proof (two_rows _ _ _ Hin Hin' Hne) as Hlen.
    assert (Hsize : Nat.eqb (nptk * n_modes * n_modes) 1 = false).
    { apply Nat.eqb_neq. intros Hone.
      destruct Hpass as (Hp & Hm & Hm' & _).
      destruct Hpass' as (Hq & Hn & Hn' & _).
      assert (nptk = 1 /\ n_modes = 1)%nat as [H1 H2] by nia.
      apply Hne. f_equal; [f_equal|]; lia. }
    apply list_elem_of_lookup in Hin as [i Hi].
    unfold run, calculate_single_gamma.
    set (rows := interactions pi is_plus index_k mu (seq 0 nptk) frequencies
                   nptk frequencies_threshold omegas
                   (index_kpp_of is_plus k_size index_k) sigma_small n_modes)
      in *.
    destruct rows as [|r rs] eqn:Hrows; [cbn in Hlen; lia|].
    rewrite <- Hrows in *. clear Hrows.
    unfold density_of_states, sigma_size_is_one. rewrite Hwidth, Hsize.
    rewrite triangular_delta_array_outside; [reflexivity | | |].
    + rewrite !length_map. reflexivity.
    + rewrite length_map. exact Hlen.
    + eexists i, _, _. rewrite !list_lookup_fmap, Hi. cbn [fmap option_fmap option_map fst snd].
      split; [reflexivity|]. split; [reflexivity|]. cbn [width_at].
      eapply Qle_trans; [exact Hout|].
      unfold mismatch, omegas_difference, pp.
      rewrite seq_nth, index_kpp_of_nth by apply Hpass.
      assert (Hsign : second_sign is_plus = if is_plus then 1%Z else (-1)%Z)
        by (destruct is_plus; reflexivity).
      rewrite Hsign. cbn [Nat.add]. apply Qle_Qabs.
Qed.

Lemma energy_window_selects_triplets_witness :
  single_gamma_call Toy.lib Toy.adaptive true 0 1 triangular_delta
  = Raise ValueError /\
  (calculate_gamma Toy.lib Toy.adaptive false Toy.fresh).2 = Raise ValueError.
Proof.
  split; [|vm_compute; reflexivity].
  unfold single_gamma_call.
  eapply (proj2 (energy_window_selects_triplets
                   (lib_pi Toy.lib) (lib_sqrt Toy.lib) (lib_hbar Toy.lib)
                   (lib_mol Toy.lib) (lib_J Toy.lib) true 0 1
                   (kpts Toy.adaptive) (frequencies Toy.adaptive)
                   (occupations Toy.adaptive) _ _ _ _ _
                   (frequency_threshold Toy.adaptive) _ _ _ _)
            _ 0 1 0 0 0 1)%nat.
  - reflexivity.
  - repeat split; try (cbv; lia); q_decide.
  - repeat split; try (cbv; lia); q_decide.
  - discriminate.
  - q_decide.
Defined.

(** ** The totals of a run *)

Lemma quiet_refl (is_plus : bool) (s : state) : quiet is_plus s s.
Proof. repeat split. Qed.

Lemma quiet_trans (is_plus : bool) (s1 s2 s3 : state) :
  quiet is_plus s1 s2 -> quiet is_plus s2 s3 -> quiet is_plus s1 s3.
Proof. intros (G1 & P1 & F1) (G2 & P2 & F2). repeat split; congruence. Qed.

#[export] Hint Resolve quiet_refl quiet_trans : rel.

Lemma tensor_update_quiet (b : bool) nu nup subtract value :
  keeps (quiet b) (tensor_update nu nup subtract value) (fun _ => True).
Proof.
  by_step (tensor_update_step nu nup subtract value).
  intros (t & r & c & _ & ->). repeat split.
Qed.

Lemma maybe_scatter_quiet (b enabled is_plus : bool) nu nup nupp value :
  keeps (quiet b)
    (if enabled then scatter_into_tensor is_plus nu nup nupp value
     else ret tt)
    (fun _ => True).
Proof.
  destruct enabled; [|k_skip]. unfold scatter_into_tensor.
  destruct is_plus; (k_bind; [apply tensor_update_quiet|]);
    intros; apply tensor_update_quiet.
Qed.

Lemma index_of_nat (n nu j : nat) :
  Np.index n (Z.of_nat nu) = Ok j -> j = nu.
Proof.
  unfold Np.index.
  destruct ((0 <=? Z.of_nat nu)%Z && (Z.of_nat nu <? Z.of_nat n)%Z).
  - intros H. injection H as <-. apply Nat2Z.id.
  - replace (Z.of_nat nu <? 0)%Z with false by (symmetry; apply Z.ltb_ge; lia).
    rewrite andb_false_r. discriminate.
Qed.

(** Lines 372-394 on a returned [gamma_out]: the two sums are added at the
    bra mode, and the file of the other pass is not touched. *)
Lemma commit_ok (lib : numerics) (ph : phonons) (enabled is_plus : bool)
    (nu : nat) (out : gamma_out) (s s' : state) :
  commit lib ph enabled is_plus nu out s = (s', Ok tt) ->
  _gamma s' = alter (fun x => x + Np.sum (pot_times_dirac out)) nu (_gamma s) /\
  _ps s' = alter (fun x => x + Np.sum (dirac_delta out)) nu (_ps s) /\
  progress_file (negb is_plus) s' = progress_file (negb is_plus) s.
Proof.
  unfold commit. intros H.
  destruct (accumulate Gamma Computed is_plus (Z.of_nat nu)
              (Np.sum (pot_times_dirac out)) s) as [s1 [[]|e]] eqn:Hg;
    [rewrite (bind_ok _ _ _ _ _ Hg) in H
    |rewrite (bind_raise _ _ _ _ _ Hg) in H; discriminate].
  destruct (accumulate Ps Computed is_plus (Z.of_nat nu)
              (Np.sum (dirac_delta out)) s1) as [s2 [[]|e]] eqn:Hp;
    [rewrite (bind_ok _ _ _ _ _ Hp) in H
    |rewrite (bind_raise _ _ _ _ _ Hp) in H; discriminate].
  rewrite accumulate_eq in Hg, Hp. cbn [accumulator_of] in Hg, Hp.
  destruct (Np.index (length (_gamma s)) (Z.of_nat nu)) as [j|e] eqn:Hj;
    [|discriminate].
  destruct (Np.index (length (_ps s1)) (Z.of_nat nu)) as [j'|e] eqn:Hj';
    [|discriminate].
  apply index_of_nat in Hj, Hj'. subst j j'.
  injection Hg as Hs1. injection Hp as Hs2.
  match type of H with
  | bind ?loop _ s2 = _ =>
      assert (Hloop : quiet is_plus s2 (loop s2).1);
      [|destruct (loop s2) as [s3 [[]|e]] eqn:Hrun;
        [rewrite (bind_ok _ _ _ _ _ Hrun) in H
        |rewrite (bind_raise _ _ _ _ _ Hrun) in H; discriminate]]
  end.
  { match goal with
    | |- quiet _ _ (?loop _).1 =>
        assert (Hk : keeps (quiet is_plus) loop (fun _ => True));
        [|apply Hk]
    end.
    k_for (fun _ : unit => True); [|exact I].
    intros t [] _ _. k_bind; [apply maybe_scatter_quiet|].
    intros _ _. k_ret. exact I. }
  cbn [fst] in Hloop. destruct Hloop as (G3 & P3 & F3).
  unfold savetxt, bind, get, modify in H. injection H as <-.
  split; [|split].
  - transitivity (_gamma s3); [destruct is_plus; reflexivity|].
    rewrite G3, <- Hs2, <- Hs1. reflexivity.
  - transitivity (_ps s3); [destruct is_plus; reflexivity|].
    rewrite P3, <- Hs2, <- Hs1. reflexivity.
  - transitivity (progress_file (negb is_plus) s3);
      [destruct is_plus; reflexivity|].
    rewrite F3, <- Hs2, <- Hs1. destruct is_plus; reflexivity.
Qed.

(** Lines 355-394 for a bra mode the resume test lets through. *)
Lemma mode_body_ok (lib : numerics) (ph : phonons) (enabled is_plus : bool)
    (initial_k initial_mu index_k mu : nat) (kern : kernel) (fr : frame)
    (s s' : state) (f : flow frame) :
  Nat.eqb index_k initial_k && Nat.ltb mu initial_mu = false ->
  broadening_function fr = Some kern ->
  mode_body lib ph enabled is_plus initial_k initial_mu index_k
    (index_kpp_of is_plus (kpts ph) index_k)
    (sigma_small_of lib ph (index_kpp_of is_plus (kpts ph) index_k))
    mu fr s
  = (s', Ok f) ->
  exists fr',
    f = Continue fr' /\ broadening_function fr' = Some kern /\
    file fr' = true /\
    _gamma s' = add_computed lib ph is_plus kern Gamma (_gamma s) (index_k, mu) /\
    _ps s' = add_computed lib ph is_plus kern Ps (_ps s) (index_k, mu) /\
    progress_file (negb is_plus) s' = progress_file (negb is_plus) s.
Proof.
  intros Hcond Hkern. unfold mode_body. rewrite Hcond.
  set (opened := if file fr then ret tt else open_progress_file is_plus).
  assert (Hopen : exists s0, opened s = (s0, Ok tt) /\ quiet is_plus s s0).
  { unfold opened. destruct (file fr).
    - exists s. split; [reflexivity | apply quiet_refl].
    - eexists. split; [apply open_progress_file_eq|].
      repeat split; destruct is_plus; reflexivity. }
  destruct Hopen as (s0 & Hopen & G0 & P0 & F0).
  rewrite (bind_ok _ _ _ _ _ Hopen).
  cbn [broadening_function read_nu file]. rewrite Hkern.
  unfold add_computed. cbn [fst snd].
  destruct (Np.ltb (frequency_threshold ph) (frequencies ph index_k mu)).
  2: { cbn [ret]. intros H. injection H as <- <-.
       eexists. split; [reflexivity|]. repeat split; assumption. }
  unfold bind at 1, modify at 1.
  fold (single_gamma_call lib ph is_plus index_k mu kern).
  unfold bind at 1, lift at 1.
  destruct (single_gamma_call lib ph is_plus index_k mu kern)
    as [[out|]|e]; [| |discriminate].
  - destruct (commit lib ph enabled is_plus (index_k * (n_particles ph * 3) + mu)
                out (log_event (EvEvaluated is_plus
                                  (index_k * (n_particles ph * 3) + mu)) s0))
      as [s1 [[]|e]] eqn:Hcommit;
      [rewrite (bind_ok _ _ _ _ _ Hcommit)
      |rewrite (bind_raise _ _ _ _ _ Hcommit); discriminate].
    cbn [ret]. intros H. injection H as <- <-.
    apply commit_ok in Hcommit as (G1 & P1 & F1).
    eexists. split; [reflexivity|]. split; [reflexivity|].
    split; [reflexivity|].
    cbn [summed]. rewrite G1, P1, F1. cbn. rewrite G0, P0.
    split; [reflexivity|]. split; [reflexivity|].
    rewrite <- F0. destruct is_plus; reflexivity.
  - cbn [ret]. intros H. injection H as <- <-.
    eexists. split; [reflexivity|]. split; [reflexivity|].
    split; [reflexivity|]. cbn. rewrite G0, P0.
    split; [reflexivity|]. split; [reflexivity|].
    rewrite <- F0. destruct is_plus; reflexivity.
Qed.

(** The loop over the branches of a wavevector the resume test lets
    through. *)
Lemma modes_loop_ok (lib : numerics) (ph : phonons) (enabled is_plus : bool)
    (initial_k initial_mu index_k : nat) (kern : kernel) (mus : list nat)
    (fr fr' : frame) (s s' : state) :
  Nat.eqb index_k initial_k && Nat.ltb 0 initial_mu = false ->
  broadening_function fr = Some kern ->
  for_in mus
    (mode_body lib ph enabled is_plus initial_k initial_mu index_k
       (index_kpp_of is_plus (kpts ph) index_k)
       (sigma_small_of lib ph (index_kpp_of is_plus (kpts ph) index_k)))
    fr s
  = (s', Ok fr') ->
  broadening_function fr' = Some kern /\
  (mus <> [] -> file fr' = true) /\ (mus = [] -> fr' = fr) /\
  _gamma s'
  = fold_left (add_computed lib ph is_plus kern Gamma)
              (mu ← mus; [(index_k, mu)]) (_gamma s) /\
  _ps s'
  = fold_left (add_computed lib ph is_plus kern Ps)
              (mu ← mus; [(index_k, mu)]) (_ps s) /\
  progress_file (negb is_plus) s' = progress_file (negb is_plus) s.
Proof.
  intros Hcond. revert fr s.
  induction mus as [|mu mus IH]; intros fr s Hkern; cbn [for_in].
  - cbn [ret]. intros H. injection H as <- <-.
    split; [exact Hkern|]. split; [congruence|]. repeat split.
  - assert (Hmu : Nat.eqb index_k initial_k && Nat.ltb mu initial_mu = false).
    { apply andb_false_iff. apply andb_false_iff in Hcond as [H|H];
        [left; exact H | right].
      apply Nat.ltb_ge. apply Nat.ltb_ge in H. lia. }
    destruct (mode_body lib ph enabled is_plus initial_k initial_mu index_k
                (index_kpp_of is_plus (kpts ph) index_k)
                (sigma_small_of lib ph (index_kpp_of is_plus (kpts ph) index_k))
                mu fr s) as [s1 [f|e]] eqn:Hbody;
      [rewrite (bind_ok _ _ _ _ _ Hbody)
      |rewrite (bind_raise _ _ _ _ _ Hbody); discriminate].
    apply (mode_body_ok _ _ _ _ _ _ _ _ kern) in Hbody
      as (fr1 & -> & Hk1 & Hf1 & G1 & P1 & F1); [|exact Hmu|exact Hkern].
    intros Hrest. apply IH in Hrest as (Hk & Hfile & Hnil & G & P & F);
      [|exact Hk1].
    split; [exact Hk|]. split.
    { intros _. destruct mus as [|mu' mus'].
      - rewrite (Hnil eq_refl). exact Hf1.
      - apply Hfile. discriminate. }
    split; [discriminate|].
    cbn [mbind list_bind app fold_left]. rewrite G, P, F, G1, P1, F1.
    repeat split.
Qed.

Lemma select_broadening_bound (lib : numerics) (shape : string)
    (kern : kernel) (bound : option kernel) :
  select_broadening lib shape None = Some kern ->
  select_broadening lib shape bound = Some kern.
Proof.
  unfold select_broadening.
  destruct (String.eqb shape "gauss"); [auto|].
  destruct (String.eqb shape "lorentz"); [auto|].
  destruct (String.eqb shape "triangle"); [auto | discriminate].
Qed.

(** The branches a pass goes through at the wavevector [index_k]. *)
Lemma wavevector_body_ok (lib : numerics) (ph : phonons)
    (enabled is_plus : bool) (initial_k initial_mu index_k : nat)
    (kern : kernel) (fr : frame) (s s' : state) (f : flow frame) :
  select_broadening lib (broadening_shape ph) None = Some kern ->
  wavevector_body lib ph enabled is_plus initial_k initial_mu index_k fr s
  = (s', Ok f) ->
  let modes :=
    if Nat.eqb index_k initial_k && Nat.ltb 0 initial_mu then []
    else (mu ← seq 0 (n_particles ph * 3); [(index_k, mu)]) in
  exists fr',
    f = Continue fr' /\
    _gamma s' = fold_left (add_computed lib ph is_plus kern Gamma) modes
                          (_gamma s) /\
    _ps s' = fold_left (add_computed lib ph is_plus kern Ps) modes (_ps s) /\
    progress_file (negb is_plus) s' = progress_file (negb is_plus) s.
Proof.
  intros Hname. unfold wavevector_body.
  destruct (is_amorphous ph); [discriminate|].
  set (fr0 := Frame (read_nu fr) (file fr)
                (select_broadening lib (broadening_shape ph)
                                   (broadening_function fr))).
  assert (Hk0 : broadening_function fr0 = Some kern)
    by (apply select_broadening_bound, Hname).
  destruct (Nat.eqb index_k initial_k && Nat.ltb 0 initial_mu) eqn:Hcond.
  - apply andb_true_iff in Hcond as [Hk Hmu].
    apply Nat.eqb_eq in Hk. subst index_k. apply Nat.ltb_lt in Hmu.
    rewrite (bind_ok _ _ _ _ _
               (resumed_wavevector_is_left lib ph enabled is_plus initial_k
                  initial_mu _ _ fr0 s Hmu)).
    cbn [ret]. intros H. injection H as <- <-.
    eexists. split; [reflexivity|]. repeat split.
  - match goal with
    | |- bind ?loop _ s = _ -> _ =>
        destruct (loop s) as [s1 [fr1|e]] eqn:Hloop;
        [rewrite (bind_ok _ _ _ _ _ Hloop)
        |rewrite (bind_raise _ _ _ _ _ Hloop); discriminate]
    end.
    cbn [ret]. intros H. injection H as <- <-.
    apply (modes_loop_ok _ _ _ _ _ _ _ kern) in Hloop
      as (_ & _ & _ & G & P & F); [|exact Hcond|exact Hk0].
    eexists. split; [reflexivity|]. cbn zeta. auto.
Qed.

(** The loop over the wavevectors of a pass. *)
Lemma wavevectors_loop_ok (lib : numerics) (ph : phonons)
    (enabled is_plus : bool) (initial_k initial_mu : nat) (kern : kernel)
    (ks : list nat) (fr fr' : frame) (s s' : state) :
  select_broadening lib (broadening_shape ph) None = Some kern ->
  for_in ks (wavevector_body lib ph enabled is_plus initial_k initial_mu) fr s
  = (s', Ok fr') ->
  let modes :=
    index_k ← ks;
    if Nat.eqb index_k initial_k && Nat.ltb 0 initial_mu then []
    else (mu ← seq 0 (n_particles ph * 3); [(index_k, mu)]) in
  _gamma s' = fold_left (add_computed lib ph is_plus kern Gamma) modes
                        (_gamma s) /\
  _ps s' = fold_left (add_computed lib ph is_plus kern Ps) modes (_ps s) /\
  progress_file (negb is_plus) s' = progress_file (negb is_plus) s.
Proof.
  intros Hname. revert fr s.
  induction ks as [|index_k ks IH]; intros fr s; cbn [for_in].
  - cbn [ret]. intros H. injection H as <- <-. repeat split.
  - destruct (wavevector_body lib ph enabled is_plus initial_k initial_mu
                index_k fr s) as [s1 [f|e]] eqn:Hbody;
      [rewrite (bind_ok _ _ _ _ _ Hbody)
      |rewrite (bind_raise _ _ _ _ _ Hbody); discriminate].
    apply (wavevector_body_ok _ _ _ _ _ _ _ kern) in Hbody
      as (fr1 & -> & G1 & P1 & F1); [|exact Hname].
    intros Hrest. apply IH in Hrest as (G & P & F).
    cbn zeta in *. cbn [mbind list_bind]. rewrite !fold_left_app.
    rewrite G, P, F, G1, P1, F1. repeat split.
Qed.

(** Lines 234-255: the replay adds every line of the file in order, hands
    on the bra mode of the last one and leaves the files alone. *)
Lemma replay_ok (enabled is_plus : bool) (bound : option kernel)
    (s s' : state) (fr : frame) :
  replay enabled is_plus bound s = (s', Ok fr) ->
  read_nu fr = last_nu (lines is_plus s) /\
  _gamma s' = fold_left (add_line 3) (lines is_plus s) (_gamma s) /\
  _ps s' = fold_left (add_line 4) (lines is_plus s) (_ps s) /\
  forall b, progress_file b s' = progress_file b s.
Proof.
  intros Hreplay.
  pose proof (replay_only_replayed enabled is_plus bound s) as [[Hfiles _] _].
  rewrite Hreplay in Hfiles. cbn [fst] in Hfiles.
  unfold lines. destruct (progress_file is_plus s) as [log|] eqn:Hfile;
    cbn [default].
  - split; [eapply replay_returns; eassumption|].
    revert Hreplay. unfold replay. unfold bind at 1, get at 1.
    rewrite Hfile. unfold bind.
    destruct (for_in log _ (-1)%Z s) as [s2 [r|e]] eqn:Hloop; [|discriminate].
    cbn [ret]. intros H. injection H as <- _.
    apply replay_loop_totals in Hloop. tauto.
  - revert Hreplay. unfold replay. unfold bind at 1, get at 1.
    rewrite Hfile. cbn [ret]. intros H. injection H as <- <-.
    repeat split.
Qed.

(** One pass: the replay of its progress file, then the fresh
    evaluations. *)
Lemma pass_ok (lib : numerics) (ph : phonons) (enabled is_plus : bool)
    (bound bound' : option kernel) (kern : kernel) (s s' : state) :
  select_broadening lib (broadening_shape ph) None = Some kern ->
  pass lib ph enabled is_plus bound s = (s', Ok bound') ->
  _gamma s'
  = pass_totals lib ph kern Gamma is_plus (lines is_plus s) (_gamma s) /\
  _ps s' = pass_totals lib ph kern Ps is_plus (lines is_plus s) (_ps s) /\
  progress_file (negb is_plus) s' = progress_file (negb is_plus) s.
Proof.
  intros Hname. unfold pass.
  destruct (replay enabled is_plus bound s) as [s1 [fr|e]] eqn:Hreplay;
    [rewrite (bind_ok _ _ _ _ _ Hreplay)
    |rewrite (bind_raise _ _ _ _ _ Hreplay); discriminate].
  apply replay_ok in Hreplay as (Hnu & G1 & P1 & F1).
  cbn [read_nu file broadening_function]. rewrite Hnu.
  unfold pass_totals, modes_after. cbn [column].
  destruct (last_nu (lines is_plus s) + 1 <?
            Z.of_nat (np_prod (kpts ph) * (n_particles ph * 3)))%Z.
  - destruct (last_nu (lines is_plus s) + 1 <? 0)%Z; [discriminate|].
    match goal with
    | |- bind ?loop _ s1 = _ -> _ =>
        destruct (loop s1) as [s2 [fr2|e]] eqn:Hloop;
        [rewrite (bind_ok _ _ _ _ _ Hloop)
        |rewrite (bind_raise _ _ _ _ _ Hloop); discriminate]
    end.
    destruct (file fr2); [|discriminate].
    cbn [ret]. intros H. injection H as <- _.
    apply (wavevectors_loop_ok _ _ _ _ _ _ kern) in Hloop as (G & P & F);
      [|exact Hname].
    cbn zeta in G, P. rewrite G, P, F, G1, P1. repeat split. apply F1.
  - cbn [ret]. intros H. injection H as <- _.
    cbn [fold_left]. repeat split; [exact G1 | exact P1 | apply F1].
Qed.


